(** * Schema architect: extraction and consolidation engine

    A shallow embedding of the Go program that extracts table metadata
    from GoFrame structs and from an OpenAPI v3 document and consolidates
    it by normalized entity name, together with the properties of it that
    the specification states.

    Go strings are byte sequences: they are [string] here (a list of
    [ascii] bytes).  Go maps are [gmap]s; a pointer that may be nil is an
    [option]. *)

From Stdlib Require Import ZArith List Ascii String Sorting.Permutation.
From Stdlib Require Import DecimalString DecimalN DecimalFacts.
From Stdlib Require Import Floats.SpecFloat.
From stdpp Require Import base option list gmap strings sorting fin_maps.

Local Open Scope string_scope.
Local Open Scope list_scope.

(* ================================================================== *)
(** * The part of Go's [strings] package that the program uses *)
(* ================================================================== *)

Module strings.

(** [s[n:]] *)
Fixpoint from (n : nat) (s : string) : string :=
  match n, s with
  | O, _ => s
  | S n', String _ s' => from n' s'
  | S _, EmptyString => EmptyString
  end.

(** [s[:n]] *)
Fixpoint upto (n : nat) (s : string) : string :=
  match n, s with
  | O, _ => EmptyString
  | S n', String a s' => String a (upto n' s')
  | S _, EmptyString => EmptyString
  end.

(** [len(s) >= len(prefix) && s[:len(prefix)] == prefix] *)
Definition HasPrefix (s pre : string) : bool :=
  (String.length pre <=? String.length s)%nat
  && String.eqb (upto (String.length pre) s) pre.

(** [len(s) >= len(suffix) && s[len(s)-len(suffix):] == suffix] *)
Definition HasSuffix (s suf : string) : bool :=
  (String.length suf <=? String.length s)%nat
  && String.eqb (from (String.length s - String.length suf) s) suf.

Definition TrimPrefix (s pre : string) : string :=
  if HasPrefix s pre then from (String.length pre) s else s.

Definition TrimSuffix (s suf : string) : string :=
  if HasSuffix s suf
  then upto (String.length s - String.length suf) s else s.

(** [TrimLeftFunc] and [TrimRightFunc] over bytes, as [Trim] runs them
    for a cutset of one ASCII byte. *)
Fixpoint TrimLeftFunc (f : ascii -> bool) (s : string) : string :=
  match s with
  | EmptyString => EmptyString
  | String a s' => if f a then TrimLeftFunc f s' else s
  end.

Fixpoint TrimRightFunc (f : ascii -> bool) (s : string) : string :=
  match s with
  | EmptyString => EmptyString
  | String a s' =>
      match TrimRightFunc f s' with
      | EmptyString => if f a then EmptyString else String a EmptyString
      | t => String a t
      end
  end.

(** The white space of [unicode.IsSpace], each code point as the bytes
    of its UTF-8 encoding: tab, line feed, vertical tab, form feed,
    carriage return and space, then U+0085 and U+00A0, then U+1680,
    U+2000 to U+200A, U+2028, U+2029, U+202F, U+205F and U+3000. *)
Definition whiteSpace : list string :=
  [ String "009" ""; String "010" ""; String "011" ""; String "012" "";
    String "013" ""; String "032" "";
    String "194" (String "133" "");
    String "194" (String "160" "");
    String "225" (String "154" (String "128" ""));
    String "226" (String "128" (String "128" ""));
    String "226" (String "128" (String "129" ""));
    String "226" (String "128" (String "130" ""));
    String "226" (String "128" (String "131" ""));
    String "226" (String "128" (String "132" ""));
    String "226" (String "128" (String "133" ""));
    String "226" (String "128" (String "134" ""));
    String "226" (String "128" (String "135" ""));
    String "226" (String "128" (String "136" ""));
    String "226" (String "128" (String "137" ""));
    String "226" (String "128" (String "138" ""));
    String "226" (String "128" (String "168" ""));
    String "226" (String "128" (String "169" ""));
    String "226" (String "128" (String "175" ""));
    String "226" (String "129" (String "159" ""));
    String "227" (String "128" (String "128" "")) ].

(** [TrimLeftFunc(s, unicode.IsSpace)]: while the text begins with a
    white-space rune, the rune is removed.  These encodings are the only
    bytes that decode to a white-space rune, and bytes that do not decode
    are U+FFFD, which is no white space.  [n] bounds the number of runes
    removed; the length of the text is enough. *)
Fixpoint trimLeftSpace (n : nat) (s : string) : string :=
  match n with
  | O => s
  | S n' =>
      match find (HasPrefix s) whiteSpace with
      | Some w => trimLeftSpace n' (from (String.length w) s)
      | None => s
      end
  end.

(** [TrimRightFunc(s, unicode.IsSpace)]: the same from the end, where
    the last rune is found by stepping back over continuation bytes. *)
Fixpoint trimRightSpace (n : nat) (s : string) : string :=
  match n with
  | O => s
  | S n' =>
      match find (HasSuffix s) whiteSpace with
      | Some w => trimRightSpace n' (upto (String.length s - String.length w) s)
      | None => s
      end
  end.

(** [TrimSpace]: its loops over the ASCII bytes at both ends hand over
    to the two functions above at the first byte beyond ASCII, so the
    result is theirs. *)
Definition TrimSpace (s : string) : string :=
  let s := trimLeftSpace (String.length s) s in
  trimRightSpace (String.length s) s.

(** [Trim(s, cutset)] for a cutset of one byte. *)
Definition Trim (s : string) (cut : ascii) : string :=
  TrimRightFunc (Ascii.eqb cut) (TrimLeftFunc (Ascii.eqb cut) s).

Definition mapBytes (f : ascii -> ascii) : string -> string :=
  fix go s :=
    match s with
    | EmptyString => EmptyString
    | String a s' => String (f a) (go s')
    end.

Definition lowerByte (a : ascii) : ascii :=
  let n := nat_of_ascii a in
  if (65 <=? n)%nat && (n <=? 90)%nat then ascii_of_nat (n + 32) else a.

Definition upperByte (a : ascii) : ascii :=
  let n := nat_of_ascii a in
  if (97 <=? n)%nat && (n <=? 122)%nat then ascii_of_nat (n - 32) else a.

(** Whether every byte is below [utf8.RuneSelf]: the test by which
    [ToLower] and [ToUpper] choose their ASCII path. *)
Fixpoint isASCII (s : string) : bool :=
  match s with
  | EmptyString => true
  | String a s' => (nat_of_ascii a <? 128)%nat && isASCII s'
  end.

(** U+FFFD, which Go writes for a byte that is no UTF-8 text. *)
Definition RuneError : string := String "239" (String "191" (String "189" "")).

(** [ToLower]: on ASCII text, where Go takes its ASCII path, the
    letters A to Z become a to z and nothing else changes.  On a text
    with a byte beyond ASCII Go maps every rune through the case tables
    of package [unicode]; those tables are no part of this development,
    so there the bytes beyond ASCII are kept here, and the statements
    that look inside [ToLower] are about ASCII text. *)
Definition ToLower : string -> string := mapBytes lowerByte.

(** [ToUpper]: on ASCII text the letters a to z become A to Z.  A single
    byte beyond ASCII, as in [ToUpper(s[:1])], is no UTF-8 text, and Go
    writes U+FFFD for it.  For a longer text with a byte beyond ASCII the
    remark on [ToLower] applies. *)
Definition ToUpper (s : string) : string :=
  if isASCII s then mapBytes upperByte s
  else match s with
       | String _ EmptyString => RuneError
       | _ => mapBytes upperByte s
       end.

(** [ReplaceAll(s, old, new)] for a one-byte [old]. *)
Fixpoint ReplaceAll (s : string) (old : ascii) (new : string) : string :=
  match s with
  | EmptyString => EmptyString
  | String a s' =>
      if Ascii.eqb a old then new +:+ ReplaceAll s' old new
      else String a (ReplaceAll s' old new)
  end.

(** [Split(s, sep)] for a one-byte separator: never the empty list. *)
Fixpoint Split (s : string) (sep : ascii) : list string :=
  match s with
  | EmptyString => [EmptyString]
  | String a s' =>
      if Ascii.eqb a sep then EmptyString :: Split s' sep
      else match Split s' sep with
           | [] => [String a EmptyString]
           | w :: ws => String a w :: ws
           end
  end.

(** [Cut(s, sep)]: the text before and after the first [sep]. *)
Fixpoint Cut (s : string) (sep : ascii) : option (string * string) :=
  match s with
  | EmptyString => None
  | String a s' =>
      if Ascii.eqb a sep then Some (EmptyString, s')
      else match Cut s' sep with
           | Some (b, r) => Some (String a b, r)
           | None => None
           end
  end.

(** [SplitN(s, sep, 2)] for a one-byte separator. *)
Definition SplitN2 (s : string) (sep : ascii) : list string :=
  match Cut s sep with
  | Some (b, r) => [b; r]
  | None => [s]
  end.

(** [LastIndex(s, sep)] for a one-byte separator. *)
Fixpoint LastIndex (s : string) (sep : ascii) : option nat :=
  match s with
  | EmptyString => None
  | String a s' =>
      match LastIndex s' sep with
      | Some i => Some (S i)
      | None => if Ascii.eqb a sep then Some O else None
      end
  end.

End strings.

(** [fmt.Sprintf("%d", i)] for a non-negative [i]. *)
Definition decimal (i : N) : string :=
  NilEmpty.string_of_uint (N.to_uint i).

(** ** Sorting *)

(** [sort.Strings]: the keys it sorts are pairwise distinct and the order
    is total, so the result is the one sorted arrangement whatever the
    algorithm. *)
Definition sortStrings (l : list string) : list string :=
  merge_sort String.le l.

(** [sort.Slice(data, less)] as the insertion sort that Go runs on a
    slice of at most twelve elements: element [i] sinks to the left while
    it is less than its predecessor.  [sink] works on the reversed sorted
    prefix.  Longer slices go through pattern-defeating quicksort, whose
    result may order equal elements differently. *)
Fixpoint sink {A} (less : A -> A -> bool) (x : A) (revPrefix : list A) : list A :=
  match revPrefix with
  | y :: ys => if less x y then y :: sink less x ys else x :: revPrefix
  | [] => [x]
  end.

Definition sortSlice {A} (less : A -> A -> bool) (data : list A) : list A :=
  rev (fold_left (fun acc x => sink less x acc) data []).

(** ** Outcomes *)

(** What a call does: it returns, or it stops in a Go run-time panic
    (a nil pointer dereference, an index out of range), or the fuel that
    bounds a loop or a recursion in this embedding ran out. *)
Inductive outcome (A : Type) : Type :=
  | Returns (a : A)
  | Panics
  | OutOfFuel.
Arguments Returns {A} a.
Arguments Panics {A}.
Arguments OutOfFuel {A}.

Definition andThen {A B} (c : outcome A) (f : A -> outcome B) : outcome B :=
  match c with
  | Returns a => f a
  | Panics => Panics
  | OutOfFuel => OutOfFuel
  end.

Notation "'let!' x ':=' c 'in' k" := (andThen c (fun x => k))
  (at level 10, x name, c at level 100, k at level 200,
   format "'[v' 'let!'  x  ':='  c  'in' '/' k ']'").

Definition foldOutcome {A B} (f : B -> A -> outcome B) : list A -> B -> outcome B :=
  fix go l b :=
    match l with
    | [] => Returns b
    | x :: l' => let! b' := f b x in go l' b'
    end.

(* ================================================================== *)
(** * Data model *)
(* ================================================================== *)

(** A [float64].  Comparison is [SFltb], IEEE 754's: false whenever an
    operand is not a number. *)
Definition float64 : Type := spec_float.

Definition fltb (x y : float64) : bool := SFltb x y.
Arguments fltb : simpl never.

Record FieldConstraints := {
  Required : bool;
  Nullable : bool;
  MinLength : option Z;
  MaxLength : option Z;
  Minimum : option float64;
  Maximum : option float64;
  Pattern : string;
  Format : string;
  Enum : list string
}.

Record ColumnInfo := {
  Name : string;
  JSONName : string;
  cType : string;
  cValidation : string;
  cDescription : string;
  Additional : string;
  Constraints : option FieldConstraints;
  Ref : string;
  IsArray : bool;
  cSource : string
}.

Record RelationNode := {
  FieldName : string;
  TargetStruct : string;
  IsCollection : bool;
  TargetKey : string;
  SourceKey : string;
  rValidation : string;
  rDescription : string
}.

Record OperationInfo := {
  Method : string;
  Path : string;
  OperationID : string;
  Summary : string;
  Tags : list string;
  RequestSchema : string;
  ResponseSchema : string;
  oSource : string
}.

(** [Relations] is a slice of pointers: an element may be nil. *)
Record TableMetadata := {
  StructName : string;
  NormalizedName : string;
  Source : string;
  Columns : list ColumnInfo;
  Relations : list (option RelationNode);
  Operations : list OperationInfo
}.

Abbreviation SchemaMap := (gmap string TableMetadata).

Record ConsolidatedSchema := {
  Entities : gmap string TableMetadata;
  EntityList : list TableMetadata;
  GeneratedBy : string
}.

(* ================================================================== *)
(** * Entity name normalizer *)
(* ================================================================== *)

Definition suffixes : list string :=
  [ "Req"; "Request"; "Res"; "Response"; "Input"; "Output";
    "Create"; "Update"; "Add"; "Edit"; "Delete";
    "Item"; "Detail"; "List"; "Get"; "Query"; "Form";
    "Dto"; "DTO" ].

Definition prefixes : list string := [ "V1"; "V2"; "Api" ].

(** The value of [cleaned] when the emptiness test is reached. *)
Definition stripAffixes (name : string) : string :=
  let cleaned := fold_left strings.TrimPrefix prefixes name in
  let cleaned := fold_left strings.TrimSuffix suffixes cleaned in
  strings.TrimSuffix cleaned "s".

Definition normalizeEntityName (name : string) : string :=
  let cleaned := stripAffixes name in
  if decide (cleaned = "") then name else cleaned.

(* ================================================================== *)
(** * Source-structure extractor: the accumulator and the [with:] tag *)
(* ================================================================== *)

(** The loop of [putSchema]: [key] is the candidate and [i] the counter
    of the [for] statement; every iteration uses one unit of fuel.  The
    counter is an [int] in Go; it stays below the number of entries of the
    map plus two, far from the point where it would wrap around. *)
Fixpoint putSchemaLoop (fuel : nat) (schema : SchemaMap) (table : TableMetadata)
    (key : string) (i : N) : outcome SchemaMap :=
  match fuel with
  | O => OutOfFuel
  | S fuel' =>
      match schema !! key with
      | None => Returns (<[key := table]> schema)
      | Some _ =>
          putSchemaLoop fuel' schema table
            (StructName table +:+ "__" +:+ decimal i) (i + 1)%N
      end
  end.

(** A map of [n] entries holds at most [n] of the [n + 1] first
    candidates, so [n + 1] iterations are enough. *)
Definition putSchema (schema : SchemaMap) (table : TableMetadata) : outcome SchemaMap :=
  putSchemaLoop (S (size schema)) schema table (StructName table) 2%N.

(** The [j]-th key that the loop tries: [base], [base__2], [base__3],
    and so on. *)
Definition suffixOf (j : nat) : string :=
  match j with
  | O => ""
  | S _ => "__" +:+ decimal (N.of_nat j + 1)
  end.

Definition candidateKey (base : string) (j : nat) : string := base +:+ suffixOf j.

(** The scan of the comma-separated segments, up to its [break]. *)
Fixpoint withSegment (parts : list string) : string :=
  match parts with
  | [] => ""
  | p :: parts' =>
      let p := strings.TrimSpace p in
      if strings.HasPrefix p "with:" then strings.TrimPrefix p "with:"
      else withSegment parts'
  end.

Definition parseWithTag (tag : string) : option RelationNode :=
  let withPart := withSegment (strings.Split tag ","%char) in
  if decide (withPart = "") then None
  else
    let kv := strings.SplitN2 withPart "="%char in
    Some {| FieldName := ""; TargetStruct := ""; IsCollection := false;
            TargetKey := strings.TrimSpace (default "" (kv !! 0%nat));
            SourceKey := if (1 <? length kv)%nat
                         then strings.TrimSpace (default "" (kv !! 1%nat))
                         else "id";
            rValidation := ""; rDescription := "" |}.

(* ================================================================== *)
(** * API-specification extractor *)
(* ================================================================== *)

(** The decoded document.  Of [openAPISpec] only [Paths] and
    [Components.Schemas] are read.  An enum value is kept as the text
    that [fmt.Sprint] gives for it. *)
#[local] Unset Elimination Schemes.
Inductive openAPISchema := mkSchema {
  sRef : string;
  sType : string;
  sFormat : string;
  sDescription : string;
  sProperties : gmap string (option openAPISchema);
  sItems : option openAPISchema;
  sRequired : list string;
  sEnum : list string;
  sNullable : bool;
  sMinLength : option Z;
  sMaxLength : option Z;
  sMinimum : option float64;
  sMaximum : option float64;
  sPattern : string;
  sAllOf : list (option openAPISchema);
  sOneOf : list (option openAPISchema);
  sAnyOf : list (option openAPISchema)
}.
#[local] Set Elimination Schemes.

Record openAPIMediaType := { Schema : option openAPISchema }.

Record openAPIRequestBody := { rbContent : gmap string (option openAPIMediaType) }.

Record openAPIResponse := {
  respDescription : string;
  respContent : gmap string (option openAPIMediaType)
}.

Record openAPIOperation := {
  opOperationID : string;
  opSummary : string;
  opTags : list string;
  RequestBody : option openAPIRequestBody;
  Responses : gmap string (option openAPIResponse)
}.

Abbreviation openAPIPath := (gmap string (option openAPIOperation)).

Record openAPISpec := {
  Paths : gmap string openAPIPath;
  Schemas : gmap string (option openAPISchema)
}.

(** [m[k]] for a map of pointers: nil when the key is missing. *)
Definition at_key {A} (m : gmap string (option A)) (k : string) : option A :=
  default None (m !! k).

Definition openAPIRefName (ref : string) : string :=
  let pfx := "#/components/schemas/" in
  if strings.HasPrefix ref pfx then strings.TrimPrefix ref pfx
  else match strings.LastIndex ref "/"%char with
       | Some idx => strings.from (idx + 1) ref
       | None => ""
       end.

(** The three maps that [collectOpenAPIObject] updates in place. *)
Record collected := {
  visited : gset string;
  props : gmap string (option openAPISchema);
  required : gset string
}.

(** [collectOpenAPIObject]: every call uses one unit of fuel, so the fuel
    bounds the depth of the recursion. *)
Fixpoint collectOpenAPIObject (fuel : nat) (spec : openAPISpec)
    (s : option openAPISchema) (acc : collected) : outcome collected :=
  match fuel with
  | O => OutOfFuel
  | S fuel' =>
      match s with
      | None => Returns acc
      | Some s =>
          if decide (sRef s <> "") then
            let name := openAPIRefName (sRef s) in
            if decide (name = "") then Returns acc
            else if decide (name ∈ visited acc) then Returns acc
            else
              collectOpenAPIObject fuel' spec (at_key (Schemas spec) name)
                {| visited := {[ name ]} ∪ visited acc;
                   props := props acc; required := required acc |}
          else
            let acc := {| visited := visited acc; props := props acc;
                          required := required acc ∪ list_to_set (sRequired s) |} in
            let! acc := foldOutcome (fun acc sub => collectOpenAPIObject fuel' spec sub acc)
                    (sAllOf s) acc in
            let! acc := match sOneOf s with
                  | first :: _ => collectOpenAPIObject fuel' spec first acc
                  | [] => Returns acc
                  end in
            let! acc := match sAnyOf s with
                  | first :: _ => collectOpenAPIObject fuel' spec first acc
                  | [] => Returns acc
                  end in
            Returns {| visited := visited acc;
                       props := sProperties s ∪ props acc;
                       required := required acc |}
      end
  end.

(** Calls that a schema can make below itself without following a
    reference, plus two. *)
Fixpoint weight (s : openAPISchema) : nat :=
  let below := fix below (l : list (option openAPISchema)) : nat :=
    match l with
    | [] => O
    | None :: l' => S (below l')
    | Some x :: l' => (weight x + below l')%nat
    end in
  (2 + below (sAllOf s) + below (sOneOf s) + below (sAnyOf s))%nat.

Definition oweight (s : option openAPISchema) : nat :=
  match s with
  | None => 1%nat
  | Some x => weight x
  end.

(** What the component schemas not yet visited can still cost. *)
Definition unvisitedWeight (spec : openAPISpec) (seen : gset string) : nat :=
  sum_list ((fun kx : string * option openAPISchema =>
               if decide (kx.1 ∈ seen) then O else S (oweight kx.2))
            <$> map_to_list (Schemas spec)).

Definition collectFuel (spec : openAPISpec) (s : option openAPISchema)
    (seen : gset string) : nat :=
  (oweight s + unvisitedWeight spec seen)%nat.

Fixpoint typeNameOf (s : openAPISchema) : string * bool * string :=
  if decide (sRef s <> "") then
    let refName := openAPIRefName (sRef s) in
    if decide (refName = "") then ("Unknown", false, "")
    else (refName, false, refName)
  else if decide (sType s = "array") then
    let '(itemType, _, itemRef) :=
      match sItems s with
      | Some item => typeNameOf item
      | None => ("Unknown", false, "")
      end in
    ("[]" +:+ itemType, true, itemRef)
  else if decide (sType s = "object") then ("object", false, "")
  else if decide (sType s = "string") then ("string", false, "")
  else if decide (sType s = "integer") then
    if decide (sFormat s = "int64") then ("int64", false, "") else ("int", false, "")
  else if decide (sType s = "number") then
    if decide (sFormat s = "float") then ("float32", false, "") else ("float64", false, "")
  else if decide (sType s = "boolean") then ("bool", false, "")
  else if (0 <? length (sAllOf s))%nat then ("object", false, "")
  else ("Unknown", false, "").

Definition openAPITypeName (s : option openAPISchema) : string * bool * string :=
  match s with
  | None => ("Unknown", false, "")
  | Some s => typeNameOf s
  end.

(** [p != nil] *)
Definition notNil {A} (p : option A) : bool :=
  match p with
  | Some _ => true
  | None => false
  end.

Definition constraintsEmpty (c : option FieldConstraints) : bool :=
  match c with
  | None => true
  | Some c =>
      if Required c || Nullable c then false
      else if notNil (MinLength c) || notNil (MaxLength c)
              || notNil (Minimum c) || notNil (Maximum c)
      then false
      else if bool_decide (Pattern c <> "") || bool_decide (Format c <> "") then false
      else if (0 <? length (Enum c))%nat then false
      else true
  end.

Definition openAPIConstraintsForSchema (s : option openAPISchema) : option FieldConstraints :=
  match s with
  | None => None
  | Some s =>
      let c := {| Required := false; Nullable := sNullable s;
                  MinLength := sMinLength s; MaxLength := sMaxLength s;
                  Minimum := sMinimum s; Maximum := sMaximum s;
                  Pattern := sPattern s; Format := sFormat s;
                  Enum := sEnum s |} in
      if constraintsEmpty (Some c) then None else Some c
  end.

Definition emptyConstraints : FieldConstraints :=
  {| Required := false; Nullable := false; MinLength := None; MaxLength := None;
     Minimum := None; Maximum := None; Pattern := ""; Format := ""; Enum := [] |}.

Definition setRequired (c : FieldConstraints) : FieldConstraints :=
  {| Required := true; Nullable := Nullable c;
     MinLength := MinLength c; MaxLength := MaxLength c;
     Minimum := Minimum c; Maximum := Maximum c;
     Pattern := Pattern c; Format := Format c; Enum := Enum c |}.

(** One turn of the loop over the sorted property names; [ps.Description]
    dereferences [ps], which is nil for a property whose value is null. *)
Definition columnOfProperty (acc : collected) (propName : string) : outcome ColumnInfo :=
  let ps := at_key (props acc) propName in
  let '(typeName, isArray, refName) := openAPITypeName ps in
  let c := openAPIConstraintsForSchema ps in
  let c := if decide (propName ∈ required acc)
           then Some (setRequired (default emptyConstraints c)) else c in
  match ps with
  | None => Panics
  | Some p =>
      Returns {| Name := propName; JSONName := propName; cType := typeName;
                 cValidation := ""; cDescription := sDescription p;
                 Additional := ""; Constraints := c; Ref := refName;
                 IsArray := isArray; cSource := "openapi" |}
  end.

Definition openAPISchemaToTableMetadata (spec : openAPISpec) (schemaName : string)
    (schema : option openAPISchema) : outcome TableMetadata :=
  let! acc := collectOpenAPIObject (collectFuel spec schema ∅) spec schema
          {| visited := ∅; props := ∅; required := ∅ |} in
  let keys := sortStrings (map_to_list (props acc)).*1 in
  let! cols := foldOutcome
            (fun cols propName =>
               let! c := columnOfProperty acc propName in Returns (cols ++ [c]))
            keys [] in
  Returns {| StructName := schemaName;
             NormalizedName := normalizeEntityName schemaName;
             Source := "openapi";
             Columns := cols; Relations := []; Operations := [] |}.

Definition openAPISchemaRefOrItemRef (s : option openAPISchema) : string :=
  match s with
  | None => ""
  | Some s =>
      if decide (sRef s <> "") then openAPIRefName (sRef s)
      else if decide (sType s = "array") then
        match sItems s with
        | Some item => if decide (sRef item <> "") then openAPIRefName (sRef item) else ""
        | None => ""
        end
      else ""
  end.

(** [content[keys[0]].Schema] dereferences the entry of the first key. *)
Definition pickJSONMediaSchema (content : gmap string (option openAPIMediaType))
    : outcome (option openAPISchema) :=
  if decide (size content = 0%nat) then Returns None
  else match at_key content "application/json" with
  | Some mt => Returns (Schema mt)
  | None =>
  match at_key content "application/ld+json" with
  | Some mt => Returns (Schema mt)
  | None =>
      let keys := sortStrings (map_to_list content).*1 in
      match keys with
      | k :: _ =>
          match at_key content k with
          | Some mt => Returns (Schema mt)
          | None => Panics
          end
      | [] => Panics
      end
  end end.

Definition pickOpenAPISchemaRefName (rb : option openAPIRequestBody) : outcome string :=
  match rb with
  | None => Returns ""
  | Some rb =>
      if decide (size (rbContent rb) = 0%nat) then Returns ""
      else let! s := pickJSONMediaSchema (rbContent rb) in Returns (openAPISchemaRefOrItemRef s)
  end.

Definition schemaRefOfResponse (r : openAPIResponse) : outcome string :=
  let! s := pickJSONMediaSchema (respContent r) in Returns (openAPISchemaRefOrItemRef s).

(** The codes that the loop of [pickOpenAPIResponseSchemaRefName] tries. *)
Definition successCodes : list string := ["200"; "201"; "202"; "204"].

(** The loop over the success codes: the first one whose entry is not
    nil. *)
Fixpoint firstResponse (resps : gmap string (option openAPIResponse))
    (codes : list string) : option openAPIResponse :=
  match codes with
  | [] => None
  | code :: codes' =>
      match at_key resps code with
      | Some r => Some r
      | None => firstResponse resps codes'
      end
  end.

Definition pickOpenAPIResponseSchemaRefName
    (resps : gmap string (option openAPIResponse)) : outcome string :=
  if decide (size resps = 0%nat) then Returns ""
  else match firstResponse resps successCodes with
  | Some r => schemaRefOfResponse r
  | None =>
  match at_key resps "default" with
  | Some r => schemaRefOfResponse r
  | None =>
      let codes := sortStrings (map_to_list resps).*1 in
      match codes with
      | c :: _ =>
          match at_key resps c with
          | None => Returns ""
          | Some r => schemaRefOfResponse r
          end
      | [] => Panics
      end
  end end.

Definition openAPIOperationInfo (path method : string) (op : openAPIOperation)
    : outcome OperationInfo :=
  let! reqSchema := pickOpenAPISchemaRefName (RequestBody op) in
  let! respSchema := pickOpenAPIResponseSchemaRefName (Responses op) in
  Returns {| Method := method; Path := path; OperationID := opOperationID op;
             Summary := opSummary op; Tags := opTags op;
             RequestSchema := reqSchema; ResponseSchema := respSchema;
             oSource := "openapi" |}.

Definition entityFromPathHeuristic (p : string) : string :=
  let trim := strings.Trim p "/"%char in
  if decide (trim = "") then ""
  else
    let parts := strings.Split trim "/"%char in
    let parts :=
      match parts with
      | p0 :: rest =>
          if bool_decide (p0 = "api") || strings.HasPrefix p0 "v" then rest else parts
      | [] => parts
      end in
    match last parts with
    | None => ""
    | Some l =>
        let l := if strings.HasPrefix l "{" && (1 <? length parts)%nat
                 then default "" (parts !! (length parts - 2)%nat) else l in
        let l := strings.TrimSpace l in
        let l := strings.TrimSuffix l "s" in
        if decide (l = "") then ""
        else strings.ToUpper (strings.upto 1 l) +:+ strings.from 1 l
    end.

Definition inferEntityNameForOperation (oi : OperationInfo) : string :=
  if decide (RequestSchema oi <> "") then RequestSchema oi
  else if decide (ResponseSchema oi <> "") then ResponseSchema oi
  else match Tags oi with
       | t :: _ => if decide (t <> "") then t else entityFromPathHeuristic (Path oi)
       | [] => entityFromPathHeuristic (Path oi)
       end.

Definition withOperations (t : TableMetadata) (ops : list OperationInfo) : TableMetadata :=
  {| StructName := StructName t; NormalizedName := NormalizedName t;
     Source := Source t; Columns := Columns t; Relations := Relations t;
     Operations := ops |}.

(** How Go's [range] enumerates a map: in an order of its own choosing,
    which is a permutation of the entries. *)
Definition iteration (range : forall A, gmap string A -> list (string * A)) : Prop :=
  forall A (m : gmap string A), range A m ≡ₚ map_to_list m.

Section Ranging.

Variable range : forall A, gmap string A -> list (string * A).

(** [opsByNorm[norm] = append(opsByNorm[norm], oi)] for one method of one
    path. *)
Definition collectOperation (p : string)
    (opsByNorm : gmap string (list OperationInfo))
    (entry : string * option openAPIOperation)
    : outcome (gmap string (list OperationInfo)) :=
  match entry.2 with
  | None => Returns opsByNorm
  | Some op =>
      let! oi := openAPIOperationInfo p (strings.ToUpper entry.1) op in
      let norm := normalizeEntityName (inferEntityNameForOperation oi) in
      if decide (norm = "") then Returns opsByNorm
      else Returns (<[norm := default [] (opsByNorm !! norm) ++ [oi]]> opsByNorm)
  end.

Definition collectOperations (spec : openAPISpec)
    : outcome (gmap string (list OperationInfo)) :=
  foldOutcome
    (fun opsByNorm (entry : string * openAPIPath) =>
       foldOutcome (collectOperation entry.1) (range _ entry.2) opsByNorm)
    (range _ (Paths spec)) ∅.

Definition attachOperations (opsByNorm : gmap string (list OperationInfo))
    (meta : TableMetadata) : TableMetadata :=
  match opsByNorm !! NormalizedName meta with
  | Some ops => withOperations meta (Operations meta ++ ops)
  | None => meta
  end.

(** [parseOpenAPIFile] from the decoded document on: opening, reading
    and decoding the file come before and return their error. *)
Definition parseOpenAPIFile (spec : openAPISpec) : outcome SchemaMap :=
  let! out := foldOutcome
          (fun (out : SchemaMap) (entry : string * option openAPISchema) =>
             let! meta := openAPISchemaToTableMetadata spec entry.1 entry.2 in
             putSchema out meta)
          (range _ (Schemas spec)) (∅ : SchemaMap) in
  let! opsByNorm := collectOperations spec in
  Returns (attachOperations opsByNorm <$> out).

End Ranging.

(* ================================================================== *)
(** * Consolidator *)
(* ================================================================== *)

Definition columnKey (c : ColumnInfo) : string :=
  let s := if decide (JSONName c = "") then Name c else JSONName c in
  let s := strings.ToLower (strings.TrimSpace s) in
  let s := strings.ReplaceAll s "_"%char "" in
  strings.ReplaceAll s "-"%char "".

Definition relationKey (r : option RelationNode) : string :=
  match r with
  | None => ""
  | Some r =>
      strings.ToLower (strings.TrimSpace (FieldName r)) +:+ "|" +:+
      strings.ToLower (strings.TrimSpace (TargetStruct r)) +:+ "|" +:+
      strings.ToLower (strings.TrimSpace (TargetKey r)) +:+ "|" +:+
      strings.ToLower (strings.TrimSpace (SourceKey r))
  end.

Definition operationKey (op : OperationInfo) : string :=
  Method op +:+ "|" +:+ Path op +:+ "|" +:+ OperationID op.

Definition pickIntPtrMax (a b : option Z) : option Z :=
  match a, b with
  | None, _ => b
  | _, None => a
  | Some x, Some y => if (y >? x)%Z then b else a
  end.

Definition pickIntPtrMin (a b : option Z) : option Z :=
  match a, b with
  | None, _ => b
  | _, None => a
  | Some x, Some y => if (y <? x)%Z then b else a
  end.

Definition pickFloatPtrMax (a b : option float64) : option float64 :=
  match a, b with
  | None, _ => b
  | _, None => a
  | Some x, Some y => if fltb x y then b else a
  end.

Definition pickFloatPtrMin (a b : option float64) : option float64 :=
  match a, b with
  | None, _ => b
  | _, None => a
  | Some x, Some y => if fltb y x then b else a
  end.

Definition mergeConstraints (a b : option FieldConstraints) : option FieldConstraints :=
  match a, b with
  | None, None => None
  | None, Some b => Some b
  | Some a, None => Some a
  | Some a, Some b =>
      let out :=
        {| Required := Required a || Required b;
           Nullable := Nullable a || Nullable b;
           MinLength := pickIntPtrMax (MinLength a) (MinLength b);
           MaxLength := pickIntPtrMin (MaxLength a) (MaxLength b);
           Minimum := pickFloatPtrMax (Minimum a) (Minimum b);
           Maximum := pickFloatPtrMin (Maximum a) (Maximum b);
           Pattern := if decide (Pattern a = "") then Pattern b else Pattern a;
           Format := if decide (Format a = "") then Format b else Format a;
           Enum := if (length (Enum a) =? 0)%nat && (0 <? length (Enum b))%nat
                   then Enum b else Enum a |} in
      if constraintsEmpty (Some out) then None else Some out
  end.

Definition mergeColumn (a b : ColumnInfo) : ColumnInfo :=
  {| Name := if decide (Name a = "") then Name b else Name a;
     JSONName := if decide (JSONName a = "") then JSONName b else JSONName a;
     cType := if bool_decide (cType a = "") || bool_decide (cType a = "Unknown")
              then (if decide (cType b <> "") then cType b else cType a)
              else cType a;
     cValidation := if decide (cValidation a = "") then cValidation b else cValidation a;
     cDescription := if decide (cDescription a = "") then cDescription b else cDescription a;
     Additional := if decide (Additional a = "") then Additional b else Additional a;
     Constraints := mergeConstraints (Constraints a) (Constraints b);
     Ref := if decide (Ref a = "") then Ref b else Ref a;
     IsArray := IsArray a || IsArray b;
     cSource := if decide (cSource a = "") then cSource b else cSource a |}.

(** [index[columnKey(dst[i])] = i] for the elements from position [i]
    on. *)
Fixpoint indexColumns (i : nat) (cols : list ColumnInfo) (index : gmap string nat)
    : gmap string nat :=
  match cols with
  | [] => index
  | c :: cols' => indexColumns (S i) cols' (<[columnKey c := i]> index)
  end.

(** One turn of the loop over [src].  The index only holds positions of
    [dst], so [dst[i]] is in range. *)
Definition mergeColumnInto (st : list ColumnInfo * gmap string nat) (c : ColumnInfo)
    : list ColumnInfo * gmap string nat :=
  let '(dst, index) := st in
  let k := columnKey c in
  if decide (k = "") then st
  else match index !! k with
       | Some i => (alter (fun d => mergeColumn d c) i dst, index)
       | None => (dst ++ [c], <[k := length dst]> index)
       end.

Definition mergeColumns (dst src : list ColumnInfo) : list ColumnInfo :=
  (fold_left mergeColumnInto src (dst, indexColumns 0 dst ∅)).1.

(** The loop shared by [mergeRelations] and [mergeOperations]: [seen]
    holds the keys of the elements kept so far. *)
Definition appendUnseen {A} (key : A -> string) (st : list A * gset string) (x : A)
    : list A * gset string :=
  let '(dst, seen) := st in
  let k := key x in
  if decide (k = "") then st
  else if decide (k ∈ seen) then st
  else (dst ++ [x], {[ k ]} ∪ seen).

Definition mergeByKey {A} (key : A -> string) (dst src : list A) : list A :=
  (fold_left (appendUnseen key) src (dst, list_to_set (key <$> dst))).1.

Definition mergeRelations (dst src : list (option RelationNode)) :=
  mergeByKey relationKey dst src.

Definition mergeOperations (dst src : list OperationInfo) :=
  mergeByKey operationKey dst src.

Definition cloneTableMetadata (t : TableMetadata) : TableMetadata :=
  {| StructName := StructName t; NormalizedName := NormalizedName t;
     Source := Source t; Columns := Columns t; Relations := Relations t;
     Operations := Operations t |}.

Definition mergeTableMetadata (dst src : TableMetadata) : TableMetadata :=
  let source := "merged" in
  {| StructName :=
       if bool_decide (StructName dst = "")
          || (bool_decide (source = "merged") && bool_decide (Source src = "openapi"))
       then (if decide (StructName src <> "") then StructName src else StructName dst)
       else StructName dst;
     NormalizedName := NormalizedName dst;
     Source := source;
     Columns := mergeColumns (Columns dst) (Columns src);
     Relations := mergeRelations (Relations dst) (Relations src);
     Operations := mergeOperations (Operations dst) (Operations src) |}.

(* ================================================================== *)
(** * Stabilizer *)
(* ================================================================== *)

Definition columnLess (a b : ColumnInfo) : bool :=
  let ai := if decide (JSONName a = "") then Name a else JSONName a in
  let aj := if decide (JSONName b = "") then Name b else JSONName b in
  String.ltb ai aj.

Definition operationLess (a b : OperationInfo) : bool :=
  if decide (Path a = Path b) then String.ltb (Method a) (Method b)
  else String.ltb (Path a) (Path b).

Definition stabilizeTableMetadata (t : TableMetadata) : TableMetadata :=
  {| StructName := StructName t; NormalizedName := NormalizedName t;
     Source := Source t;
     Columns := sortSlice columnLess (Columns t);
     Relations := Relations t;
     Operations := sortSlice operationLess (Operations t) |}.

(** One turn of the loop of [consolidateByNormalizedName] over the
    accumulator. *)
Definition consolidateEntry (entities : gmap string TableMetadata) (entry : TableMetadata)
    : gmap string TableMetadata :=
  let norm := if decide (NormalizedName entry = "")
              then normalizeEntityName (StructName entry)
              else NormalizedName entry in
  if decide (norm = "") then entities
  else match entities !! norm with
       | Some existing => <[norm := mergeTableMetadata existing entry]> entities
       | None => <[norm := cloneTableMetadata entry]> entities
       end.

(** The result for the entries in the order in which [range] gives them,
    and for the consolidated entities in the order [entityOrder]. *)
Definition consolidateEntries
    (entityOrder : gmap string TableMetadata -> list (string * TableMetadata))
    (entries : list TableMetadata) : ConsolidatedSchema :=
  let entities := fold_left consolidateEntry entries ∅ in
  let entities := stabilizeTableMetadata <$> entities in
  let list := (entityOrder entities).*2 in
  {| Entities := entities;
     EntityList := sortSlice (fun a b => String.ltb (NormalizedName a) (NormalizedName b)) list;
     GeneratedBy := "schema-architect" |}.

Definition consolidateByNormalizedName
    (range : forall A, gmap string A -> list (string * A))
    (schema : SchemaMap) : ConsolidatedSchema :=
  consolidateEntries (range _) (range _ schema).*2.

(* ================================================================== *)
(** * Source-structure extractor: files, fields and tags *)
(* ================================================================== *)

(** [strings.Contains(s, substr)] *)
Fixpoint Contains (s sub : string) : bool :=
  strings.HasPrefix s sub
  || match s with
     | EmptyString => false
     | String _ s' => Contains s' sub
     end.

(** [filepath.ToSlash]: the path itself where the separator of the
    platform is the slash, and otherwise the path with every separator
    replaced by a slash. *)
Definition ToSlash (Separator : ascii) (path : string) : string :=
  if Ascii.eqb Separator "/"%char then path
  else strings.ReplaceAll path Separator "/".

Definition sourceFromPath (Separator : ascii) (path : string) : string :=
  let pathSlash := ToSlash Separator path in
  if Contains pathSlash "/model/do" then "go:do"
  else if Contains pathSlash "/api" then "go:api"
  else "go".

(** The test of the walk function of [main]: whether [parseFile] is
    called for the entry. *)
Definition walkSelects (Separator : ascii) (isDir : bool) (path : string) : bool :=
  if isDir || negb (strings.HasSuffix path ".go") then false
  else
    let pathSlash := ToSlash Separator path in
    if negb (Contains pathSlash "/model/do") && negb (Contains pathSlash "/api")
    then false else true.

(** [tag[:idx]] for [idx] the index of the first comma. *)
Definition parseJSONTag (tag : string) : string :=
  if decide (tag = "") then ""
  else if decide (tag = "-") then ""
  else match strings.Cut tag ","%char with
       | Some (before, _) => before
       | None => tag
       end.

(** The type expressions of [go/ast] that [resolveTypeInfo] tells apart;
    every other kind of expression is [OtherExpr]. *)
Inductive Expr : Type :=
  | StarExpr (x : Expr)
  | ArrayType (elt : Expr)
  | Ident (name : string)
  | SelectorExpr (x : Expr) (sel : string)
  | OtherExpr.

(** The loop of [resolveTypeInfo], with the flag it has set so far. *)
Fixpoint resolveTypeInfoFrom (isCollection : bool) (expr : Expr) : string * bool :=
  match expr with
  | StarExpr x => resolveTypeInfoFrom isCollection x
  | ArrayType elt => resolveTypeInfoFrom true elt
  | Ident name => (name, isCollection)
  | SelectorExpr x sel =>
      match x with
      | Ident pkg => (pkg +:+ "." +:+ sel, isCollection)
      | _ => (sel, isCollection)
      end
  | OtherExpr => ("Unknown", isCollection)
  end.

Definition resolveTypeInfo (expr : Expr) : string * bool :=
  resolveTypeInfoFrom false expr.

(** What [reflect.StructTag.Get] gives for the five keys that [parseFile]
    reads. *)
Record StructTag := {
  tagOrm : string;
  tagV : string;
  tagDc : string;
  tagAd : string;
  tagJson : string
}.

(** A field of a struct type: its names, its type, and its tag, which is
    [None] when the field has none or when the literal does not unquote. *)
Record Field := {
  fieldNames : list string;
  fieldType : Expr;
  fieldTag : option StructTag
}.

Definition withRelation (t : TableMetadata) (rel : RelationNode) : TableMetadata :=
  {| StructName := StructName t; NormalizedName := NormalizedName t;
     Source := Source t; Columns := Columns t;
     Relations := Relations t ++ [Some rel]; Operations := Operations t |}.

Definition withColumn (t : TableMetadata) (c : ColumnInfo) : TableMetadata :=
  {| StructName := StructName t; NormalizedName := NormalizedName t;
     Source := Source t; Columns := Columns t ++ [c];
     Relations := Relations t; Operations := Operations t |}.

(** The relation that a field gives, if its [orm] tag has a [with:]
    segment that [parseWithTag] accepts. *)
Definition fieldRelation (field : Field) : option RelationNode :=
  match fieldTag field with
  | None => None
  | Some tags =>
      if Contains (tagOrm tags) "with:" then
        match parseWithTag (tagOrm tags) with
        | Some rel =>
            let '(typeName, isCollection) := resolveTypeInfo (fieldType field) in
            Some {| FieldName := match fieldNames field with
                                 | n :: _ => n
                                 | [] => FieldName rel
                                 end;
                    TargetStruct := typeName;
                    IsCollection := isCollection;
                    TargetKey := TargetKey rel;
                    SourceKey := SourceKey rel;
                    rValidation := tagV tags;
                    rDescription := tagDc tags |}
        | None => None
        end
      else None
  end.

(** One turn of the loop over the fields of a struct type. *)
Definition addField (fileSource : string) (table : TableMetadata) (field : Field)
    : TableMetadata :=
  match fieldRelation field with
  | Some rel => withRelation table rel
  | None =>
      match fieldNames field with
      | n :: _ =>
          let '(typeName, isCollection) := resolveTypeInfo (fieldType field) in
          let tagOf (get : StructTag -> string) :=
            match fieldTag field with
            | Some tags => get tags
            | None => ""
            end in
          withColumn table
            {| Name := n;
               JSONName := match fieldTag field with
                           | Some tags => parseJSONTag (tagJson tags)
                           | None => ""
                           end;
               cType := typeName;
               cValidation := tagOf tagV;
               cDescription := tagOf tagDc;
               Additional := tagOf tagAd;
               Constraints := None;
               Ref := "";
               IsArray := isCollection;
               cSource := fileSource |}
      | [] => table
      end
  end.

(** The record that [parseFile] builds for one struct type. *)
Definition structTable (fileSource name : string) (fields : list Field) : TableMetadata :=
  fold_left (addField fileSource) fields
    {| StructName := name; NormalizedName := normalizeEntityName name;
       Source := fileSource; Columns := []; Relations := []; Operations := [] |}.

(** [len(table.Columns) > 0 || len(table.Relations) > 0] *)
Definition hasFields (table : TableMetadata) : bool :=
  (0 <? length (Columns table))%nat || (0 <? length (Relations table))%nat.

(** What [ast.Inspect] does at one type declaration with a struct type. *)
Definition addStruct (fileSource : string) (schema : SchemaMap)
    (decl : string * list Field) : outcome SchemaMap :=
  let table := structTable fileSource decl.1 decl.2 in
  if hasFields table then putSchema schema table else Returns schema.

(** [parseFile]: [decls] is [None] when the parser gives an error, and
    otherwise the struct type declarations of the file in the order in
    which [ast.Inspect] visits them. *)
Definition parseFile (Separator : ascii) (path : string)
    (decls : option (list (string * list Field))) (schema : SchemaMap)
    : outcome SchemaMap :=
  match decls with
  | None => Returns schema
  | Some decls => foldOutcome (addStruct (sourceFromPath Separator path)) decls schema
  end.

(** What [main] does with the records of the OpenAPI document. *)
Definition putAll (schema : SchemaMap) (metas : list TableMetadata) : outcome SchemaMap :=
  foldOutcome putSchema metas schema.

(* ================================================================== *)
(** * The generator's helpers *)
(* ================================================================== *)

Module generator.

(** The generator's own [normalizeEntityName]: the one of the parser
    without the plural handling. *)
Definition normalizeEntityName (name : string) : string :=
  let cleaned := fold_left strings.TrimPrefix prefixes name in
  let cleaned := fold_left strings.TrimSuffix suffixes cleaned in
  if decide (cleaned = "") then name else cleaned.

Definition pluralSuffixes : list string := ["ies"; "ses"; "xes"; "zes"; "ches"; "shes"].

(** [s[i]] *)
Fixpoint byteAt (i : nat) (s : string) : option ascii :=
  match s, i with
  | EmptyString, _ => None
  | String a _, O => Some a
  | String _ s', S i' => byteAt i' s'
  end.

Definition isVowel (a : ascii) : bool :=
  match a with
  | "a" | "e" | "i" | "o" | "u" => true
  | _ => false
  end%char.

Definition toPlural (s : string) : string :=
  if decide (s = "") then s
  else
    let lower := strings.ToLower s in
    if existsb (strings.HasSuffix lower) pluralSuffixes then s
    else if strings.HasSuffix lower "s" || strings.HasSuffix lower "x"
            || strings.HasSuffix lower "z" || strings.HasSuffix lower "ch"
            || strings.HasSuffix lower "sh"
    then s +:+ "es"
    else if strings.HasSuffix lower "y" && (1 <? String.length lower)%nat
    then match byteAt (String.length lower - 2) lower with
         | Some beforeY =>
             if negb (isVowel beforeY)
             then strings.upto (String.length s - 1) s +:+ "ies"
             else s +:+ "s"
         | None => s +:+ "s"
         end
    else s +:+ "s".

End generator.

(* ================================================================== *)
(** * Vocabulary of the statements *)
(* ================================================================== *)

(** The byte [c] occurs in [s]. *)
Fixpoint occurs (c : ascii) (s : string) : Prop :=
  match s with
  | EmptyString => False
  | String a s' => a = c \/ occurs c s'
  end.

(** A bound that is a number, as every bound decoded from a JSON document
    is: the decoder rejects what does not fit a finite [float64]. *)
Definition isNumber (x : option float64) : Prop := x <> Some S754_nan.

Definition numeric (c : FieldConstraints) : Prop :=
  isNumber (Minimum c) /\ isNumber (Maximum c).

Definition largerOf (x y z : option float64) : Prop :=
  match x, y with
  | None, _ => z = y
  | _, None => z = x
  | Some u, Some v =>
      exists w, z = Some w /\ (w = u \/ w = v) /\ SFleb u w = true /\ SFleb v w = true
  end.

Definition smallerOf (x y z : option float64) : Prop :=
  match x, y with
  | None, _ => z = y
  | _, None => z = x
  | Some u, Some v =>
      exists w, z = Some w /\ (w = u \/ w = v) /\ SFleb w u = true /\ SFleb w v = true
  end.

(** The number of distinct identity keys in a collection. *)
Definition distinct {A} (key : A -> string) (l : list A) : nat :=
  size (list_to_set (key <$> l) : gset string).

(** The fuel that a list of branches accounts for. *)
Definition weights (l : list (option openAPISchema)) : nat := sum_list (oweight <$> l).

(** What a call on a reference does to the visited set. *)
Definition referenceVisited (s : option openAPISchema) (acc acc' : collected) : Prop :=
  forall x, s = Some x -> sRef x <> "" ->
    (openAPIRefName (sRef x) ∈ visited acc -> acc' = acc)
    /\ (openAPIRefName (sRef x) <> "" -> openAPIRefName (sRef x) ∈ visited acc').

(** Sample schemas. *)
Definition refTo (name : string) : openAPISchema :=
  {| sRef := "#/components/schemas/" +:+ name; sType := ""; sFormat := "";
     sDescription := ""; sProperties := ∅; sItems := None; sRequired := [];
     sEnum := []; sNullable := false; sMinLength := None; sMaxLength := None;
     sMinimum := None; sMaximum := None; sPattern := "";
     sAllOf := []; sOneOf := []; sAnyOf := [] |}.

Definition objectOf (properties : gmap string (option openAPISchema))
    (requiredNames : list string) (allOf : list (option openAPISchema)) : openAPISchema :=
  {| sRef := ""; sType := "object"; sFormat := "";
     sDescription := ""; sProperties := properties; sItems := None;
     sRequired := requiredNames;
     sEnum := []; sNullable := false; sMinLength := None; sMaxLength := None;
     sMinimum := None; sMaximum := None; sPattern := "";
     sAllOf := allOf; sOneOf := []; sAnyOf := [] |}.

Definition primitive (type format : string) : openAPISchema :=
  {| sRef := ""; sType := type; sFormat := format;
     sDescription := ""; sProperties := ∅; sItems := None; sRequired := [];
     sEnum := []; sNullable := false; sMinLength := None; sMaxLength := None;
     sMinimum := None; sMaximum := None; sPattern := "";
     sAllOf := []; sOneOf := []; sAnyOf := [] |}.

(** Two schemas that refer to each other. *)
Definition cyclicSpec : openAPISpec :=
  {| Paths := ∅;
     Schemas :=
       {[ "Node" := Some (objectOf {[ "id" := Some (primitive "integer" "int64") ]}
                            ["id"] [Some (refTo "Link")]);
          "Link" := Some (objectOf {[ "label" := Some (primitive "string" "") ]}
                            [] [Some (refTo "Node"); Some (refTo "Link")]) ]} |}.

(** An entry of a map of pointers that is there and not nil, and one
    that is missing or nil. *)
Definition present {A} (m : gmap string (option A)) (k : string) (x : A) : Prop :=
  m !! k = Some (Some x).

Definition absent {A} (m : gmap string (option A)) (k : string) : Prop :=
  at_key m k = None.

(** The lexicographically first key of a map. *)
Definition leastKey {A} (m : gmap string A) (k : string) : Prop :=
  is_Some (m !! k) /\ forall k', is_Some (m !! k') -> String.le k k'.

(** Every operation filed under a name normalizes to that name. *)
Definition filedByName (opsByNorm : gmap string (list OperationInfo)) : Prop :=
  forall norm ops oi, opsByNorm !! norm = Some ops -> oi ∈ ops ->
    normalizeEntityName (inferEntityNameForOperation oi) = norm.

(** Two orders of enumeration: the one of [map_to_list] and its
    reverse. *)
Definition canonicalRange : forall A, gmap string A -> list (string * A) :=
  fun A m => map_to_list m.

Definition reverseRange : forall A, gmap string A -> list (string * A) :=
  fun A m => reverse (map_to_list m).

Definition jsonContent (name : string) : gmap string (option openAPIMediaType) :=
  {[ "application/json" := Some {| Schema := Some (refTo name) |} ]}.

Definition postUsersOperation : openAPIOperation :=
  {| opOperationID := "createUser"; opSummary := "Create a user"; opTags := ["users"];
     RequestBody := Some {| rbContent := jsonContent "CreateUserReq" |};
     Responses := {[ "201" := Some {| respDescription := "created";
                                      respContent := jsonContent "User" |} ]} |}.

Definition getOrphansOperation : openAPIOperation :=
  {| opOperationID := "listOrphans"; opSummary := ""; opTags := [];
     RequestBody := None; Responses := ∅ |}.

Definition usersSpec : openAPISpec :=
  {| Paths := {[ "/users" := {[ "post" := Some postUsersOperation ]};
                 "/orphans" := {[ "get" := Some getOrphansOperation ]} ]};
     Schemas :=
       {[ "User" := Some (objectOf {[ "id" := Some (primitive "integer" "int64");
                                      "name" := Some (primitive "string" "") ]}
                            ["id"] []);
          "CreateUserReq" := Some (objectOf {[ "name" := Some (primitive "string" "") ]}
                                     ["name"] []) ]} |}.

Definition postUsers : OperationInfo :=
  {| Method := "POST"; Path := "/users"; OperationID := "createUser";
     Summary := "Create a user"; Tags := ["users"];
     RequestSchema := "CreateUserReq"; ResponseSchema := "User";
     oSource := "openapi" |}.

Definition getOrphans : OperationInfo :=
  {| Method := "GET"; Path := "/orphans"; OperationID := "listOrphans";
     Summary := ""; Tags := [];
     RequestSchema := ""; ResponseSchema := "";
     oSource := "openapi" |}.

(** Two records of one entity, as a [do] struct and an API struct give
    them. *)
Definition relationTo (field target : string) : option RelationNode :=
  Some {| FieldName := field; TargetStruct := target; IsCollection := false;
          TargetKey := "uid"; SourceKey := "id"; rValidation := ""; rDescription := "" |}.

Definition userDo : TableMetadata :=
  {| StructName := "User"; NormalizedName := "User"; Source := "go:do";
     Columns := [ {| Name := "Id"; JSONName := ""; cType := "uint"; cValidation := "";
                     cDescription := ""; Additional := ""; Constraints := None;
                     Ref := ""; IsArray := false; cSource := "go:do" |} ];
     Relations := [ relationTo "Detail" "UserDetail" ];
     Operations := [] |}.

Definition userReq : TableMetadata :=
  {| StructName := "UserReq"; NormalizedName := "User"; Source := "go:api";
     Columns := [ {| Name := "ID"; JSONName := "id"; cType := "int64"; cValidation := "";
                     cDescription := ""; Additional := ""; Constraints := None;
                     Ref := ""; IsArray := false; cSource := "go:api" |} ];
     Relations := [ relationTo "Roles" "Role" ];
     Operations := [] |}.

Definition userAccumulator : SchemaMap :=
  {[ "User" := userDo; "UserReq" := userReq ]}.

(** Sample contents, responses and constraints. *)
Definition mediaOf (name : string) : openAPIMediaType :=
  {| Schema := Some (refTo name) |}.

Definition halContent : gmap string (option openAPIMediaType) :=
  {[ "application/hal+json" := Some (mediaOf "Hal");
     "application/ld+json" := Some (mediaOf "Ld") ]}.

Definition notFound : openAPIResponse :=
  {| respDescription := "not found"; respContent := halContent |}.

Definition errorResponses : gmap string (option openAPIResponse) :=
  {[ "404" := Some notFound; "500" := None ]}.

(** 1, 2 and 5 as binary64 numbers. *)
Definition one : float64 := S754_finite false 4503599627370496 (-52).
Definition two : float64 := S754_finite false 4503599627370496 (-51).
Definition five : float64 := S754_finite false 5629499534213120 (-50).

Definition lengthBounds (lo hi : Z) (least most : float64) : FieldConstraints :=
  {| Required := false; Nullable := false;
     MinLength := Some lo; MaxLength := Some hi;
     Minimum := Some least; Maximum := Some most;
     Pattern := ""; Format := ""; Enum := [] |}.

(** ** Vocabulary of the further properties *)

(** [part s t]: [t] is a contiguous part of [s]. *)
Definition part (s t : string) : Prop := exists p q, s = p +:+ t +:+ q.

(** The stripping that the two normalizers share. *)
Definition strippedName (name : string) : string :=
  fold_left strings.TrimSuffix suffixes (fold_left strings.TrimPrefix prefixes name).

(** An upper-case ASCII letter. *)
Definition isUpperASCII (a : ascii) : bool :=
  let n := nat_of_ascii a in (65 <=? n)%nat && (n <=? 90)%nat.

(** The name under which a field becomes a column, if it does. *)
Definition columnName (field : Field) : option string :=
  match fieldRelation field with
  | Some _ => None
  | None => head (fieldNames field)
  end.

(** A constraint set as the program keeps it: nil, or not all-default. *)
Definition keptConstraints (c : option FieldConstraints) : Prop :=
  forall x, c = Some x -> constraintsEmpty (Some x) = false.

(** The three maps only grow. *)
Definition grows (acc acc' : collected) : Prop :=
  visited acc ⊆ visited acc'
  /\ required acc ⊆ required acc'
  /\ dom (props acc) ⊆ dom (props acc').

(** An operation that is filed under a normalized name. *)
Definition filedUnder (opsByNorm : gmap string (list OperationInfo))
    (norm : string) (oi : OperationInfo) : Prop :=
  exists ops, opsByNorm !! norm = Some ops /\ oi ∈ ops.

(** [strings.ToUpper(last[:1]) + last[1:]], and the empty name for the
    empty segment.  [last[:1]] is one byte. *)
Definition capitalized (l : string) : string :=
  if decide (l = "") then "" else strings.ToUpper (strings.upto 1 l) +:+ strings.from 1 l.

(** Sorted for a [less] function: no element is less than an earlier
    one. *)
Definition sortedBy {A} (less : A -> A -> bool) : list A -> Prop :=
  StronglySorted (fun a b => less b a = false).

(** The name by which [stabilizeTableMetadata] sorts the columns. *)
Definition sortName (c : ColumnInfo) : string :=
  if decide (JSONName c = "") then Name c else JSONName c.

(** The key under which [consolidateByNormalizedName] files a record. *)
Definition entityKey (entry : TableMetadata) : string :=
  if decide (NormalizedName entry = "")
  then normalizeEntityName (StructName entry)
  else NormalizedName entry.

(** The [less] function of the sort of the entity list. *)
Definition nameLess (a b : TableMetadata) : bool :=
  String.ltb (NormalizedName a) (NormalizedName b).

(** Further sample values. *)
Definition userIdColumn : ColumnInfo :=
  {| Name := "UserID"; JSONName := "User_ID"; cType := "int64"; cValidation := "";
     cDescription := ""; Additional := ""; Constraints := None;
     Ref := ""; IsArray := false; cSource := "go:api" |}.

Definition nullProperty : openAPISchema :=
  objectOf {[ "id" := None ]} [] [].

(* ================================================================== *)
(** * Properties *)
(* ================================================================== *)

(** ** Strings *)

Lemma append_cons (a : ascii) (s t : string) : String a s +:+ t = String a (s +:+ t).
Proof. reflexivity. Qed.

Lemma append_nil (t : string) : "" +:+ t = t.
Proof. reflexivity. Qed.

Lemma append_empty_r (s : string) : s +:+ "" = s.
Proof. induction s as [|a s IH]; [reflexivity | by rewrite append_cons, IH]. Qed.

Lemma length_append (s t : string) :
  String.length (s +:+ t) = (String.length s + String.length t)%nat.
Proof.
  induction s as [|a s IH]; [reflexivity|].
  rewrite append_cons. simpl. by rewrite IH.
Qed.

Lemma upto_append (s t : string) : strings.upto (String.length s) (s +:+ t) = s.
Proof.
  induction s as [|a s IH]; [by destruct t|].
  rewrite append_cons. simpl. by rewrite IH.
Qed.

Lemma from_append (s t : string) : strings.from (String.length s) (s +:+ t) = t.
Proof. induction s as [|a s IH]; [reflexivity | rewrite append_cons; exact IH]. Qed.

Lemma upto_from (n : nat) (s : string) : strings.upto n s +:+ strings.from n s = s.
Proof.
  revert s; induction n as [|n IH]; intros [|a s]; simpl; try reflexivity.
  by rewrite append_cons, IH.
Qed.

Lemma length_upto (n : nat) (s : string) :
  (n <= String.length s)%nat -> String.length (strings.upto n s) = n.
Proof.
  revert s; induction n as [|n IH]; intros [|a s]; simpl; intros H; try lia.
  rewrite IH; lia.
Qed.

Lemma HasPrefix_append (pre t : string) : strings.HasPrefix (pre +:+ t) pre = true.
Proof.
  unfold strings.HasPrefix. rewrite upto_append, String.eqb_refl, length_append.
  rewrite andb_true_r. apply Nat.leb_le. lia.
Qed.

Lemma HasPrefix_inv (s pre : string) :
  strings.HasPrefix s pre = true -> s = pre +:+ strings.from (String.length pre) s.
Proof.
  unfold strings.HasPrefix. intros [_ H]%andb_true_iff.
  apply String.eqb_eq in H. rewrite <- H at 1. symmetry. apply upto_from.
Qed.

Lemma TrimPrefix_append (pre t : string) : strings.TrimPrefix (pre +:+ t) pre = t.
Proof. unfold strings.TrimPrefix. by rewrite HasPrefix_append, from_append. Qed.

Lemma Cut_Some (s : string) (c : ascii) (l r : string) :
  s = l +:+ String c r -> ~ occurs c l -> strings.Cut s c = Some (l, r).
Proof.
  revert s; induction l as [|a l IH]; intros s -> Hl.
  - rewrite append_nil. simpl. by rewrite Ascii.eqb_refl.
  - rewrite append_cons. simpl in *. destruct (Ascii.eqb a c) eqn:E.
    + apply Ascii.eqb_eq in E. tauto.
    + rewrite (IH _ eq_refl); [reflexivity | tauto].
Qed.

Lemma Cut_None (s : string) (c : ascii) : ~ occurs c s -> strings.Cut s c = None.
Proof.
  induction s as [|a s IH]; simpl; intros H; [reflexivity|].
  destruct (Ascii.eqb a c) eqn:E.
  - apply Ascii.eqb_eq in E. tauto.
  - rewrite IH; [reflexivity | tauto].
Qed.

(** ** Decimal numerals *)

Lemma decimal_inj (i j : N) : decimal i = decimal j -> i = j.
Proof.
  unfold decimal. intros H.
  assert (Hu : N.to_uint i = N.to_uint j).
  { apply (f_equal NilEmpty.uint_of_string) in H.
    rewrite !NilEmpty.usu in H. congruence. }
  apply (f_equal N.of_uint) in Hu. by rewrite !DecimalN.Unsigned.of_to in Hu.
Qed.

(** ** Entity name normalizer *)

(** C2, as stated, fails: the empty name is returned as it is. *)
Lemma normalizeEntityName_empty_input :
  ~ (forall name : string, normalizeEntityName name <> "").
Proof. intros H. by apply (H ""). Qed.

(** C2 (amended): [normalizeEntityName] is a total function; for every
    non-empty name its result is non-empty, and when the stripping of
    prefixes and suffixes leaves nothing it is the raw name unchanged. *)
Theorem normalizeEntityName_nonempty (name : string) :
  name <> "" ->
  normalizeEntityName name <> ""
  /\ (stripAffixes name = "" -> normalizeEntityName name = name)
  /\ (stripAffixes name <> "" -> normalizeEntityName name = stripAffixes name).
Proof.
  intros Hname. unfold normalizeEntityName.
  destruct (decide (stripAffixes name = "")) as [E|E]; repeat split; try done.
Qed.

Lemma normalizeEntityName_nonempty_witness :
  "Req" <> ""
  /\ normalizeEntityName "Req" <> ""
  /\ (stripAffixes "Req" = "" -> normalizeEntityName "Req" = "Req")
  /\ (stripAffixes "Req" <> "" -> normalizeEntityName "Req" = stripAffixes "Req").
Proof. split; [discriminate | apply (normalizeEntityName_nonempty "Req"); discriminate]. Defined.

Example normalize_UserCreateReq : normalizeEntityName "UserCreateReq" = "User".
Proof. vm_compute. reflexivity. Qed.

Example normalize_V1Users : normalizeEntityName "V1Users" = "User".
Proof. vm_compute. reflexivity. Qed.

Example normalize_s : normalizeEntityName "s" = "s".
Proof. vm_compute. reflexivity. Qed.

(** ** The accumulator: [putSchema] *)

Section PutSchema.

Variable schema : SchemaMap.
Variable table : TableMetadata.

Abbreviation candidate := (candidateKey (StructName table)).

Lemma suffixOf_inj : Inj (=) (=) suffixOf.
Proof.
  intros [|i] [|j] H; try done.
  unfold suffixOf in H. apply String.app_inj, decimal_inj in H. lia.
Qed.

Lemma candidate_inj : Inj (=) (=) candidate.
Proof. intros i j H. by apply String.app_inj, suffixOf_inj in H. Qed.
#[local] Existing Instance candidate_inj.

Lemma candidate_0 : candidate 0 = StructName table.
Proof. apply append_empty_r. Qed.

Lemma candidate_S (j : nat) :
  candidate (S j) = StructName table +:+ "__" +:+ decimal (N.of_nat j + 2).
Proof. unfold candidateKey, suffixOf. do 3 f_equal. lia. Qed.

(** The loop stops at the first free candidate, given fuel to reach it. *)
Lemma putSchemaLoop_first_free (fuel j k : nat) :
  (j <= k < j + fuel)%nat ->
  schema !! candidate k = None ->
  (forall j', (j <= j' < k)%nat -> is_Some (schema !! candidate j')) ->
  putSchemaLoop fuel schema table (candidate j) (N.of_nat j + 2)
  = Returns (<[candidate k := table]> schema).
Proof.
  revert j. induction fuel as [|fuel IH]; intros j Hjk Hfree Htaken; [lia|].
  simpl. destruct (decide (j = k)) as [->|Hne].
  - by rewrite Hfree.
  - destruct (Htaken j) as [v ->]; [lia|].
    rewrite <- candidate_S.
    replace (N.of_nat j + 2 + 1)%N with (N.of_nat (S j) + 2)%N by lia.
    apply IH; [lia | done | intros j' ?; apply Htaken; lia].
Qed.

(** Either a candidate up to [n] is free, or all of them are taken. *)
Lemma first_free_or_all_taken (n : nat) :
  (exists k, (k <= n)%nat /\ schema !! candidate k = None
             /\ forall j, (j < k)%nat -> is_Some (schema !! candidate j))
  \/ (forall j, (j <= n)%nat -> is_Some (schema !! candidate j)).
Proof.
  induction n as [|n [(k & Hk & Hfree & Htaken)|Hall]].
  - destruct (schema !! candidate 0) eqn:E.
    + right. intros j Hj. replace j with 0%nat by lia. by rewrite E.
    + left. exists 0%nat. split_and!; [lia | done | intros; lia].
  - left. exists k. split_and!; [lia | done | done].
  - destruct (schema !! candidate (S n)) eqn:E.
    + right. intros j Hj. destruct (decide (j = S n)) as [->|].
      * by rewrite E.
      * apply Hall. lia.
    + left. exists (S n). split_and!; [lia | done |].
      intros j Hj. apply Hall. lia.
Qed.

(** A map cannot hold more candidates than it has entries. *)
Lemma not_all_taken :
  ~ (forall j, (j <= size schema)%nat -> is_Some (schema !! candidate j)).
Proof.
  intros Hall.
  set (keys := candidate <$> seq 0 (S (size schema))).
  assert (Hsub : (list_to_set keys : gset string) ⊆ dom schema).
  { intros key [j [-> Hj%elem_of_seq]]%elem_of_list_to_set%list_elem_of_fmap.
    apply elem_of_dom, Hall. lia. }
  apply subseteq_size in Hsub.
  rewrite size_list_to_set in Hsub.
  - unfold keys in Hsub. rewrite length_fmap, length_seq, size_dom in Hsub. lia.
  - apply (NoDup_fmap_2 _), NoDup_seq.
Qed.

Lemma first_free_candidate :
  exists k, (k <= size schema)%nat /\ schema !! candidate k = None
            /\ forall j, (j < k)%nat -> is_Some (schema !! candidate j).
Proof.
  destruct (first_free_or_all_taken (size schema)) as [H|H]; [done|].
  by destruct not_all_taken.
Qed.

End PutSchema.

(** [putSchema] returns: it inserts under the first free candidate. *)
Lemma putSchema_returns (schema : SchemaMap) (table : TableMetadata) :
  exists k : nat,
    putSchema schema table
    = Returns (<[candidateKey (StructName table) k := table]> schema)
    /\ schema !! candidateKey (StructName table) k = None
    /\ forall j, (j < k)%nat -> is_Some (schema !! candidateKey (StructName table) j).
Proof.
  destruct (first_free_candidate schema table) as (k & Hk & Hfree & Htaken).
  exists k. split_and!; [|done..].
  unfold putSchema. rewrite <- (candidate_0 table) at 1.
  apply (putSchemaLoop_first_free schema table (S (size schema)) 0 k);
    [lia | done | intros; apply Htaken; lia].
Qed.

(** C9: [putSchema] returns for every accumulator and every record; the
    result is the accumulator with the record inserted under a key that
    was free, so every earlier binding is unchanged and the map has
    exactly one entry more.  The key is the raw [StructName] when that is
    free, and otherwise [StructName__i] for the least [i >= 2] for which
    that key is free. *)
Theorem putSchema_inserts_once (schema : SchemaMap) (table : TableMetadata) :
  exists (key : string) (schema' : SchemaMap),
    putSchema schema table = Returns schema'
    /\ schema !! key = None
    /\ schema' !! key = Some table
    /\ (forall (k : string) (v : TableMetadata),
          schema !! k = Some v -> schema' !! k = Some v)
    /\ (forall k : string, k <> key -> schema' !! k = schema !! k)
    /\ size schema' = S (size schema)
    /\ (schema !! StructName table = None -> key = StructName table)
    /\ (is_Some (schema !! StructName table) ->
        exists i : N,
          (2 <= i)%N
          /\ key = StructName table +:+ "__" +:+ decimal i
          /\ forall i' : N, (2 <= i' < i)%N ->
               is_Some (schema !! (StructName table +:+ "__" +:+ decimal i'))).
Proof.
  destruct (putSchema_returns schema table) as (k & Hput & Hfree & Htaken).
  exists (candidateKey (StructName table) k),
    (<[candidateKey (StructName table) k := table]> schema).
  split_and!.
  - done.
  - done.
  - apply lookup_insert_eq.
  - intros k' v Hv. rewrite lookup_insert_ne; [done|]. intros <-. congruence.
  - intros k' Hne. by rewrite lookup_insert_ne.
  - by apply map_size_insert_None.
  - intros Hbase. destruct k as [|k]; [apply candidate_0|].
    destruct (Htaken 0%nat) as [v Hv]; [lia|].
    rewrite candidate_0 in Hv. congruence.
  - intros [v Hv]. destruct k as [|k].
    { rewrite candidate_0 in Hfree. congruence. }
    exists (N.of_nat k + 2)%N. split_and!; [lia | apply candidate_S |].
    intros i' Hi'.
    replace i' with (N.of_nat (N.to_nat i' - 2) + 2)%N by lia.
    rewrite <- candidate_S. apply Htaken. lia.
Qed.


Example putSchema_suffix :
  let t := {| StructName := "User"; NormalizedName := "User"; Source := "go:do";
              Columns := []; Relations := []; Operations := [] |} in
  putSchema (<["User" := t]> ∅) t
  = Returns (<["User__2" := t]> (<["User" := t]> ∅)).
Proof. vm_compute. reflexivity. Qed.

(** ** The [with:] sub-tag *)

(** The segment that [parseWithTag] looks at: the first one that starts
    with [with:] once trimmed. *)
Lemma withSegment_first (pre post : list string) (p value : string) :
  Forall (fun q => strings.HasPrefix (strings.TrimSpace q) "with:" = false) pre ->
  strings.TrimSpace p = "with:" +:+ value ->
  withSegment (pre ++ p :: post) = value.
Proof.
  intros Hpre Hp. induction Hpre as [|q pre Hq _ IH]; simpl.
  - by rewrite Hp, HasPrefix_append, TrimPrefix_append.
  - by rewrite Hq.
Qed.

Lemma withSegment_none (parts : list string) :
  Forall (fun q => strings.HasPrefix (strings.TrimSpace q) "with:" = false) parts ->
  withSegment parts = "".
Proof. induction 1 as [|q parts Hq _ IH]; simpl; [done | by rewrite Hq]. Qed.

(** A tag none of whose segments starts with [with:] gives no relation. *)
Lemma parseWithTag_no_segment (tag : string) :
  Forall (fun q => strings.HasPrefix (strings.TrimSpace q) "with:" = false)
    (strings.Split tag ","%char) ->
  parseWithTag tag = None.
Proof. intros H. unfold parseWithTag. by rewrite (withSegment_none _ H). Qed.

Lemma parseWithTag_uid :
  parseWithTag "with:uid=id" = parseWithTag "with:uid = id"
  /\ (TargetKey <$> parseWithTag "with:uid = id") = Some "uid"
  /\ (SourceKey <$> parseWithTag "with:uid = id") = Some "id".
Proof. vm_compute. done. Qed.

(** C6, as stated, fails: a [with:] sub-tag with an empty value gives no
    relation at all. *)
Lemma parseWithTag_empty_value :
  ~ (forall (tag : string) (pre post : list string) (p value : string),
       strings.Split tag ","%char = pre ++ p :: post ->
       Forall (fun q => strings.HasPrefix (strings.TrimSpace q) "with:" = false) pre ->
       strings.TrimSpace p = "with:" +:+ value ->
       exists rel,
         parseWithTag tag = Some rel
         /\ (~ occurs "="%char value ->
             TargetKey rel = strings.TrimSpace value /\ SourceKey rel = "id")).
Proof.
  intros H.
  destruct (H "with:" [] [] "with:" "") as (rel & Hrel & _); [done..|].
  vm_compute in Hrel. discriminate.
Qed.

(** C6 (amended): [parseWithTag] looks at the first segment of the tag
    that starts with [with:] once trimmed, and at no later one.  When the
    value of that segment is empty it returns nil, whatever follows, and
    [parseFile] then keeps a named field as a column.  When the value is
    not empty it gives a relation whose [TargetKey] is the trimmed text
    before the first [=] of the value and whose [SourceKey] is the
    trimmed text after it, or ["id"] when the value has no [=]; the other
    fields are left empty.  So [uid=id] and [uid = id] give the same
    relation. *)
Theorem parseWithTag_splits_value
    (tag : string) (pre post : list string) (p value : string) :
  strings.Split tag ","%char = pre ++ p :: post ->
  Forall (fun q => strings.HasPrefix (strings.TrimSpace q) "with:" = false) pre ->
  strings.TrimSpace p = "with:" +:+ value ->
  (value = "" ->
   parseWithTag tag = None
   /\ forall (field : Field) (tags : StructTag),
        fieldTag field = Some tags -> tagOrm tags = tag ->
        fieldRelation field = None
        /\ forall (fileSource : string) (table : TableMetadata)
                  (n : string) (names : list string),
             fieldNames field = n :: names ->
             exists c, addField fileSource table field = withColumn table c
                       /\ Name c = n)
  /\ (value <> "" ->
      exists rel,
        parseWithTag tag = Some rel
        /\ (forall l r : string,
              value = l +:+ String "="%char r -> ~ occurs "="%char l ->
              TargetKey rel = strings.TrimSpace l /\ SourceKey rel = strings.TrimSpace r)
        /\ (~ occurs "="%char value ->
            TargetKey rel = strings.TrimSpace value /\ SourceKey rel = "id")
        /\ FieldName rel = "" /\ TargetStruct rel = "" /\ IsCollection rel = false
        /\ rValidation rel = "" /\ rDescription rel = "")
  /\ parseWithTag "with:uid=id" = parseWithTag "with:uid = id"
  /\ (TargetKey <$> parseWithTag "with:uid = id") = Some "uid"
  /\ (SourceKey <$> parseWithTag "with:uid = id") = Some "id".
Proof.
  intros Hsplit Hpre Hp.
  assert (Hseg : withSegment (strings.Split tag ","%char) = value).
  { rewrite Hsplit. exact (withSegment_first pre post p value Hpre Hp). }
  split; [|split; [|exact parseWithTag_uid]].
  - intros Hvalue.
    assert (Hnil : parseWithTag tag = None).
    { unfold parseWithTag. rewrite Hseg. by rewrite decide_True. }
    split; [exact Hnil|]. intros field tags Htags Horm.
    assert (Hrel : fieldRelation field = None).
    { unfold fieldRelation. rewrite Htags, Horm, Hnil. by destruct (Contains tag "with:"). }
    split; [exact Hrel|]. intros fileSource table n names Hnames.
    unfold addField. rewrite Hrel, Hnames.
    destruct (resolveTypeInfo (fieldType field)) as [typeName isCollection].
    eexists. split; reflexivity.
  - intros Hvalue. unfold parseWithTag. rewrite Hseg.
    rewrite decide_False by done.
    eexists. split; [reflexivity|].
    cbn [TargetKey SourceKey FieldName TargetStruct IsCollection rValidation rDescription].
    split_and!; try done.
    + intros l r Hv Hl. unfold strings.SplitN2. by rewrite (Cut_Some value _ l r Hv Hl).
    + intros Hv. unfold strings.SplitN2. by rewrite (Cut_None value _ Hv).
Qed.

Lemma parseWithTag_splits_value_witness :
  (exists rel,
     parseWithTag "table:user, with: uid = id" = Some rel
     /\ TargetKey rel = "uid" /\ SourceKey rel = "id")
  /\ parseWithTag "with: , with:x=y" = None.
Proof.
  split.
  - destruct (parseWithTag_splits_value "table:user, with: uid = id"
                ["table:user"] [] " with: uid = id" " uid = id")
      as (_ & Hsome & _);
      [vm_compute; reflexivity | by repeat constructor | vm_compute; reflexivity |].
    destruct Hsome as (rel & Hrel & Heq & _); [discriminate|].
    exists rel. split; [exact Hrel|].
    destruct (Heq " uid " " id") as [Ht Hs]; [reflexivity | |].
    + simpl. intros [H|[H|[H|[H|[H|[]]]]]]; discriminate H.
    + split; [rewrite Ht | rewrite Hs]; vm_compute; reflexivity.
  - destruct (parseWithTag_splits_value "with: , with:x=y"
                [] [" with:x=y"] "with: " "")
      as (Hnone & _);
      [vm_compute; reflexivity | constructor | vm_compute; reflexivity |].
    exact (proj1 (Hnone eq_refl)).
Defined.

(** White space beyond ASCII is trimmed as well: a no-break space before
    the first segment does not hide it. *)
Example parseWithTag_no_break_space :
  parseWithTag (String "194" (String "160" "with:a=b,with:c=d"))
  = Some {| FieldName := ""; TargetStruct := ""; IsCollection := false;
            TargetKey := "a"; SourceKey := "b";
            rValidation := ""; rDescription := "" |}.
Proof. vm_compute. reflexivity. Qed.

Example parseWithTag_implicit_source :
  parseWithTag "with:user_id"
  = Some {| FieldName := ""; TargetStruct := ""; IsCollection := false;
            TargetKey := "user_id"; SourceKey := "id";
            rValidation := ""; rDescription := "" |}.
Proof. vm_compute. reflexivity. Qed.

(** ** Constraint merge *)

Lemma SFcompare_antisym (x y : float64) :
  SFcompare y x = CompOpp <$> SFcompare x y.
Proof.
  destruct x as [sx|sx| |sx mx ex], y as [sy|sy| |sy my ey]; simpl;
    try reflexivity; try (by destruct sx); try (by destruct sy);
    try (by destruct sx, sy).
  destruct sx, sy; simpl; try reflexivity;
    rewrite (Z.compare_antisym ex ey); destruct (ex ?= ey)%Z; simpl; try reflexivity.
  all: change (Pos.compare_cont Eq my mx) with (Pos.compare my mx);
       change (Pos.compare_cont Eq mx my) with (Pos.compare mx my);
       rewrite (Pos.compare_antisym mx my); by destruct (mx ?= my)%positive.
Qed.

Lemma SFcompare_refl (x : float64) : x <> S754_nan -> SFcompare x x = Some Eq.
Proof.
  destruct x as [s|s| |s m e]; simpl; intros H; try done.
  - by destruct s.
  - destruct s; rewrite Z.compare_refl;
      change (Pos.compare_cont Eq m m) with (Pos.compare m m);
      by rewrite Pos.compare_refl.
Qed.

Lemma SFcompare_number (x y : float64) :
  x <> S754_nan -> y <> S754_nan -> is_Some (SFcompare x y).
Proof. destruct x, y; simpl; intros; try done; eauto. Qed.

Lemma constraintsEmpty_true (c : FieldConstraints) :
  constraintsEmpty (Some c) = true <->
  Required c = false /\ Nullable c = false
  /\ MinLength c = None /\ MaxLength c = None
  /\ Minimum c = None /\ Maximum c = None
  /\ Pattern c = "" /\ Format c = "" /\ Enum c = [].
Proof.
  destruct c as [rq nl mnl mxl mn mx pt fm en]; simpl. split.
  - destruct rq, nl; simpl; try done.
    destruct mnl, mxl, mn, mx; simpl; try done.
    repeat case_bool_decide; simpl; try done.
    all: destruct en; simpl; try done.
    all: intros _; split_and!; try done; by apply dec_stable.
  - intros (-> & -> & -> & -> & -> & -> & -> & -> & ->). reflexivity.
Qed.

Lemma pickIntPtrMax_union (a b : option Z) :
  pickIntPtrMax a b = union_with (fun x y => Some (Z.max x y)) a b.
Proof.
  destruct a as [x|], b as [y|]; simpl; try reflexivity.
  destruct (Z.gtb_spec y x); f_equal; lia.
Qed.

Lemma pickIntPtrMin_union (a b : option Z) :
  pickIntPtrMin a b = union_with (fun x y => Some (Z.min x y)) a b.
Proof.
  destruct a as [x|], b as [y|]; simpl; try reflexivity.
  destruct (Z.ltb_spec y x); f_equal; lia.
Qed.

Lemma fltb_leb (x y : float64) : fltb x y = true -> SFleb x y = true.
Proof. unfold fltb, SFltb, SFleb. by destruct (SFcompare x y) as [[]|]. Qed.

Lemma fltb_false_leb (x y : float64) :
  x <> S754_nan -> y <> S754_nan -> fltb x y = false -> SFleb y x = true.
Proof.
  intros Hx Hy. unfold fltb, SFltb, SFleb. rewrite (SFcompare_antisym x y).
  destruct (SFcompare_number x y Hx Hy) as [c ->]. by destruct c.
Qed.

Lemma SFleb_refl (x : float64) : x <> S754_nan -> SFleb x x = true.
Proof. intros H. unfold SFleb. by rewrite SFcompare_refl. Qed.

Lemma SFeqb_refl (x : float64) : x <> S754_nan -> SFeqb x x = true.
Proof. intros H. unfold SFeqb. by rewrite SFcompare_refl. Qed.

Lemma fltb_asym (x y : float64) : fltb x y = true -> fltb y x = false.
Proof.
  unfold fltb, SFltb. rewrite (SFcompare_antisym x y).
  by destruct (SFcompare x y) as [[]|].
Qed.

Lemma fltb_neither (x y : float64) :
  x <> S754_nan -> y <> S754_nan ->
  fltb x y = false -> fltb y x = false -> SFeqb x y = true.
Proof.
  intros Hx Hy. unfold fltb, SFltb, SFeqb. rewrite (SFcompare_antisym x y).
  destruct (SFcompare_number x y Hx Hy) as [c ->]. by destruct c.
Qed.

Lemma SFeqb_same (x y : float64) :
  SFeqb x y = true -> x = y \/ exists s t : bool, x = S754_zero s /\ y = S754_zero t.
Proof.
  unfold SFeqb.
  destruct x as [sx|sx| |sx mx ex], y as [sy|sy| |sy my ey]; simpl;
    try discriminate; try (destruct sx; discriminate); try (destruct sy; discriminate).
  - intros _. right. eauto.
  - destruct sx, sy; try discriminate; by left.
  - destruct sx, sy; try discriminate;
      (destruct (ex ?= ey)%Z eqn:Ee; try discriminate;
       apply Z.compare_eq in Ee; subst ey;
       change (Pos.compare_cont Eq mx my) with (Pos.compare mx my);
       destruct (mx ?= my)%positive eqn:Em; try discriminate;
       apply Pos.compare_eq in Em; subst my; by left).
Qed.

Lemma pickFloatPtrMax_larger (a b : option float64) :
  isNumber a -> isNumber b -> largerOf a b (pickFloatPtrMax a b).
Proof.
  unfold isNumber. destruct a as [x|], b as [y|]; simpl; intros Ha Hb; try reflexivity.
  assert (x <> S754_nan) by (by intros ->). assert (y <> S754_nan) by (by intros ->).
  destruct (fltb x y) eqn:E.
  - exists y. split_and!; auto using fltb_leb, SFleb_refl.
  - exists x. split_and!; auto using fltb_false_leb, SFleb_refl.
Qed.

Lemma pickFloatPtrMin_smaller (a b : option float64) :
  isNumber a -> isNumber b -> smallerOf a b (pickFloatPtrMin a b).
Proof.
  unfold isNumber. destruct a as [x|], b as [y|]; simpl; intros Ha Hb; try reflexivity.
  assert (x <> S754_nan) by (by intros ->). assert (y <> S754_nan) by (by intros ->).
  destruct (fltb y x) eqn:E.
  - exists y. split_and!; auto using fltb_leb, SFleb_refl.
  - exists x. split_and!; auto using fltb_false_leb, SFleb_refl.
Qed.

(** The bounds of a merge are the picks of the bounds, also when the
    merge collapses to nil. *)
Lemma mergeConstraints_bounds (a b : FieldConstraints) :
  let r := mergeConstraints (Some a) (Some b) in
  r ≫= MinLength = pickIntPtrMax (MinLength a) (MinLength b)
  /\ r ≫= MaxLength = pickIntPtrMin (MaxLength a) (MaxLength b)
  /\ r ≫= Minimum = pickFloatPtrMax (Minimum a) (Minimum b)
  /\ r ≫= Maximum = pickFloatPtrMin (Maximum a) (Maximum b).
Proof.
  intros r; subst r; unfold mergeConstraints.
  match goal with |- context [constraintsEmpty (Some ?o)] => set (out := o) end.
  destruct (constraintsEmpty (Some out)) eqn:E; simpl; [|done].
  apply constraintsEmpty_true in E. simpl in E.
  destruct E as (_ & _ & -> & -> & -> & -> & _). done.
Qed.

Lemma pickInt_None_max a b : pickIntPtrMax a b = None <-> a = None /\ b = None.
Proof. destruct a, b; simpl; try case_match; intuition congruence. Qed.
Lemma pickInt_None_min a b : pickIntPtrMin a b = None <-> a = None /\ b = None.
Proof. destruct a, b; simpl; try case_match; intuition congruence. Qed.
Lemma pickFloat_None_max a b : pickFloatPtrMax a b = None <-> a = None /\ b = None.
Proof. destruct a, b; simpl; try case_match; intuition congruence. Qed.
Lemma pickFloat_None_min a b : pickFloatPtrMin a b = None <-> a = None /\ b = None.
Proof. destruct a, b; simpl; try case_match; intuition congruence. Qed.

Lemma mergeConstraints_collapse (a b : FieldConstraints) :
  let r := mergeConstraints (Some a) (Some b) in
  (forall c, r = Some c -> constraintsEmpty (Some c) = false)
  /\ (r = None <-> constraintsEmpty (Some a) = true /\ constraintsEmpty (Some b) = true).
Proof.
  intros r; subst r; unfold mergeConstraints.
  match goal with |- context [constraintsEmpty (Some ?o)] => set (out := o) end.
  destruct (constraintsEmpty (Some out)) eqn:E.
  - split; [done|]. split; [intros _|done].
    apply constraintsEmpty_true in E. simpl in E.
    destruct E as (Hr & Hn & H1%pickInt_None_max & H2%pickInt_None_min
                   & H3%pickFloat_None_max & H4%pickFloat_None_min & Hp & Hf & He).
    apply orb_false_iff in Hr as [??], Hn as [??].
    rewrite !constraintsEmpty_true.
    destruct (decide (Pattern a = "")), (decide (Format a = "")); try done.
    destruct (Enum a) as [|ea la] eqn:Ea, (Enum b) as [|eb lb] eqn:Eb;
      simpl in He; try done.
    destruct H1, H2, H3, H4. by split_and!.
  - split; [by intros c [= <-]|]. split; [done|]. intros [Ha Hb].
    apply constraintsEmpty_true in Ha, Hb.
    destruct Ha as (? & ? & ? & ? & ? & ? & ? & ? & ?), Hb as (? & ? & ? & ? & ? & ? & ? & ? & ?).
    assert (constraintsEmpty (Some out) = true); [|congruence].
    apply constraintsEmpty_true. unfold out; simpl.
    repeat match goal with H : _ = _ |- _ => rewrite H end. done.
Qed.

(** The value bound that [pickFloatPtrMax] keeps is the same in both
    orders, except for the zeros -0 and +0, which [<] does not tell apart:
    of these each order keeps its first argument. *)
Lemma pickFloatPtrMax_order (x y : option float64) :
  isNumber x -> isNumber y ->
  pickFloatPtrMax x y = pickFloatPtrMax y x
  \/ exists s : bool,
       x = Some (S754_zero s) /\ y = Some (S754_zero (negb s))
       /\ pickFloatPtrMax x y = x /\ pickFloatPtrMax y x = y.
Proof.
  unfold isNumber. destruct x as [x|], y as [y|]; simpl; intros Hx Hy; try by left.
  assert (x <> S754_nan) by (by intros ->). assert (y <> S754_nan) by (by intros ->).
  destruct (fltb x y) eqn:E1, (fltb y x) eqn:E2.
  - apply fltb_asym in E1. congruence.
  - by left.
  - by left.
  - destruct (SFeqb_same x y (fltb_neither x y ltac:(done) ltac:(done) E1 E2))
      as [->|(s & t & -> & ->)]; [by left|].
    destruct s, t; [by left | right; by exists true | right; by exists false | by left].
Qed.

Lemma pickFloatPtrMin_order (x y : option float64) :
  isNumber x -> isNumber y ->
  pickFloatPtrMin x y = pickFloatPtrMin y x
  \/ exists s : bool,
       x = Some (S754_zero s) /\ y = Some (S754_zero (negb s))
       /\ pickFloatPtrMin x y = x /\ pickFloatPtrMin y x = y.
Proof.
  unfold isNumber. destruct x as [x|], y as [y|]; simpl; intros Hx Hy; try by left.
  assert (x <> S754_nan) by (by intros ->). assert (y <> S754_nan) by (by intros ->).
  destruct (fltb y x) eqn:E1, (fltb x y) eqn:E2.
  - apply fltb_asym in E1. congruence.
  - by left.
  - by left.
  - destruct (SFeqb_same x y (fltb_neither x y ltac:(done) ltac:(done) E2 E1))
      as [->|(s & t & -> & ->)]; [by left|].
    destruct s, t; [by left | right; by exists true | right; by exists false | by left].
Qed.

(** C4, as stated, fails: the minimum values -0 and +0 are equal
    numbers, and of two equal bounds each order keeps the one of its
    first argument, so the two orders give -0 and +0. *)
Lemma mergeConstraints_order_of_zeros :
  ~ (forall a b : FieldConstraints,
       numeric a -> numeric b ->
       mergeConstraints (Some a) (Some b) ≫= Minimum
       = mergeConstraints (Some b) (Some a) ≫= Minimum).
Proof.
  intros H.
  specialize (H (lengthBounds 1 5 (S754_zero true) five)
                (lengthBounds 1 5 (S754_zero false) five)).
  assert (Hzeros :
    mergeConstraints (Some (lengthBounds 1 5 (S754_zero true) five))
                     (Some (lengthBounds 1 5 (S754_zero false) five)) ≫= Minimum
    = Some (S754_zero true)
    /\ mergeConstraints (Some (lengthBounds 1 5 (S754_zero false) five))
                        (Some (lengthBounds 1 5 (S754_zero true) five)) ≫= Minimum
       = Some (S754_zero false)) by (vm_compute; done).
  destruct Hzeros as [E1 E2].
  assert (Heq : Some (S754_zero true) = Some (S754_zero false)).
  { rewrite <- E1, <- E2. apply H; split; discriminate. }
  discriminate Heq.
Qed.

(** C4 (amended): for non-nil [a] and [b] whose value bounds are numbers,
    the merge keeps the larger minimum length and minimum value and the
    smaller maximum length and maximum value, an absent bound being no
    constraint.  The length bounds are the same in both argument orders.
    The value bounds are the same in both orders unless the two bounds
    are the zeros -0 and +0: then each order keeps the zero of its first
    argument.  The merge is never an all-default object: it is nil
    exactly when [a] and [b] are both all-default. *)
Theorem mergeConstraints_narrows (a b : FieldConstraints) :
  numeric a -> numeric b ->
  let r := mergeConstraints (Some a) (Some b) in
  let r' := mergeConstraints (Some b) (Some a) in
  r ≫= MinLength = union_with (fun x y => Some (Z.max x y)) (MinLength a) (MinLength b)
  /\ r ≫= MaxLength = union_with (fun x y => Some (Z.min x y)) (MaxLength a) (MaxLength b)
  /\ largerOf (Minimum a) (Minimum b) (r ≫= Minimum)
  /\ smallerOf (Maximum a) (Maximum b) (r ≫= Maximum)
  /\ r ≫= MinLength = r' ≫= MinLength
  /\ r ≫= MaxLength = r' ≫= MaxLength
  /\ (r ≫= Minimum = r' ≫= Minimum
      \/ exists s : bool,
           Minimum a = Some (S754_zero s) /\ Minimum b = Some (S754_zero (negb s))
           /\ r ≫= Minimum = Minimum a /\ r' ≫= Minimum = Minimum b)
  /\ (r ≫= Maximum = r' ≫= Maximum
      \/ exists s : bool,
           Maximum a = Some (S754_zero s) /\ Maximum b = Some (S754_zero (negb s))
           /\ r ≫= Maximum = Maximum a /\ r' ≫= Maximum = Maximum b)
  /\ (forall c, r = Some c -> constraintsEmpty (Some c) = false)
  /\ (r = None <-> constraintsEmpty (Some a) = true /\ constraintsEmpty (Some b) = true).
Proof.
  intros [Ha1 Ha2] [Hb1 Hb2] r r'.
  destruct (mergeConstraints_bounds a b) as (E1 & E2 & E3 & E4).
  destruct (mergeConstraints_bounds b a) as (F1 & F2 & F3 & F4).
  fold r in E1, E2, E3, E4. fold r' in F1, F2, F3, F4.
  rewrite E1, E2, E3, E4, F1, F2, F3, F4.
  split_and!.
  - apply pickIntPtrMax_union.
  - apply pickIntPtrMin_union.
  - by apply pickFloatPtrMax_larger.
  - by apply pickFloatPtrMin_smaller.
  - rewrite !pickIntPtrMax_union. destruct (MinLength a), (MinLength b); simpl; f_equal; lia.
  - rewrite !pickIntPtrMin_union. destruct (MaxLength a), (MaxLength b); simpl; f_equal; lia.
  - by apply pickFloatPtrMax_order.
  - by apply pickFloatPtrMin_order.
  - apply mergeConstraints_collapse.
  - apply mergeConstraints_collapse.
Qed.

(** ** Merging a record with itself *)

Lemma columnKey_mergeColumn (a b : ColumnInfo) :
  columnKey a = columnKey b -> columnKey (mergeColumn a b) = columnKey a.
Proof.
  unfold columnKey, mergeColumn; simpl. intros H.
  destruct (decide (JSONName a = "")) as [Ea|Ea]; simpl.
  - destruct (decide (JSONName b = "")) as [Eb|Eb]; simpl.
    + destruct (decide (Name a = "")); [by rewrite <- H | done].
    + by destruct (decide (JSONName b = "")).
  - by destruct (decide (JSONName a = "")).
Qed.

(** What [indexColumns] leaves in the index: an old entry, or the
    position of a column with that key. *)
Lemma indexColumns_lookup (cols : list ColumnInfo) (n : nat)
    (index : gmap string nat) (k : string) (i : nat) :
  indexColumns n cols index !! k = Some i ->
  index !! k = Some i
  \/ ((n <= i)%nat /\ (columnKey <$> cols) !! (i - n)%nat = Some k).
Proof.
  revert n index. induction cols as [|c cols IH]; intros n index H; simpl in H.
  - by left.
  - apply IH in H as [H|[Hle H]].
    + destruct (decide (columnKey c = k)) as [<-|Hne].
      * rewrite lookup_insert_eq in H. injection H as <-.
        right. split; [lia|]. by rewrite Nat.sub_diag.
      * rewrite lookup_insert_ne in H by done. by left.
    + right. split; [lia|].
      replace (i - n)%nat with (S (i - S n)) by lia. exact H.
Qed.

Lemma indexColumns_is_Some (cols : list ColumnInfo) (n : nat)
    (index : gmap string nat) (k : string) :
  k ∈ columnKey <$> cols \/ is_Some (index !! k) ->
  is_Some (indexColumns n cols index !! k).
Proof.
  revert n index. induction cols as [|c cols IH]; intros n index H; simpl.
  - destruct H as [H|H]; [|done]. by apply elem_of_nil in H.
  - apply IH. destruct H as [H|H].
    + rewrite fmap_cons in H. apply elem_of_cons in H as [->|H]; [|by left].
      right. rewrite lookup_insert_eq. eauto.
    + right. destruct (decide (columnKey c = k)) as [<-|Hne].
      * rewrite lookup_insert_eq. eauto.
      * by rewrite lookup_insert_ne.
Qed.

(** Merging columns whose keys are all in the index already keeps the key
    of every position. *)
Lemma mergeColumnInto_keys (keys : list string) (src dst : list ColumnInfo)
    (index : gmap string nat) :
  columnKey <$> dst = keys ->
  (forall k i, index !! k = Some i -> keys !! i = Some k) ->
  (forall c, c ∈ src -> is_Some (index !! columnKey c)) ->
  columnKey <$> (fold_left mergeColumnInto src (dst, index)).1 = keys.
Proof.
  revert dst. induction src as [|c src IH]; intros dst Hdst Hidx Hsrc; [done|].
  simpl. destruct (decide (columnKey c = "")) as [|Hk].
  { apply IH; [done | done | intros; apply Hsrc; by right]. }
  destruct (Hsrc c) as [i Hi]; [by left|]. rewrite Hi.
  apply IH; [| done | intros; apply Hsrc; by right].
  rewrite <- Hdst. apply list_eq. intros j.
  rewrite !list_lookup_fmap, list_lookup_alter.
  destruct (decide (i = j)) as [<-|]; [|done].
  specialize (Hidx _ _ Hi). rewrite <- Hdst, list_lookup_fmap in Hidx.
  destruct (dst !! i) as [d|]; simpl in *; [|done].
  injection Hidx as Hd. f_equal. by apply columnKey_mergeColumn.
Qed.

Lemma mergeColumns_self_keys (cols : list ColumnInfo) :
  columnKey <$> mergeColumns cols cols = columnKey <$> cols.
Proof.
  apply mergeColumnInto_keys; [done | |].
  - intros k i [H|[_ H]]%indexColumns_lookup; [done|].
    by rewrite Nat.sub_0_r in H.
  - intros c Hc. apply indexColumns_is_Some. left.
    by apply list_elem_of_fmap_2.
Qed.

(** Elements whose key is empty or seen already are all skipped. *)
Lemma appendUnseen_all_seen {A} (key : A -> string) (src dst : list A)
    (seen : gset string) :
  (forall x, x ∈ src -> key x = "" \/ key x ∈ seen) ->
  fold_left (appendUnseen key) src (dst, seen) = (dst, seen).
Proof.
  induction src as [|x src IH]; intros H; [done|]. simpl.
  destruct (decide (key x = "")) as [|Hk].
  { apply IH. intros; apply H; by right. }
  destruct (decide (key x ∈ seen)) as [|Hs].
  { apply IH. intros; apply H; by right. }
  destruct (H x) as [|]; [by left | done | done].
Qed.

Lemma mergeByKey_self {A} (key : A -> string) (l : list A) : mergeByKey key l l = l.
Proof.
  unfold mergeByKey. rewrite appendUnseen_all_seen; [done|].
  intros x Hx. right. apply elem_of_list_to_set.
  by apply list_elem_of_fmap_2.
Qed.

(** C5: merging a record into a clone of itself adds nothing: the
    relations and the operations are the record's own, the columns keep
    their number and, position by position, their identity keys, so the
    count of distinct column keys, relation keys and operation keys is
    that of the record. *)
Theorem mergeTableMetadata_self (A : TableMetadata) :
  let M := mergeTableMetadata (cloneTableMetadata A) A in
  columnKey <$> Columns M = columnKey <$> Columns A
  /\ Relations M = Relations A
  /\ Operations M = Operations A
  /\ length (Columns M) = length (Columns A)
  /\ distinct columnKey (Columns M) = distinct columnKey (Columns A)
  /\ distinct relationKey (Relations M) = distinct relationKey (Relations A)
  /\ distinct operationKey (Operations M) = distinct operationKey (Operations A).
Proof.
  simpl. unfold mergeRelations, mergeOperations, distinct.
  rewrite !mergeByKey_self, mergeColumns_self_keys.
  split_and!; try done.
  rewrite <- (length_fmap columnKey), mergeColumns_self_keys. apply length_fmap.
Qed.

(** ** Termination of the schema resolution *)

Lemma weight_unfold (s : openAPISchema) :
  weight s = (2 + weights (sAllOf s) + weights (sOneOf s) + weights (sAnyOf s))%nat.
Proof.
  destruct s as [? ? ? ? ? ? ? ? ? ? ? ? ? ? allOf oneOf anyOf]. simpl.
  assert (H : forall l,
    (fix below (l : list (option openAPISchema)) : nat :=
       match l with
       | [] => O
       | None :: l' => S (below l')
       | Some x :: l' => (weight x + below l')%nat
       end) l = weights l).
  { induction l as [|[x|] l IH]; simpl; [done| |]; by rewrite IH. }
  by rewrite !H.
Qed.

Lemma oweight_le_weights (l : list (option openAPISchema)) (sub : option openAPISchema) :
  sub ∈ l -> (oweight sub <= weights l)%nat.
Proof.
  unfold weights. induction l as [|x l IH]; intros H.
  - by apply elem_of_nil in H.
  - rewrite fmap_cons. simpl.
    apply elem_of_cons in H as [->|H]; [lia | specialize (IH H); lia].
Qed.

Lemma unvisited_sum_mono (seen seen' : gset string)
    (l : list (string * option openAPISchema)) :
  seen ⊆ seen' ->
  (sum_list ((fun kx : string * option openAPISchema =>
                if decide (kx.1 ∈ seen') then O else S (oweight kx.2)) <$> l)
   <= sum_list ((fun kx : string * option openAPISchema =>
                   if decide (kx.1 ∈ seen) then O else S (oweight kx.2)) <$> l))%nat.
Proof.
  intros Hsub. induction l as [|[k x] l IH]; [done|].
  rewrite !fmap_cons. simpl.
  destruct (decide (k ∈ seen)), (decide (k ∈ seen')); try lia.
  set_solver.
Qed.

Lemma unvisitedWeight_mono (spec : openAPISpec) (seen seen' : gset string) :
  seen ⊆ seen' -> (unvisitedWeight spec seen' <= unvisitedWeight spec seen)%nat.
Proof. apply unvisited_sum_mono. Qed.

Lemma unvisitedWeight_visit (spec : openAPISpec) (seen : gset string)
    (name : string) (sch : option openAPISchema) :
  Schemas spec !! name = Some sch -> name ∉ seen ->
  (S (oweight sch) + unvisitedWeight spec ({[ name ]} ∪ seen)
   <= unvisitedWeight spec seen)%nat.
Proof.
  intros Hin%elem_of_map_to_list Hnew. unfold unvisitedWeight.
  induction (map_to_list (Schemas spec)) as [|[k x] l IH].
  - by apply elem_of_nil in Hin.
  - rewrite !fmap_cons. simpl.
    apply elem_of_cons in Hin as [[= <- <-]|Hin].
    + rewrite decide_True by set_solver. rewrite decide_False by done.
      assert (Hsub : seen ⊆ {[name]} ∪ seen) by set_solver.
      pose proof (unvisited_sum_mono seen ({[name]} ∪ seen) l Hsub). lia.
    + specialize (IH Hin).
      destruct (decide (k ∈ seen)), (decide (k ∈ {[name]} ∪ seen)); try lia.
      set_solver.
Qed.

Lemma foldOutcome_returns {A B} (f : B -> A -> outcome B) (P : B -> B -> Prop)
    (Q : B -> A -> Prop) (l : list A) (b : B) :
  (forall b, P b b) -> (forall a b c, P a b -> P b c -> P a c) ->
  (forall b b' x, x ∈ l -> P b b' -> Q b x -> Q b' x) ->
  (forall b x, x ∈ l -> Q b x -> exists b', f b x = Returns b' /\ P b b') ->
  (forall x, x ∈ l -> Q b x) ->
  exists b', foldOutcome f l b = Returns b' /\ P b b'.
Proof.
  intros Hrefl Htrans Hmono Hf. revert b.
  induction l as [|x l IH]; intros b HQ; simpl.
  - eauto.
  - destruct (Hf b x) as (b1 & -> & Hb1); [by left | apply HQ; by left |]. simpl.
    destruct IH with (b := b1) as (b2 & -> & Hb2).
    + intros; eapply Hmono; eauto. by right.
    + intros; apply Hf; eauto. by right.
    + intros y Hy. eapply Hmono; [by right | exact Hb1 | apply HQ; by right].
    + eauto.
Qed.

Lemma collect_returns (spec : openAPISpec) (fuel : nat) :
  forall (s : option openAPISchema) (acc : collected),
    (collectFuel spec s (visited acc) <= fuel)%nat ->
    exists acc', collectOpenAPIObject fuel spec s acc = Returns acc'
                 /\ visited acc ⊆ visited acc'
                 /\ referenceVisited s acc acc'.
Proof.
  unfold collectFuel.
  induction fuel as [|fuel IH]; intros s acc Hfuel.
  { destruct s; simpl in Hfuel; [rewrite weight_unfold in Hfuel|]; lia. }
  destruct s as [s|]; simpl; [|by exists acc].
  simpl in Hfuel. rewrite weight_unfold in Hfuel.
  destruct (decide (sRef s <> "")) as [Href|Href].
  - destruct (decide (openAPIRefName (sRef s) = "")).
    { exists acc. split_and!; [done..|]. by intros x [= <-] _. }
    destruct (decide (openAPIRefName (sRef s) ∈ visited acc)) as [|Hnew].
    { exists acc. split_and!; [done..|]. by intros x [= <-] _. }
    set (name := openAPIRefName (sRef s)) in *.
    destruct (IH (at_key (Schemas spec) name)
                {| visited := {[name]} ∪ visited acc; props := props acc;
                   required := required acc |}) as (acc' & -> & Hsub & _); simpl.
    + unfold at_key. destruct (Schemas spec !! name) as [sch|] eqn:E; simpl.
      * pose proof (unvisitedWeight_visit spec _ _ _ E Hnew). lia.
      * assert (Hsub : visited acc ⊆ {[name]} ∪ visited acc) by set_solver.
        pose proof (unvisitedWeight_mono spec _ _ Hsub). lia.
    + exists acc'. split_and!; [done | set_solver |].
      intros x [= <-] _. fold name. set_solver.
  - set (acc0 := {| visited := visited acc; props := props acc;
                    required := required acc ∪ list_to_set (sRequired s) |}).
    assert (Hstep : forall (sub : option openAPISchema) (b : collected) (w : nat),
               (oweight sub <= w)%nat ->
               (w + unvisitedWeight spec (visited b) <= fuel)%nat ->
               exists b', collectOpenAPIObject fuel spec sub b = Returns b'
                          /\ visited b ⊆ visited b').
    { intros sub b w Hw Hb. destruct (IH sub b) as (b' & ? & ? & _); [lia | eauto]. }
    destruct (foldOutcome_returns
                (fun b sub => collectOpenAPIObject fuel spec sub b)
                (fun b b' => visited b ⊆ visited b')
                (fun b sub => (weights (sAllOf s) + unvisitedWeight spec (visited b)
                               <= fuel)%nat)
                (sAllOf s) acc0) as (acc1 & -> & H1); simpl.
    + done.
    + intros a b c ??. by etrans.
    + intros b b' x _ Hbb' Hb. pose proof (unvisitedWeight_mono spec _ _ Hbb'). lia.
    + intros b x Hx Hb. apply (Hstep x b (weights (sAllOf s))); [|done].
      by apply oweight_le_weights.
    + intros x _. lia.
    + assert (H2 : exists acc2,
                 match sOneOf s with
                 | first :: _ => collectOpenAPIObject fuel spec first acc1
                 | [] => Returns acc1
                 end = Returns acc2 /\ visited acc1 ⊆ visited acc2).
      { destruct (sOneOf s) as [|first rest] eqn:E; [eauto|].
        apply (Hstep first acc1 (weights (sOneOf s))).
        - apply oweight_le_weights. rewrite E. by left.
        - pose proof (unvisitedWeight_mono spec _ _ H1). rewrite E. simpl in *. lia. }
      destruct H2 as (acc2 & -> & H2); simpl.
      assert (H3 : exists acc3,
                 match sAnyOf s with
                 | first :: _ => collectOpenAPIObject fuel spec first acc2
                 | [] => Returns acc2
                 end = Returns acc3 /\ visited acc2 ⊆ visited acc3).
      { destruct (sAnyOf s) as [|first rest] eqn:E; [eauto|].
        apply (Hstep first acc2 (weights (sAnyOf s))).
        - apply oweight_le_weights. rewrite E. by left.
        - pose proof (unvisitedWeight_mono spec _ _ H1).
          pose proof (unvisitedWeight_mono spec _ _ H2). rewrite E. simpl in *. lia. }
      destruct H3 as (acc3 & -> & H3); simpl.
      eexists. split_and!; [done | simpl; set_solver |].
      by intros x [= <-] ?.
Qed.

(** More fuel does not change a result. *)
Lemma foldOutcome_mono {A B} (f g : B -> A -> outcome B) (l : list A) (b r : B) :
  (forall b x r, f b x = Returns r -> g b x = Returns r) ->
  foldOutcome f l b = Returns r -> foldOutcome g l b = Returns r.
Proof.
  intros Hfg. revert b. induction l as [|x l IH]; intros b; simpl; [done|].
  destruct (f b x) as [b1| |] eqn:E; simpl; try done.
  rewrite (Hfg _ _ _ E). simpl. apply IH.
Qed.

Lemma collect_fuel_mono (spec : openAPISpec) (fuel : nat) :
  forall (s : option openAPISchema) (acc r : collected) (fuel' : nat),
    collectOpenAPIObject fuel spec s acc = Returns r ->
    (fuel <= fuel')%nat ->
    collectOpenAPIObject fuel' spec s acc = Returns r.
Proof.
  induction fuel as [|fuel IH]; intros s acc r fuel' H Hle; [done|].
  destruct fuel' as [|fuel']; [lia|]. assert (fuel <= fuel')%nat by lia.
  simpl in *. destruct s as [s|]; [|done].
  destruct (decide (sRef s <> "")).
  - repeat case_decide; eauto.
  - destruct (foldOutcome _ (sAllOf s) _) as [acc1| |] eqn:E1; simpl in H; try done.
    apply (foldOutcome_mono _ (fun b sub => collectOpenAPIObject fuel' spec sub b))
      in E1; [|by eauto].
    rewrite E1. simpl.
    assert (H2 : forall (l : list (option openAPISchema)) a b,
               match l with
               | first :: _ => collectOpenAPIObject fuel spec first a
               | [] => Returns a
               end = Returns b ->
               match l with
               | first :: _ => collectOpenAPIObject fuel' spec first a
               | [] => Returns a
               end = Returns b).
    { intros [|first rest] a b; eauto. }
    destruct (match sOneOf s with [] => _ | _ => _ end) as [acc2| |] eqn:E2;
      simpl in H; try done.
    rewrite (H2 _ _ _ E2). simpl.
    destruct (match sAnyOf s with [] => _ | _ => _ end) as [acc3| |] eqn:E3;
      simpl in H; try done.
    by rewrite (H2 _ _ _ E3).
Qed.

(** C8: [collectOpenAPIObject] returns for every document, every schema
    and every state of the three maps, cyclic references included: the
    fuel [collectFuel] is enough, and more fuel gives the same result.  A
    reference whose name was visited is skipped, and the name of a
    reference that is followed is in the visited set of the result. *)
Theorem collectOpenAPIObject_terminates
    (spec : openAPISpec) (s : option openAPISchema) (acc : collected) (extra : nat) :
  exists acc',
    collectOpenAPIObject (collectFuel spec s (visited acc) + extra) spec s acc
    = Returns acc'
    /\ collectOpenAPIObject (collectFuel spec s (visited acc)) spec s acc
       = Returns acc'
    /\ visited acc ⊆ visited acc'
    /\ referenceVisited s acc acc'.
Proof.
  destruct (collect_returns spec (collectFuel spec s (visited acc)) s acc)
    as (acc' & Hacc' & Hsub & Href); [done|].
  exists acc'. split_and!; try done.
  apply (collect_fuel_mono spec _ _ _ _ _ Hacc'). lia.
Qed.

Lemma foldOutcome_fuel {A B} (f : B -> A -> outcome B) (l : list A) (b : B) :
  (forall b x, f b x <> OutOfFuel) -> foldOutcome f l b <> OutOfFuel.
Proof.
  intros Hf. revert b. induction l as [|x l IH]; intros b; simpl; [done|].
  specialize (Hf b x). destruct (f b x); simpl; [apply IH | done | done].
Qed.

Lemma columnOfProperty_fuel (acc : collected) (propName : string) :
  columnOfProperty acc propName <> OutOfFuel.
Proof.
  unfold columnOfProperty.
  destruct (openAPITypeName _) as [[??]?]. by destruct (at_key _ _).
Qed.

(** The resolution of a component schema never runs out of the fuel it is
    given. *)
Lemma openAPISchemaToTableMetadata_fuel (spec : openAPISpec) (schemaName : string)
    (schema : option openAPISchema) :
  openAPISchemaToTableMetadata spec schemaName schema <> OutOfFuel.
Proof.
  unfold openAPISchemaToTableMetadata.
  destruct (collect_returns spec (collectFuel spec schema ∅) schema
              {| visited := ∅; props := ∅; required := ∅ |}) as (acc & -> & _); [done|].
  simpl.
  match goal with |- context [foldOutcome ?f ?l ?b] =>
    pose proof (foldOutcome_fuel f l b) as Hfold;
    destruct (foldOutcome f l b) end; simpl; try done.
  intros _. apply Hfold; [|done]. intros cols k.
  pose proof (columnOfProperty_fuel acc k). by destruct (columnOfProperty acc k).
Qed.

Example collect_cyclic :
  (fun acc => (elements (visited acc), (map_to_list (props acc)).*1, elements (required acc)))
  <$> match collectOpenAPIObject (collectFuel cyclicSpec (Some (refTo "Node")) ∅) cyclicSpec
          (Some (refTo "Node")) {| visited := ∅; props := ∅; required := ∅ |} with
      | Returns acc => Some acc
      | _ => None
      end
  = Some (["Node"; "Link"], ["id"; "label"], ["id"]).
Proof. vm_compute. reflexivity. Qed.

(** ** Choice of the response and of the media type *)

Lemma elem_of_keys {A} (m : gmap string A) (k : string) :
  k ∈ (map_to_list m).*1 <-> is_Some (m !! k).
Proof.
  rewrite list_elem_of_fmap. split.
  - intros [[k' v] [-> H%elem_of_map_to_list]]. eauto.
  - intros [v Hv]. exists (k, v). split; [done|]. by apply elem_of_map_to_list.
Qed.

Lemma sortStrings_head (l : list string) (k : string) (rest : list string) :
  sortStrings l = k :: rest -> k ∈ l /\ forall k', k' ∈ l -> String.le k k'.
Proof.
  intros H. unfold sortStrings in H.
  pose proof (merge_sort_Permutation String.le l) as Hperm.
  pose proof (StronglySorted_merge_sort String.le l) as Hsorted.
  rewrite H in Hperm, Hsorted. split.
  - rewrite <- Hperm. by left.
  - intros k' Hk'. rewrite <- Hperm in Hk'.
    apply elem_of_cons in Hk' as [->|Hk']; [done|].
    apply StronglySorted_inv in Hsorted as [_ Hall].
    rewrite Forall_forall in Hall. by apply Hall.
Qed.

Lemma sortStrings_leastKey {A} (m : gmap string A) (k : string) :
  leastKey m k -> exists rest, sortStrings (map_to_list m).*1 = k :: rest.
Proof.
  intros [Hk Hleast].
  destruct (sortStrings (map_to_list m).*1) as [|k' rest] eqn:E.
  - apply elem_of_keys in Hk.
    pose proof (merge_sort_Permutation String.le (map_to_list m).*1) as Hperm.
    unfold sortStrings in E. rewrite E in Hperm.
    rewrite <- Hperm in Hk. by apply elem_of_nil in Hk.
  - apply sortStrings_head in E as Hhead. destruct Hhead as [Hin Hle].
    exists rest. f_equal. apply (anti_symm String.le).
    + apply Hle. by apply elem_of_keys.
    + apply Hleast. by apply elem_of_keys.
Qed.

Lemma size_nonempty {A} (m : gmap string A) (k : string) :
  is_Some (m !! k) -> size m <> 0%nat.
Proof. intros [v Hv] Hsize. apply map_size_empty_inv in Hsize. by subst. Qed.

Lemma present_at_key {A} (m : gmap string (option A)) (k : string) (x : A) :
  present m k x -> at_key m k = Some x.
Proof. unfold present, at_key. by intros ->. Qed.

Lemma pickJSONMediaSchema_json content mt :
  present content "application/json" mt ->
  pickJSONMediaSchema content = Returns (Schema mt).
Proof.
  intros H. unfold pickJSONMediaSchema.
  rewrite decide_False by (apply (size_nonempty _ "application/json"); rewrite H; eauto).
  by rewrite (present_at_key _ _ _ H).
Qed.

Lemma pickJSONMediaSchema_ld_json content mt :
  absent content "application/json" ->
  present content "application/ld+json" mt ->
  pickJSONMediaSchema content = Returns (Schema mt).
Proof.
  intros Hj H. unfold pickJSONMediaSchema.
  rewrite decide_False by (apply (size_nonempty _ "application/ld+json"); rewrite H; eauto).
  rewrite Hj. by rewrite (present_at_key _ _ _ H).
Qed.

Lemma pickJSONMediaSchema_first content k mt :
  absent content "application/json" ->
  absent content "application/ld+json" ->
  leastKey content k ->
  present content k mt ->
  pickJSONMediaSchema content = Returns (Schema mt).
Proof.
  intros Hj Hl Hk H. unfold pickJSONMediaSchema.
  rewrite decide_False by (apply (size_nonempty _ k); rewrite H; eauto).
  rewrite Hj, Hl. destruct (sortStrings_leastKey _ _ Hk) as [rest ->].
  by rewrite (present_at_key _ _ _ H).
Qed.

Lemma firstResponse_first resps (pre post : list string) code r :
  Forall (absent resps) pre -> present resps code r ->
  firstResponse resps (pre ++ code :: post) = Some r.
Proof.
  intros Hpre H. induction Hpre as [|c pre Hc _ IH]; simpl.
  - by rewrite (present_at_key _ _ _ H).
  - by rewrite Hc.
Qed.

Lemma firstResponse_none resps (codes : list string) :
  Forall (absent resps) codes -> firstResponse resps codes = None.
Proof. induction 1 as [|c codes Hc _ IH]; simpl; [done | by rewrite Hc]. Qed.

(** C7 (amended): the response is the first of 200, 201, 202, 204 and
    "default", in that order, whose entry is there and not null, and
    otherwise the entry of the lexicographically first code; within the
    content of a request body or of a response the media type is
    application/json, then application/ld+json, then the
    lexicographically first one. *)
Theorem response_and_media_choice :
  (forall (content : gmap string (option openAPIMediaType)) mt,
     present content "application/json" mt ->
     pickJSONMediaSchema content = Returns (Schema mt))
  /\ (forall (content : gmap string (option openAPIMediaType)) mt,
        absent content "application/json" ->
        present content "application/ld+json" mt ->
        pickJSONMediaSchema content = Returns (Schema mt))
  /\ (forall (content : gmap string (option openAPIMediaType)) k mt,
        absent content "application/json" ->
        absent content "application/ld+json" ->
        leastKey content k -> present content k mt ->
        pickJSONMediaSchema content = Returns (Schema mt))
  /\ (forall (resps : gmap string (option openAPIResponse)) pre code post r,
        successCodes ++ ["default"] = pre ++ code :: post ->
        Forall (absent resps) pre -> present resps code r ->
        pickOpenAPIResponseSchemaRefName resps = schemaRefOfResponse r)
  /\ (forall (resps : gmap string (option openAPIResponse)) k r,
        Forall (absent resps) (successCodes ++ ["default"]) ->
        leastKey resps k -> present resps k r ->
        pickOpenAPIResponseSchemaRefName resps = schemaRefOfResponse r)
  /\ (forall (r : openAPIResponse),
        schemaRefOfResponse r
        = let! s := pickJSONMediaSchema (respContent r) in
          Returns (openAPISchemaRefOrItemRef s))
  /\ (forall (rb : openAPIRequestBody),
        size (rbContent rb) <> 0%nat ->
        pickOpenAPISchemaRefName (Some rb)
        = let! s := pickJSONMediaSchema (rbContent rb) in
          Returns (openAPISchemaRefOrItemRef s)).
Proof.
  split_and!.
  - apply pickJSONMediaSchema_json.
  - apply pickJSONMediaSchema_ld_json.
  - apply pickJSONMediaSchema_first.
  - intros resps pre code post r Hcodes Hpre H.
    unfold pickOpenAPIResponseSchemaRefName.
    rewrite decide_False by (apply (size_nonempty _ code); rewrite H; eauto).
    destruct (decide (code = "default")) as [->|Hne].
    + assert (Hp : pre = successCodes).
      { unfold successCodes in *.
        repeat (destruct pre as [|? pre]; simplify_eq/=; try done). }
      rewrite Hp in Hpre. rewrite (firstResponse_none _ _ Hpre).
      by rewrite (present_at_key _ _ _ H).
    + assert (exists post', successCodes = pre ++ code :: post') as [post' Hp].
      { unfold successCodes in *.
        repeat (destruct pre as [|? pre]; simplify_eq/=; eauto). }
      by rewrite Hp, (firstResponse_first _ _ _ _ _ Hpre H).
  - intros resps k r Hall Hk H.
    unfold pickOpenAPIResponseSchemaRefName.
    rewrite decide_False by (apply (size_nonempty _ k); rewrite H; eauto).
    apply Forall_app in Hall as [Hs Hd].
    rewrite (firstResponse_none _ _ Hs).
    apply Forall_cons in Hd as [Hd _]. rewrite Hd.
    destruct (sortStrings_leastKey _ _ Hk) as [rest ->].
    by rewrite (present_at_key _ _ _ H).
  - done.
  - intros rb Hsize. simpl. by rewrite decide_False.
Qed.

(** ** Operations and the entities they attach to *)

Lemma foldOutcome_invariant {A B} (P : B -> Prop) (f : B -> A -> outcome B)
    (l : list A) (b r : B) :
  (forall b x r, P b -> f b x = Returns r -> P r) ->
  P b -> foldOutcome f l b = Returns r -> P r.
Proof.
  intros Hf. revert b. induction l as [|x l IH]; intros b Hb H; simpl in H.
  - by injection H as <-.
  - destruct (f b x) as [b1| |] eqn:E; simpl in H; try done. eauto.
Qed.

Lemma Returns_inj {A} (a b : A) : Returns a = Returns b -> a = b.
Proof. by intros [= ->]. Qed.

Lemma collectOperation_filed (p : string) opsByNorm entry r :
  filedByName opsByNorm -> collectOperation p opsByNorm entry = Returns r ->
  filedByName r.
Proof.
  intros Hinv. unfold collectOperation.
  destruct entry.2 as [op|]; [|by intros ->%Returns_inj].
  destruct (openAPIOperationInfo _ _ _) as [oi| |]; unfold andThen;
    [|intros H; discriminate H..].
  remember (normalizeEntityName (inferEntityNameForOperation oi)) as nm eqn:Hnm.
  destruct (decide (nm = "")) as [|Hne]; intros <-%Returns_inj; [exact Hinv|].
  intros norm ops oi' Hlook Hin.
  destruct (decide (nm = norm)) as [<-|Hneq].
  - rewrite lookup_insert_eq in Hlook. apply (inj Some) in Hlook. subst ops.
    apply elem_of_app in Hin as [Hin|Hin].
    + destruct (opsByNorm !! nm) as [ops0|] eqn:E; simpl in Hin.
      * by apply (Hinv _ _ _ E).
      * by apply elem_of_nil in Hin.
    + apply list_elem_of_singleton in Hin. by subst.
  - rewrite lookup_insert_ne in Hlook by done. by apply (Hinv _ _ _ Hlook).
Qed.

Lemma collectOperations_filed range spec opsByNorm :
  collectOperations range spec = Returns opsByNorm -> filedByName opsByNorm.
Proof.
  unfold collectOperations.
  apply (foldOutcome_invariant filedByName); [|by intros ???].
  intros b [p methods] r Hb. simpl.
  apply (foldOutcome_invariant filedByName); [|done].
  intros b' x r' Hb'. by apply collectOperation_filed.
Qed.

Lemma openAPISchemaToTableMetadata_no_operations spec schemaName schema meta :
  openAPISchemaToTableMetadata spec schemaName schema = Returns meta ->
  Operations meta = [].
Proof.
  unfold openAPISchemaToTableMetadata.
  destruct (collectOpenAPIObject _ _ _ _); simpl; try done.
  destruct (foldOutcome _ _ _); simpl; try done. by intros [= <-].
Qed.

(** In the result of [parseOpenAPIFile] an operation is only in the list
    of a record whose normalized name is the operation's. *)
Lemma parseOpenAPIFile_operations range spec out k meta oi :
  parseOpenAPIFile range spec = Returns out ->
  out !! k = Some meta -> oi ∈ Operations meta ->
  normalizeEntityName (inferEntityNameForOperation oi) = NormalizedName meta.
Proof.
  unfold parseOpenAPIFile.
  destruct (foldOutcome _ _ _) as [out0| |] eqn:Eout; simpl; try done.
  destruct (collectOperations range spec) as [opsByNorm| |] eqn:Eops; simpl; try done.
  intros [= <-]. rewrite lookup_fmap.
  destruct (out0 !! k) as [meta0|] eqn:Ek; simpl; [|done].
  intros [= <-].
  assert (Hnone : Operations meta0 = []).
  { revert Ek. generalize k meta0. revert Eout.
    apply (foldOutcome_invariant
             (fun m : SchemaMap => forall k t, m !! k = Some t -> Operations t = []));
      [|by intros ??; rewrite lookup_empty].
    intros m [name schema] r Hm. simpl.
    destruct (openAPISchemaToTableMetadata spec name schema) as [t| |] eqn:Et;
      simpl; try done.
    destruct (putSchema_returns m t) as (j & -> & _). intros [= <-] k' t'.
    destruct (decide (candidateKey (StructName t) j = k')) as [<-|Hne].
    - rewrite lookup_insert_eq. intros [= <-].
      by apply (openAPISchemaToTableMetadata_no_operations _ _ _ _ Et).
    - rewrite lookup_insert_ne by done. apply Hm. }
  unfold attachOperations.
  destruct (opsByNorm !! NormalizedName meta0) as [ops|] eqn:E; simpl.
  - rewrite Hnone. simpl. intros Hin.
    by apply (collectOperations_filed _ _ _ Eops _ _ _ E).
  - rewrite Hnone. by intros ?%elem_of_nil.
Qed.

(** C10: when [parseOpenAPIFile] returns, an operation whose normalized
    inferred entity name is the [NormalizedName] of no record of the
    result is in the operations of no record of the result. *)
Theorem unmatched_operation_dropped
    (range : forall A, gmap string A -> list (string * A))
    (spec : openAPISpec) (out : SchemaMap) (oi : OperationInfo) :
  parseOpenAPIFile range spec = Returns out ->
  (forall k meta, out !! k = Some meta ->
     NormalizedName meta <> normalizeEntityName (inferEntityNameForOperation oi)) ->
  forall k meta, out !! k = Some meta -> oi ∉ Operations meta.
Proof.
  intros Hparse Hno k meta Hk Hin.
  apply (Hno k meta Hk). symmetry.
  by apply (parseOpenAPIFile_operations range spec out k meta oi).
Qed.

(** C3 (amended): an operation whose request schema is [CreateUserReq]
    is given the entity name [CreateUser] (only suffixes are stripped, and
    the verb is a prefix here), and [parseOpenAPIFile] attaches it only to
    records whose [NormalizedName] is [CreateUser]. *)
Theorem createUserReq_entity (oi : OperationInfo) :
  RequestSchema oi = "CreateUserReq" ->
  normalizeEntityName (inferEntityNameForOperation oi) = "CreateUser"
  /\ forall (range : forall A, gmap string A -> list (string * A))
       (spec : openAPISpec) (out : SchemaMap) (k : string) (meta : TableMetadata),
       parseOpenAPIFile range spec = Returns out ->
       out !! k = Some meta -> oi ∈ Operations meta ->
       NormalizedName meta = "CreateUser".
Proof.
  intros Hreq.
  assert (Hnorm : normalizeEntityName (inferEntityNameForOperation oi) = "CreateUser").
  { unfold inferEntityNameForOperation. rewrite Hreq. reflexivity. }
  split; [done|]. intros range spec out k meta Hparse Hk Hin.
  rewrite <- Hnorm. symmetry.
  by apply (parseOpenAPIFile_operations range spec out k meta oi).
Qed.

(** C3, as stated, fails: [POST /users] with request schema
    [CreateUserReq] is not given the entity name [User], and the [User]
    record gets no operation, before and after consolidation. *)
Lemma post_users_not_User :
  normalizeEntityName (inferEntityNameForOperation postUsers) <> "User"
  /\ exists out,
       parseOpenAPIFile canonicalRange usersSpec = Returns out
       /\ (Operations <$> out !! "User") = Some []
       /\ (Operations <$> out !! "CreateUserReq") = Some [postUsers]
       /\ (Operations <$> Entities (consolidateByNormalizedName canonicalRange out) !! "User")
          = Some []
       /\ (Operations <$> Entities (consolidateByNormalizedName canonicalRange out)
                            !! "CreateUser")
          = Some [postUsers].
Proof.
  split; [by vm_compute|].
  assert (H :
    match parseOpenAPIFile canonicalRange usersSpec with
    | Returns out =>
        Some (Operations <$> out !! "User",
              Operations <$> out !! "CreateUserReq",
              Operations <$> Entities (consolidateByNormalizedName canonicalRange out)
                               !! "User",
              Operations <$> Entities (consolidateByNormalizedName canonicalRange out)
                               !! "CreateUser")
    | _ => None
    end = Some (Some [], Some [postUsers], Some [], Some [postUsers]))
    by (vm_compute; reflexivity).
  destruct (parseOpenAPIFile canonicalRange usersSpec) as [out| |];
    [|discriminate H..].
  exists out. apply (inj Some) in H.
  apply pair_equal_spec in H as [[[H1 H2]%pair_equal_spec H3]%pair_equal_spec H4].
  by split_and!.
Qed.

Lemma canonicalRange_iteration : iteration canonicalRange.
Proof. by intros A m. Qed.

Lemma reverseRange_iteration : iteration reverseRange.
Proof. intros A m. apply reverse_Permutation. Qed.

(** C1 fails on the code: the accumulator with the records [User] and
    [UserReq] of one entity is consolidated to different entity lists
    under two orders in which [range] may enumerate it. *)
Theorem consolidation_follows_iteration_order :
  iteration canonicalRange /\ iteration reverseRange
  /\ (StructName <$> EntityList (consolidateByNormalizedName canonicalRange userAccumulator))
     = ["UserReq"]
  /\ (StructName <$> EntityList (consolidateByNormalizedName reverseRange userAccumulator))
     = ["User"]
  /\ EntityList (consolidateByNormalizedName canonicalRange userAccumulator)
     <> EntityList (consolidateByNormalizedName reverseRange userAccumulator)
  /\ [userDo; userReq] ≡ₚ [userReq; userDo]
  /\ EntityList (consolidateEntries (canonicalRange _) [userDo; userReq])
     <> EntityList (consolidateEntries (canonicalRange _) [userReq; userDo]).
Proof.
  split_and!.
  - apply canonicalRange_iteration.
  - apply reverseRange_iteration.
  - by vm_compute.
  - by vm_compute.
  - by vm_compute.
  - apply perm_swap.
  - by vm_compute.
Qed.

(** ** No call of the extractor runs out of fuel *)

Lemma pickJSONMediaSchema_fuel content : pickJSONMediaSchema content <> OutOfFuel.
Proof.
  unfold pickJSONMediaSchema. repeat case_match; discriminate.
Qed.

Lemma schemaRefOfResponse_fuel r : schemaRefOfResponse r <> OutOfFuel.
Proof.
  unfold schemaRefOfResponse. pose proof (pickJSONMediaSchema_fuel (respContent r)).
  by destruct (pickJSONMediaSchema (respContent r)).
Qed.

Lemma openAPIOperationInfo_fuel path method op :
  openAPIOperationInfo path method op <> OutOfFuel.
Proof.
  unfold openAPIOperationInfo.
  assert (H1 : pickOpenAPISchemaRefName (RequestBody op) <> OutOfFuel).
  { unfold pickOpenAPISchemaRefName. destruct (RequestBody op) as [rb|]; [|done].
    case_decide; [done|]. pose proof (pickJSONMediaSchema_fuel (rbContent rb)).
    by destruct (pickJSONMediaSchema (rbContent rb)). }
  assert (H2 : pickOpenAPIResponseSchemaRefName (Responses op) <> OutOfFuel).
  { unfold pickOpenAPIResponseSchemaRefName.
    repeat case_match; try discriminate; apply schemaRefOfResponse_fuel. }
  destruct (pickOpenAPISchemaRefName _); [|done..].
  by destruct (pickOpenAPIResponseSchemaRefName _).
Qed.

Lemma collectOperation_fuel p opsByNorm entry :
  collectOperation p opsByNorm entry <> OutOfFuel.
Proof.
  unfold collectOperation. destruct entry.2 as [op|]; [|done].
  pose proof (openAPIOperationInfo_fuel p (strings.ToUpper entry.1) op).
  destruct (openAPIOperationInfo _ _ _); unfold andThen; [|done..].
  by case_decide.
Qed.

Lemma parseOpenAPIFile_fuel range spec : parseOpenAPIFile range spec <> OutOfFuel.
Proof.
  unfold parseOpenAPIFile.
  match goal with |- context [foldOutcome ?f ?l ?b] =>
    pose proof (foldOutcome_fuel f l b) as Hfold;
    destruct (foldOutcome f l b) end; unfold andThen at 1.
  - assert (Hops : collectOperations range spec <> OutOfFuel).
    { unfold collectOperations. apply foldOutcome_fuel. intros b x.
      apply foldOutcome_fuel. intros b' x'. apply collectOperation_fuel. }
    by destruct (collectOperations range spec).
  - done.
  - intros _. apply Hfold; [|done]. intros m [name schema]. cbn [fst snd].
    pose proof (openAPISchemaToTableMetadata_fuel spec name schema).
    destruct (openAPISchemaToTableMetadata spec name schema) as [t| |];
      unfold andThen; [|done..].
    by destruct (putSchema_returns m t) as (j & -> & _).
Qed.

(** ** Instances *)

Lemma halContent_least : leastKey halContent "application/hal+json".
Proof.
  split; [by eexists|]. intros k' [v Hv]. unfold halContent in Hv.
  destruct (decide (k' = "application/hal+json")) as [->|Hne]; [done|].
  rewrite lookup_insert_ne in Hv by done.
  apply lookup_singleton_Some in Hv as [<- _]. by vm_compute.
Qed.

(** C7, as stated, fails: application/ld+json is taken before the
    lexicographically first media type. *)
Lemma media_type_ld_json_before_first :
  ~ (forall (content : gmap string (option openAPIMediaType)) k mt,
       absent content "application/json" -> leastKey content k ->
       present content k mt ->
       pickJSONMediaSchema content = Returns (Schema mt)).
Proof.
  intros H.
  specialize (H halContent "application/hal+json" (mediaOf "Hal")
                eq_refl halContent_least eq_refl).
  vm_compute in H. discriminate H.
Qed.

Lemma response_and_media_choice_witness :
  pickJSONMediaSchema halContent = Returns (Some (refTo "Ld"))
  /\ pickOpenAPIResponseSchemaRefName errorResponses = Returns "Ld".
Proof.
  destruct response_and_media_choice as (_ & Hld & _ & _ & Hfirst & _).
  split.
  - apply (Hld halContent (mediaOf "Ld")); reflexivity.
  - rewrite (Hfirst errorResponses "404" notFound).
    + by vm_compute.
    + unfold successCodes. simpl. by repeat constructor.
    + split; [by eexists|]. intros k' [v Hv]. unfold errorResponses in Hv.
      destruct (decide (k' = "404")) as [->|Hne]; [done|].
      rewrite lookup_insert_ne in Hv by done.
      apply lookup_singleton_Some in Hv as [<- _]. by vm_compute.
    + reflexivity.
Defined.

Lemma mergeConstraints_narrows_witness :
  let a := lengthBounds 3 10 (S754_zero false) five in
  let b := lengthBounds 5 7 one two in
  mergeConstraints (Some a) (Some b) ≫= MinLength = Some 5%Z
  /\ mergeConstraints (Some a) (Some b) ≫= MaxLength = Some 7%Z
  /\ mergeConstraints (Some b) (Some a) ≫= MinLength = Some 5%Z
  /\ mergeConstraints (Some b) (Some a) ≫= MaxLength = Some 7%Z.
Proof.
  intros a b.
  destruct (mergeConstraints_narrows a b) as (H1 & H2 & _ & _ & H5 & H6 & _).
  - split; discriminate.
  - split; discriminate.
  - rewrite <- H5, <- H6, H1, H2. by repeat split.
Defined.

Lemma unmatched_operation_dropped_witness :
  exists out,
    parseOpenAPIFile canonicalRange usersSpec = Returns out
    /\ normalizeEntityName (inferEntityNameForOperation getOrphans) = "Orphan"
    /\ forall k meta, out !! k = Some meta -> getOrphans ∉ Operations meta.
Proof.
  assert (Hall :
    match parseOpenAPIFile canonicalRange usersSpec with
    | Returns out =>
        bool_decide (map_Forall (fun (_ : string) (meta : TableMetadata) =>
          NormalizedName meta
          <> normalizeEntityName (inferEntityNameForOperation getOrphans)) out)
    | _ => false
    end = true) by (vm_compute; reflexivity).
  destruct (parseOpenAPIFile canonicalRange usersSpec) as [out| |] eqn:E;
    [|discriminate Hall..].
  exists out. split_and!; [done | by vm_compute |].
  apply (unmatched_operation_dropped canonicalRange usersSpec out getOrphans E).
  by apply bool_decide_eq_true_1 in Hall.
Defined.

Lemma createUserReq_entity_witness :
  RequestSchema postUsers = "CreateUserReq"
  /\ normalizeEntityName (inferEntityNameForOperation postUsers) = "CreateUser".
Proof.
  split; [reflexivity|].
  destruct (createUserReq_entity postUsers eq_refl) as [Hnorm _]. exact Hnorm.
Defined.

(* ================================================================== *)
(** * Further properties *)
(* ================================================================== *)

(** ** More on strings *)

Lemma append_assoc (s t u : string) : (s +:+ t) +:+ u = s +:+ (t +:+ u).
Proof. induction s as [|a s IH]; [done|]. by rewrite !append_cons, IH. Qed.

Lemma TrimPrefix_part (s pre : string) :
  exists p, s = p +:+ strings.TrimPrefix s pre.
Proof.
  unfold strings.TrimPrefix. destruct (strings.HasPrefix s pre) eqn:E.
  - exists pre. by apply HasPrefix_inv.
  - by exists "".
Qed.

Lemma TrimSuffix_part (s suf : string) :
  exists q, s = strings.TrimSuffix s suf +:+ q.
Proof.
  unfold strings.TrimSuffix. destruct (strings.HasSuffix s suf).
  - eexists. symmetry. apply upto_from.
  - exists "". by rewrite append_empty_r.
Qed.

Lemma part_refl s : part s s.
Proof. exists "", "". by rewrite append_empty_r. Qed.

Lemma part_trans s t u : part s t -> part t u -> part s u.
Proof.
  intros (p & q & ->) (p' & q' & ->). exists (p +:+ p'), (q' +:+ q).
  by rewrite !append_assoc.
Qed.

Lemma part_length s t : part s t -> (String.length t <= String.length s)%nat.
Proof. intros (p & q & ->). rewrite !length_append. lia. Qed.

Lemma TrimPrefix_is_part (s pre : string) : part s (strings.TrimPrefix s pre).
Proof.
  destruct (TrimPrefix_part s pre) as [p Hp]. exists p, "".
  rewrite append_empty_r. exact Hp.
Qed.

Lemma TrimSuffix_is_part (s suf : string) : part s (strings.TrimSuffix s suf).
Proof.
  destruct (TrimSuffix_part s suf) as [q Hq]. exists "", q.
  rewrite append_nil. exact Hq.
Qed.

Lemma fold_TrimPrefix_part (pres : list string) (s : string) :
  part s (fold_left strings.TrimPrefix pres s).
Proof.
  revert s. induction pres as [|pre pres IH]; intros s; [apply part_refl|].
  change (part s (fold_left strings.TrimPrefix pres (strings.TrimPrefix s pre))).
  eapply part_trans; [apply TrimPrefix_is_part | apply IH].
Qed.

Lemma fold_TrimSuffix_part (sufs : list string) (s : string) :
  part s (fold_left strings.TrimSuffix sufs s).
Proof.
  revert s. induction sufs as [|suf sufs IH]; intros s; [apply part_refl|].
  change (part s (fold_left strings.TrimSuffix sufs (strings.TrimSuffix s suf))).
  eapply part_trans; [apply TrimSuffix_is_part | apply IH].
Qed.

Lemma stripAffixes_part (name : string) : part name (stripAffixes name).
Proof.
  unfold stripAffixes.
  eapply part_trans; [apply fold_TrimPrefix_part|].
  eapply part_trans; [apply fold_TrimSuffix_part|].
  apply TrimSuffix_is_part.
Qed.

(** X1: normalizeEntityName returns a contiguous part of its argument,
    never longer than the argument, and it returns the empty string only
    for the empty argument. *)
Theorem normalizeEntityName_part (name : string) :
  part name (normalizeEntityName name)
  /\ (String.length (normalizeEntityName name) <= String.length name)%nat
  /\ (normalizeEntityName name = "" <-> name = "").
Proof.
  assert (H : part name (normalizeEntityName name)).
  { unfold normalizeEntityName. case_decide; [apply part_refl | apply stripAffixes_part]. }
  split_and!; [done | by apply part_length |].
  unfold normalizeEntityName. case_decide as E; [done|]. split; [done|].
  intros ->. by destruct E.
Qed.

Lemma TrimSuffix_no_suffix s suf :
  strings.HasSuffix s suf = false -> strings.TrimSuffix s suf = s.
Proof. unfold strings.TrimSuffix. by intros ->. Qed.

Lemma length_from n s : String.length (strings.from n s) = (String.length s - n)%nat.
Proof. revert s; induction n as [|n IH]; intros [|a s]; simpl; auto. Qed.

Lemma HasSuffix_inv s suf :
  strings.HasSuffix s suf = true ->
  s = strings.upto (String.length s - String.length suf) s +:+ suf.
Proof.
  unfold strings.HasSuffix. intros [_ H]%andb_true_iff.
  apply String.eqb_eq in H.
  transitivity (strings.upto (String.length s - String.length suf) s
                +:+ strings.from (String.length s - String.length suf) s).
  - symmetry. apply upto_from.
  - by rewrite H.
Qed.

Lemma normalizeEntityName_stripped (name : string) :
  normalizeEntityName name
  = if decide (strings.TrimSuffix (strippedName name) "s" = "")
    then name else strings.TrimSuffix (strippedName name) "s".
Proof. unfold normalizeEntityName, stripAffixes, strippedName. reflexivity. Qed.

Lemma generator_normalizeEntityName_stripped (name : string) :
  generator.normalizeEntityName name
  = if decide (strippedName name = "") then name else strippedName name.
Proof. unfold generator.normalizeEntityName, strippedName. reflexivity. Qed.

(** X2: The parser's and the generator's normalizeEntityName agree on
    every name whose stripped form does not end in s. When it ends in s
    and is not just s, the generator keeps the s that the parser removes,
    so the two give different entity names. *)
Theorem normalizers_differ_on_plurals (name : string) :
  (strings.HasSuffix (strippedName name) "s" = false ->
   normalizeEntityName name = generator.normalizeEntityName name)
  /\ (strings.HasSuffix (strippedName name) "s" = true ->
      strippedName name <> "s" ->
      generator.normalizeEntityName name = normalizeEntityName name +:+ "s"
      /\ generator.normalizeEntityName name <> normalizeEntityName name).
Proof.
  rewrite normalizeEntityName_stripped, generator_normalizeEntityName_stripped.
  generalize (strippedName name). intros c. split.
  - intros H. by rewrite (TrimSuffix_no_suffix _ _ H).
  - intros H Hne. pose proof (HasSuffix_inv _ _ H) as Hc.
    unfold strings.TrimSuffix. rewrite H.
    change (String.length "s") with 1%nat in *.
    set (c' := strings.upto (String.length c - 1) c) in *.
    assert (c <> "") by (by intros ->).
    assert (c' <> "").
    { intros E. rewrite E in Hc. by destruct Hne. }
    rewrite !decide_False by done. split; [done|].
    intros E. rewrite E in Hc at 1.
    apply (f_equal String.length) in Hc. rewrite length_append in Hc.
    change (String.length "s") with 1%nat in Hc. lia.
Qed.

Lemma occurs_append (c : ascii) (s t : string) :
  occurs c (s +:+ t) <-> occurs c s \/ occurs c t.
Proof.
  induction s as [|a s IH]; [rewrite append_nil; simpl; tauto|].
  rewrite append_cons. simpl. rewrite IH. tauto.
Qed.

Lemma occurs_ReplaceAll_empty (c old : ascii) (s : string) :
  occurs c (strings.ReplaceAll s old "") -> c <> old /\ occurs c s.
Proof.
  induction s as [|a s IH]; simpl; [done|].
  destruct (Ascii.eqb a old) eqn:E.
  - rewrite append_nil. intros [??]%IH. tauto.
  - simpl. intros [->|[??]%IH]; [|tauto].
    split; [|by left]. intros ->. by rewrite Ascii.eqb_refl in E.
Qed.

(** ** White space and ASCII text *)

Lemma whiteSpace_length (w : string) :
  In w strings.whiteSpace -> (1 <= String.length w)%nat.
Proof.
  assert (Hall : forallb (fun w => (1 <=? String.length w)%nat) strings.whiteSpace = true)
    by reflexivity.
  rewrite forallb_forall in Hall. intros H. apply Nat.leb_le. by apply Hall.
Qed.

Lemma no_space_in_empty :
  find (strings.HasPrefix "") strings.whiteSpace = None
  /\ find (strings.HasSuffix "") strings.whiteSpace = None.
Proof. split; reflexivity. Qed.

(** The bound on the number of runes is never reached: every bound from
    the length of the text on gives the same result. *)
Lemma trimLeftSpace_fuel (n m : nat) (s : string) :
  (String.length s <= n)%nat -> (String.length s <= m)%nat ->
  strings.trimLeftSpace n s = strings.trimLeftSpace m s.
Proof.
  revert m s. induction n as [|n IH]; intros m s Hn Hm.
  - destruct s; [|simpl in Hn; lia].
    destruct m; [done|]. cbn [strings.trimLeftSpace].
    by rewrite (proj1 no_space_in_empty).
  - destruct m as [|m].
    + destruct s; [|simpl in Hm; lia]. cbn [strings.trimLeftSpace].
      by rewrite (proj1 no_space_in_empty).
    + cbn [strings.trimLeftSpace].
      destruct (find (strings.HasPrefix s) strings.whiteSpace) as [w|] eqn:E; [|done].
      apply find_some in E as [Hin _]. apply whiteSpace_length in Hin.
      apply IH; rewrite length_from; lia.
Qed.

Lemma trimRightSpace_fuel (n m : nat) (s : string) :
  (String.length s <= n)%nat -> (String.length s <= m)%nat ->
  strings.trimRightSpace n s = strings.trimRightSpace m s.
Proof.
  revert m s. induction n as [|n IH]; intros m s Hn Hm.
  - destruct s; [|simpl in Hn; lia].
    destruct m; [done|]. cbn [strings.trimRightSpace].
    by rewrite (proj2 no_space_in_empty).
  - destruct m as [|m].
    + destruct s; [|simpl in Hm; lia]. cbn [strings.trimRightSpace].
      by rewrite (proj2 no_space_in_empty).
    + cbn [strings.trimRightSpace].
      destruct (find (strings.HasSuffix s) strings.whiteSpace) as [w|] eqn:E; [|done].
      apply find_some in E as [Hin _]. apply whiteSpace_length in Hin.
      apply IH; rewrite length_upto; lia.
Qed.

(** What is left begins, and ends, with no white space. *)
Lemma trimLeftSpace_stops (n : nat) (s : string) :
  (String.length s <= n)%nat ->
  find (strings.HasPrefix (strings.trimLeftSpace n s)) strings.whiteSpace = None.
Proof.
  revert s. induction n as [|n IH]; intros s Hn.
  - destruct s; [|simpl in Hn; lia]. apply no_space_in_empty.
  - cbn [strings.trimLeftSpace].
    destruct (find (strings.HasPrefix s) strings.whiteSpace) as [w|] eqn:E; [|done].
    apply find_some in E as [Hin _]. apply whiteSpace_length in Hin.
    apply IH. rewrite length_from. lia.
Qed.

Lemma trimRightSpace_stops (n : nat) (s : string) :
  (String.length s <= n)%nat ->
  find (strings.HasSuffix (strings.trimRightSpace n s)) strings.whiteSpace = None.
Proof.
  revert s. induction n as [|n IH]; intros s Hn.
  - destruct s; [|simpl in Hn; lia]. apply no_space_in_empty.
  - cbn [strings.trimRightSpace].
    destruct (find (strings.HasSuffix s) strings.whiteSpace) as [w|] eqn:E; [|done].
    apply find_some in E as [Hin _]. apply whiteSpace_length in Hin.
    apply IH. rewrite length_upto; lia.
Qed.

Lemma from_from (j k : nat) (s : string) :
  strings.from j (strings.from k s) = strings.from (k + j) s.
Proof.
  revert s. induction k as [|k IH]; intros s; [done|].
  destruct s as [|a s]; simpl; [by destruct j | apply IH].
Qed.

Lemma upto_upto (j k : nat) (s : string) :
  strings.upto j (strings.upto k s) = strings.upto (j `min` k) s.
Proof.
  revert k s. induction j as [|j IH]; intros k s; [done|].
  destruct k as [|k]; [done|]. destruct s as [|a s]; [done|].
  simpl. by rewrite IH.
Qed.

Lemma trimLeftSpace_from (n : nat) (s : string) :
  exists k, strings.trimLeftSpace n s = strings.from k s.
Proof.
  revert s. induction n as [|n IH]; intros s; [by exists 0%nat|].
  cbn [strings.trimLeftSpace].
  destruct (find (strings.HasPrefix s) strings.whiteSpace) as [w|]; [|by exists 0%nat].
  destruct (IH (strings.from (String.length w) s)) as [k ->].
  rewrite from_from. eauto.
Qed.

Lemma trimRightSpace_upto (n : nat) (s : string) :
  exists k, strings.trimRightSpace n s = strings.upto k s.
Proof.
  revert s. induction n as [|n IH]; intros s.
  - exists (String.length s). symmetry.
    rewrite <- (append_empty_r s) at 2. apply upto_append.
  - cbn [strings.trimRightSpace].
    destruct (find (strings.HasSuffix s) strings.whiteSpace) as [w|].
    + destruct (IH (strings.upto (String.length s - String.length w) s)) as [k ->].
      rewrite upto_upto. eauto.
    + exists (String.length s). symmetry.
      rewrite <- (append_empty_r s) at 2. apply upto_append.
Qed.

Lemma HasPrefix_upto (k : nat) (s w : string) :
  strings.HasPrefix (strings.upto k s) w = true -> strings.HasPrefix s w = true.
Proof.
  intros H. apply HasPrefix_inv in H.
  rewrite <- (upto_from k s), H, append_assoc. apply HasPrefix_append.
Qed.

(** [TrimSpace] leaves a text that begins and ends with no white space. *)
Lemma TrimSpace_ends (s : string) :
  find (strings.HasPrefix (strings.TrimSpace s)) strings.whiteSpace = None
  /\ find (strings.HasSuffix (strings.TrimSpace s)) strings.whiteSpace = None.
Proof.
  unfold strings.TrimSpace. cbv zeta.
  pose proof (trimLeftSpace_stops (String.length s) s (le_n _)) as Hleft.
  remember (strings.trimLeftSpace (String.length s) s) as t eqn:Ht. clear Ht.
  split; [|by apply trimRightSpace_stops].
  destruct (trimRightSpace_upto (String.length t) t) as [k ->].
  destruct (find (strings.HasPrefix (strings.upto k t)) strings.whiteSpace) as [w|] eqn:E;
    [|done].
  apply find_some in E as [Hin Hw]. apply HasPrefix_upto in Hw.
  by rewrite (find_none _ _ Hleft w Hin) in Hw.
Qed.

Lemma occurs_from (a : ascii) (k : nat) (s : string) :
  occurs a (strings.from k s) -> occurs a s.
Proof.
  revert s. induction k as [|k IH]; intros s; [done|].
  destruct s as [|b s]; simpl; [done|]. intros H. right. by apply IH.
Qed.

Lemma occurs_upto (a : ascii) (k : nat) (s : string) :
  occurs a (strings.upto k s) -> occurs a s.
Proof.
  revert s. induction k as [|k IH]; intros s; [done|].
  destruct s as [|b s]; simpl; [done|]. intros [H|H]; [by left | right; by apply IH].
Qed.

(** [TrimSpace] only removes bytes. *)
Lemma occurs_TrimSpace (a : ascii) (s : string) :
  occurs a (strings.TrimSpace s) -> occurs a s.
Proof.
  unfold strings.TrimSpace. cbv zeta.
  destruct (trimLeftSpace_from (String.length s) s) as [k ->].
  destruct (trimRightSpace_upto (String.length (strings.from k s)) (strings.from k s))
    as [j ->].
  intros H. by apply occurs_upto, occurs_from in H.
Qed.

Lemma isASCII_occurs (s : string) :
  strings.isASCII s = true <-> forall a, occurs a s -> (nat_of_ascii a < 128)%nat.
Proof.
  induction s as [|b s IH]; simpl; [done|].
  rewrite andb_true_iff, IH, Nat.ltb_lt. split.
  - intros [Hb Hs] a [<-|Ha]; [done | by apply Hs].
  - intros H. split; [apply H; by left | intros a Ha; apply H; by right].
Qed.

Lemma isASCII_append (s t : string) :
  strings.isASCII (s +:+ t) = strings.isASCII s && strings.isASCII t.
Proof.
  induction s as [|a s IH]; [done|].
  rewrite append_cons. simpl. by rewrite IH, andb_assoc.
Qed.

Lemma isASCII_upto (k : nat) (s : string) :
  strings.isASCII s = true -> strings.isASCII (strings.upto k s) = true.
Proof.
  rewrite !isASCII_occurs. intros H a Ha. by apply H, (occurs_upto a k).
Qed.

Lemma lowerByte_ASCII (a : ascii) :
  (nat_of_ascii a < 128)%nat -> (nat_of_ascii (strings.lowerByte a) < 128)%nat.
Proof.
  destruct a as [b0 b1 b2 b3 b4 b5 b6 []].
  - destruct b0, b1, b2, b3, b4, b5, b6; vm_compute; lia.
  - intros _. destruct b0, b1, b2, b3, b4, b5, b6; vm_compute; lia.
Qed.

Lemma occurs_ToLower_inv (a : ascii) (s : string) :
  occurs a (strings.ToLower s) -> exists b, occurs b s /\ a = strings.lowerByte b.
Proof.
  induction s as [|c s IH]; simpl; [done|].
  intros [<-|H]; [exists c; by split; [left|] |].
  destruct (IH H) as (b & Hb & ->). exists b. split; [by right | done].
Qed.

Lemma lowerByte_not_upper (a : ascii) : isUpperASCII (strings.lowerByte a) = false.
Proof. by destruct a as [[] [] [] [] [] [] [] []]. Qed.

Lemma occurs_ToLower (c : ascii) (s : string) :
  occurs c (strings.ToLower s) -> isUpperASCII c = false.
Proof.
  induction s as [|a s IH]; simpl; [done|].
  intros [<-|H]; [apply lowerByte_not_upper | by apply IH].
Qed.

(** X30: The identity key of a column whose names are ASCII text
    consists of ASCII bytes and holds no underscore, no hyphen and no
    upper-case letter. *)
Theorem columnKey_normal_form (c : ColumnInfo) (a : ascii) :
  strings.isASCII (JSONName c) = true -> strings.isASCII (Name c) = true ->
  occurs a (columnKey c) ->
  a <> "_"%char /\ a <> "-"%char /\ isUpperASCII a = false
  /\ (nat_of_ascii a < 128)%nat.
Proof.
  intros Hjson Hname. unfold columnKey.
  intros [H1 [H2 H3]%occurs_ReplaceAll_empty]%occurs_ReplaceAll_empty.
  split_and!; [done | done | by apply occurs_ToLower in H3 |].
  apply occurs_ToLower_inv in H3 as (b & Hb%occurs_TrimSpace & ->).
  apply lowerByte_ASCII.
  assert (Hascii : strings.isASCII
                     (if decide (JSONName c = "") then Name c else JSONName c) = true)
    by (by destruct (decide (JSONName c = ""))).
  exact (proj1 (isASCII_occurs _) Hascii b Hb).
Qed.

Lemma Cut_Some_inv (s : string) (c : ascii) (l r : string) :
  strings.Cut s c = Some (l, r) -> s = l +:+ String c r /\ ~ occurs c l.
Proof.
  revert l. induction s as [|a s IH]; intros l; simpl; [done|].
  destruct (Ascii.eqb a c) eqn:E.
  - apply Ascii.eqb_eq in E as ->. intros [= <- <-]. rewrite append_nil.
    split; [done | simpl; tauto].
  - destruct (strings.Cut s c) as [[b r']|]; [|done]. intros [= <- <-].
    destruct (IH b eq_refl) as [-> Hb]. rewrite append_cons. split; [done|].
    simpl. intros [->|?]; [|done]. by rewrite Ascii.eqb_refl in E.
Qed.

Lemma Cut_None_inv (s : string) (c : ascii) :
  strings.Cut s c = None -> ~ occurs c s.
Proof.
  induction s as [|a s IH]; simpl; [tauto|].
  destruct (Ascii.eqb a c) eqn:E; [done|].
  destruct (strings.Cut s c) as [[b r']|]; [done|]. intros _ [->|H].
  - by rewrite Ascii.eqb_refl in E.
  - by apply IH.
Qed.

(** X8: parseJSONTag returns the text before the first comma, returns a
    tag without comma other than - whole, and never returns a text that
    holds a comma. *)
Theorem parseJSONTag_name (name opts : string) :
  ~ occurs ","%char name ->
  parseJSONTag (name +:+ "," +:+ opts) = name
  /\ (name <> "-" -> parseJSONTag name = name)
  /\ forall tag, ~ occurs ","%char (parseJSONTag tag).
Proof.
  intros Hname. split_and!.
  - unfold parseJSONTag.
    rewrite (Cut_Some (name +:+ "," +:+ opts) "," name opts eq_refl Hname).
    destruct name as [|a name]; [done|].
    rewrite decide_False by done. case_decide as E; [|done].
    exfalso. rewrite append_cons in E. injection E as -> E.
    destruct name; [rewrite append_nil in E|rewrite append_cons in E]; done.
  - intros Hne. unfold parseJSONTag. repeat case_decide; try done.
    by rewrite (Cut_None _ _ Hname).
  - intros tag. unfold parseJSONTag. repeat case_decide; simpl; try tauto.
    destruct (strings.Cut tag ",") as [[b r]|] eqn:E.
    + by apply Cut_Some_inv in E as [_ ?].
    + by apply Cut_None_inv.
Qed.

Lemma ToLower_append (s t : string) :
  strings.ToLower (s +:+ t) = strings.ToLower s +:+ strings.ToLower t.
Proof.
  induction s as [|a s IH]; [done|].
  rewrite append_cons. simpl. rewrite append_cons. f_equal. exact IH.
Qed.

Lemma HasSuffix_append (s suf : string) : strings.HasSuffix (s +:+ suf) suf = true.
Proof.
  unfold strings.HasSuffix. rewrite length_append.
  replace (String.length s + String.length suf - String.length suf)%nat
    with (String.length s) by lia.
  rewrite from_append, String.eqb_refl, andb_true_r. apply Nat.leb_le. lia.
Qed.

Lemma HasSuffix_trans (s t u : string) :
  strings.HasSuffix s t = true -> strings.HasSuffix t u = true ->
  strings.HasSuffix s u = true.
Proof.
  intros H1%HasSuffix_inv H2%HasSuffix_inv. rewrite H1, H2.
  rewrite <- append_assoc. apply HasSuffix_append.
Qed.

Lemma HasSuffix_append_r (s t u : string) :
  strings.HasSuffix t u = true -> strings.HasSuffix (s +:+ t) u = true.
Proof. intros H. eapply HasSuffix_trans; [apply HasSuffix_append | exact H]. Qed.

Lemma toPlural_unfold (s : string) :
  s <> "" ->
  generator.toPlural s = s
  /\ strings.HasSuffix (strings.ToLower s) "s" = true
  \/ generator.toPlural s = s +:+ "es"
  \/ generator.toPlural s = s +:+ "s"
  \/ generator.toPlural s = strings.upto (String.length s - 1) s +:+ "ies".
Proof.
  intros Hs. unfold generator.toPlural. rewrite decide_False by done.
  destruct (existsb _ _) eqn:E.
  - left. split; [done|]. apply existsb_exists in E as (suf & Hin & Hsuf).
    eapply HasSuffix_trans; [exact Hsuf|].
    unfold generator.pluralSuffixes in Hin. simpl in Hin.
    destruct Hin as [<-|[<-|[<-|[<-|[<-|[<-|[]]]]]]]; reflexivity.
  - right. destruct (_ || _); [by left|].
    destruct (_ && _); [|by right; left].
    destruct (generator.byteAt _ _) as [b|]; [|by right; left].
    destruct (negb _); [by right; right | by right; left].
Qed.

(** X3: For a non-empty word of ASCII text toPlural returns a non-empty
    word of ASCII text that ends in s or S and that keeps the word up to
    its last byte. *)
Theorem toPlural_ends_in_s (s : string) :
  s <> "" -> strings.isASCII s = true ->
  strings.HasSuffix (strings.ToLower (generator.toPlural s)) "s" = true
  /\ generator.toPlural s <> ""
  /\ (exists t, generator.toPlural s = strings.upto (String.length s - 1) s +:+ t)
  /\ strings.isASCII (generator.toPlural s) = true.
Proof.
  intros Hs Hascii.
  assert (Hsplit : s = strings.upto (String.length s - 1) s
                       +:+ strings.from (String.length s - 1) s)
    by (symmetry; apply upto_from).
  destruct (toPlural_unfold s Hs) as [[E H]|[E|[E|E]]]; rewrite E.
  - split_and!; [done | done | eauto | done].
  - rewrite ToLower_append. split_and!.
    + by apply HasSuffix_append_r.
    + by destruct s.
    + eexists. rewrite Hsplit at 1. apply append_assoc.
    + by rewrite isASCII_append, Hascii.
  - rewrite ToLower_append. split_and!.
    + by apply HasSuffix_append_r.
    + by destruct s.
    + eexists. rewrite Hsplit at 1. apply append_assoc.
    + by rewrite isASCII_append, Hascii.
  - rewrite ToLower_append. split_and!.
    + by apply HasSuffix_append_r.
    + by destruct (strings.upto _ _).
    + eauto.
    + by rewrite isASCII_append, isASCII_upto.
Qed.

(** ** The accumulator over many records *)

Lemma putAll_returns (metas : list TableMetadata) (schema : SchemaMap) :
  exists schema',
    putAll schema metas = Returns schema'
    /\ schema ⊆ schema'
    /\ (map_to_list schema').*2 ≡ₚ (map_to_list schema).*2 ++ metas.
Proof.
  unfold putAll. revert schema.
  induction metas as [|t metas IH]; intros schema; simpl.
  - exists schema. split_and!; [done | done | by rewrite app_nil_r].
  - destruct (putSchema_returns schema t) as (j & -> & Hfree & _). simpl.
    destruct (IH (<[candidateKey (StructName t) j := t]> schema))
      as (schema' & -> & Hsub & Hperm).
    exists schema'. split_and!; [done | |].
    + etrans; [|exact Hsub]. by apply insert_subseteq.
    + rewrite Hperm, map_to_list_insert by done. simpl.
      by rewrite <- Permutation_middle.
Qed.

(** X5: Putting a list of records into the shared map with putSchema, as
    main does with the records of the OpenAPI document, always returns,
    keeps every earlier entry under its key, and adds exactly one entry
    for each record. *)
Theorem putAll_keeps_every_record (schema : SchemaMap) (metas : list TableMetadata) :
  exists schema',
    putAll schema metas = Returns schema'
    /\ schema ⊆ schema'
    /\ (map_to_list schema').*2 ≡ₚ (map_to_list schema).*2 ++ metas
    /\ size schema' = (size schema + length metas)%nat.
Proof.
  destruct (putAll_returns metas schema) as (schema' & Hput & Hsub & Hperm).
  exists schema'. split_and!; [done..|].
  apply Permutation_length in Hperm.
  rewrite length_app, !length_fmap, !length_map_to_list in Hperm. done.
Qed.

(** ** Struct types, fields and files *)

Lemma addField_fold (fileSource : string) (fields : list Field) (t0 : TableMetadata) :
  let t := fold_left (addField fileSource) fields t0 in
  Relations t = Relations t0 ++ (Some <$> omap fieldRelation fields)
  /\ Name <$> Columns t = (Name <$> Columns t0) ++ omap columnName fields
  /\ (Forall (fun c => cSource c = fileSource /\ Constraints c = None /\ Ref c = "")
        (Columns t0) ->
      Forall (fun c => cSource c = fileSource /\ Constraints c = None /\ Ref c = "")
        (Columns t))
  /\ StructName t = StructName t0 /\ NormalizedName t = NormalizedName t0
  /\ Source t = Source t0 /\ Operations t = Operations t0.
Proof.
  revert t0. induction fields as [|f fields IH]; intros t0; simpl.
  - rewrite !app_nil_r. by split_and!.
  - destruct (IH (addField fileSource t0 f)) as (H1 & H2 & H3 & H4 & H5 & H6 & H7).
    rewrite H1, H2, H4, H5, H6, H7. clear H1 H2 H4 H5 H6 H7.
    unfold addField in *. unfold columnName.
    destruct (fieldRelation f) as [rel|]; simpl.
    + rewrite <- app_assoc. split_and!; try done.
    + destruct (fieldNames f) as [|n names]; simpl; [by split_and!|].
      destruct (resolveTypeInfo (fieldType f)) as [typeName isCollection]. simpl in *.
      rewrite fmap_app, <- app_assoc. split_and!; try done.
      intros H0. apply H3. apply Forall_app. split; [done|]. by repeat constructor.
Qed.

(** X7: In the record that parseFile builds for a struct type, every field
    gives a relation when its orm tag has a with: segment that
    parseWithTag accepts, and otherwise a column when it has a name, both
    in field order. The columns carry the source label of the file, no
    constraints and no reference. *)
Theorem structTable_fields (fileSource name : string) (fields : list Field) :
  let t := structTable fileSource name fields in
  Relations t = Some <$> omap fieldRelation fields
  /\ Name <$> Columns t = omap columnName fields
  /\ (length (Columns t) + length (Relations t) <= length fields)%nat
  /\ Forall (fun c => cSource c = fileSource /\ Constraints c = None /\ Ref c = "")
       (Columns t)
  /\ StructName t = name /\ NormalizedName t = normalizeEntityName name
  /\ Source t = fileSource /\ Operations t = [].
Proof.
  unfold structTable. generalize (normalizeEntityName name). intros norm.
  destruct (addField_fold fileSource fields
              {| StructName := name; NormalizedName := norm;
                 Source := fileSource; Columns := []; Relations := [];
                 Operations := [] |}) as (H1 & H2 & H3 & H4 & H5 & H6 & H7).
  simpl in *. split_and!; try done; [|by apply H3].
  rewrite <- (length_fmap Name), H1, H2, length_fmap.
  clear. unfold omap. induction fields as [|f fields IH]; simpl; [done|].
  unfold columnName at 1. destruct (fieldRelation f) as [rel|]; simpl; [lia|].
  destruct (head (fieldNames f)) as [n|]; simpl; lia.
Qed.

Lemma addStruct_returns fileSource (schema : SchemaMap) (decl : string * list Field) :
  exists schema',
    addStruct fileSource schema decl = Returns schema'
    /\ schema ⊆ schema'
    /\ (map_to_list schema').*2
       ≡ₚ (map_to_list schema).*2
           ++ filter (fun t => hasFields t = true) [structTable fileSource decl.1 decl.2].
Proof.
  unfold addStruct. rewrite filter_cons, filter_nil.
  destruct (hasFields _) eqn:E.
  - rewrite decide_True by done.
    destruct (putAll_returns [structTable fileSource decl.1 decl.2] schema)
      as (schema' & Hput & Hsub & Hperm).
    unfold putAll in Hput. simpl in Hput.
    destruct (putSchema schema _) as [m| |]; simpl in Hput; try done.
    apply Returns_inj in Hput as ->. eauto.
  - rewrite decide_False by done. exists schema. by rewrite app_nil_r.
Qed.

(** X6: parseFile keeps every entry of the accumulator and adds one entry
    for each struct type of the file that has at least one column or
    relation. A file that does not parse leaves the accumulator as it is. *)
Theorem parseFile_adds_tables (Separator : ascii) (path : string)
    (decls : option (list (string * list Field))) (schema : SchemaMap) :
  exists schema',
    parseFile Separator path decls schema = Returns schema'
    /\ schema ⊆ schema'
    /\ (map_to_list schema').*2
       ≡ₚ (map_to_list schema).*2
           ++ filter (fun t => hasFields t = true)
                ((fun decl : string * list Field =>
                    structTable (sourceFromPath Separator path) decl.1 decl.2)
                 <$> default [] decls)
    /\ (decls = None -> schema' = schema).
Proof.
  unfold parseFile. destruct decls as [decls|]; simpl.
  2: { exists schema. by rewrite app_nil_r. }
  set (src := sourceFromPath Separator path).
  assert (H : exists schema',
    foldOutcome (addStruct src) decls schema = Returns schema'
    /\ schema ⊆ schema'
    /\ (map_to_list schema').*2
       ≡ₚ (map_to_list schema).*2
           ++ filter (fun t => hasFields t = true)
                ((fun decl : string * list Field => structTable src decl.1 decl.2)
                 <$> decls)).
  { revert schema. induction decls as [|decl decls IH]; intros schema; simpl.
    - exists schema. by rewrite app_nil_r.
    - destruct (addStruct_returns src schema decl) as (m & -> & Hsub & Hperm). simpl.
      destruct (IH m) as (schema' & -> & Hsub' & Hperm').
      exists schema'. split_and!; [done | by etrans |].
      rewrite Hperm', Hperm, <- app_assoc. f_equiv.
      rewrite !filter_cons, filter_nil. by case_decide. }
  destruct H as (schema' & ? & ? & ?). exists schema'. by split_and!.
Qed.

(** X4: A directory entry for which the walk function of main calls
    parseFile is a file whose path ends in .go, and sourceFromPath labels
    it go:do or go:api, never go. *)
Theorem walkSelects_source (Separator : ascii) (isDir : bool) (path : string) :
  walkSelects Separator isDir path = true ->
  isDir = false
  /\ strings.HasSuffix path ".go" = true
  /\ (sourceFromPath Separator path = "go:do"
      \/ sourceFromPath Separator path = "go:api").
Proof.
  unfold walkSelects, sourceFromPath.
  destruct isDir; [done|]. simpl.
  destruct (strings.HasSuffix path ".go"); [|done]. simpl.
  destruct (Contains _ "/model/do"); [by eauto|]. simpl.
  destruct (Contains _ "/api"); [by eauto | done].
Qed.

(** ** References, type labels and constraints of the API document *)

Lemma LastIndex_None (s : string) (c : ascii) :
  ~ occurs c s -> strings.LastIndex s c = None.
Proof.
  induction s as [|a s IH]; simpl; [done|]. intros H.
  rewrite IH by tauto. destruct (Ascii.eqb a c) eqn:E; [|done].
  apply Ascii.eqb_eq in E. tauto.
Qed.

Lemma LastIndex_Some (s : string) (c : ascii) (i : nat) :
  strings.LastIndex s c = Some i -> ~ occurs c (strings.from (i + 1) s).
Proof.
  revert i. induction s as [|a s IH]; intros i; simpl; [done|].
  destruct (strings.LastIndex s c) as [j|] eqn:E.
  - intros [= <-]. simpl. by apply IH.
  - destruct (Ascii.eqb a c); [|done]. intros [= <-]. simpl.
    clear IH. revert E. induction s as [|b s IH]; simpl; [tauto|].
    destruct (strings.LastIndex s c); [done|].
    destruct (Ascii.eqb b c) eqn:Eb; [done|]. intros _ [->|H].
    + by rewrite Ascii.eqb_refl in Eb.
    + by apply IH.
Qed.

(** X17: openAPIRefName gives the name after #/components/schemas/, gives
    the empty name for a reference without slash, and for every other
    reference gives a name that holds no slash. *)
Theorem openAPIRefName_of_reference (name ref : string) :
  openAPIRefName ("#/components/schemas/" +:+ name) = name
  /\ (~ occurs "/"%char ref -> openAPIRefName ref = "")
  /\ (strings.HasPrefix ref "#/components/schemas/" = false ->
      ~ occurs "/"%char (openAPIRefName ref)).
Proof.
  unfold openAPIRefName. split_and!.
  - by rewrite HasPrefix_append, TrimPrefix_append.
  - intros H. rewrite (LastIndex_None _ _ H).
    destruct (strings.HasPrefix ref _) eqn:E; [|done].
    apply HasPrefix_inv in E. rewrite E in H. destruct H.
    apply occurs_append. left. simpl. tauto.
  - intros ->. destruct (strings.LastIndex ref "/") as [i|] eqn:E; [|simpl; tauto].
    by apply LastIndex_Some.
Qed.

Lemma typeNameOf_label (s : openAPISchema) : (typeNameOf s).1.1 <> "".
Proof.
  destruct s as [ref type format ? ? items ? ? ? ? ? ? ? ? allOf ? ?].
  simpl. repeat case_decide; try done.
  - by destruct (match items with Some _ => _ | None => _ end) as [[??]?].
  - by destruct (0 <? length allOf)%nat.
Qed.

Lemma openAPITypeName_label (s : option openAPISchema) : (openAPITypeName s).1.1 <> "".
Proof. destruct s; [apply typeNameOf_label | done]. Qed.

(** X15: The type label of a schema is never empty. The array flag is set
    exactly for a schema that is not a reference and has type array, and
    then the label starts with []. For a reference the reference name is
    the one openAPIRefName gives, or the label is Unknown. *)
Theorem typeNameOf_shape (s : openAPISchema) :
  (typeNameOf s).1.1 <> ""
  /\ ((typeNameOf s).1.2 = true <-> sRef s = "" /\ sType s = "array")
  /\ ((typeNameOf s).1.2 = true -> strings.HasPrefix (typeNameOf s).1.1 "[]" = true)
  /\ (sRef s <> "" -> (typeNameOf s).2 = openAPIRefName (sRef s)
                      \/ typeNameOf s = ("Unknown", false, "")).
Proof.
  split; [apply typeNameOf_label|].
  destruct s as [ref type format ? ? items ? ? ? ? ? ? ? ? allOf ? ?].
  simpl. destruct (decide (ref <> "")) as [Hr|Hr].
  - case_decide; (split_and!; [split; [done | by intros [? _]] | done | auto]).
  - apply dec_stable in Hr. subst ref.
    destruct (decide (type = "array")) as [->|Ht].
    + destruct (match items with Some _ => _ | None => _ end) as [[itemType ?] itemRef].
      simpl. split_and!; [done | | done].
      intros _. apply (HasPrefix_append "[]").
    + assert (Hn : forall P : Prop, (false = true <-> "" = "" /\ type = "array")
                   /\ (false = true -> P) /\ ("" <> "" -> P)).
      { intros P. split_and!; [split; [done | by intros [_ ?]] | done | done]. }
      repeat case_decide; try destruct (0 <? length allOf)%nat; simpl;
        (split_and!; [apply (Hn True) | done | done]).
Qed.

Lemma openAPIConstraintsForSchema_kept (s : option openAPISchema) :
  keptConstraints (openAPIConstraintsForSchema s).
Proof.
  intros x. destruct s as [s|]; simpl; [|done].
  match goal with |- context [if ?b then _ else _] => destruct b eqn:E end; [done|].
  by intros [= <-].
Qed.

Lemma openAPIConstraintsForSchema_optional (s : openAPISchema) (c : FieldConstraints) :
  openAPIConstraintsForSchema (Some s) = Some c -> Required c = false.
Proof.
  unfold openAPIConstraintsForSchema.
  match goal with |- context [constraintsEmpty (Some ?c)] => set (c0 := c) end.
  destruct (constraintsEmpty (Some c0)); [done|]. by intros [= <-].
Qed.

(** X16: openAPIConstraintsForSchema returns nil exactly when the schema
    sets none of nullable, minLength, maxLength, minimum, maximum,
    pattern, format and enum. A result that is not nil is never all-
    default and never has Required set. *)
Theorem openAPIConstraintsForSchema_absent (s : openAPISchema) :
  keptConstraints (openAPIConstraintsForSchema (Some s))
  /\ (openAPIConstraintsForSchema (Some s) = None <->
      sNullable s = false /\ sMinLength s = None /\ sMaxLength s = None
      /\ sMinimum s = None /\ sMaximum s = None /\ sPattern s = ""
      /\ sFormat s = "" /\ sEnum s = [])
  /\ (forall c, openAPIConstraintsForSchema (Some s) = Some c -> Required c = false).
Proof.
  split; [apply openAPIConstraintsForSchema_kept|].
  unfold openAPIConstraintsForSchema.
  match goal with |- context [constraintsEmpty (Some ?c)] => set (c0 := c) end.
  destruct (constraintsEmpty (Some c0)) eqn:E; split.
  - split; [intros _|done]. apply constraintsEmpty_true in E. simpl in E. tauto.
  - done.
  - split; [done|]. intros H. assert (constraintsEmpty (Some c0) = true); [|congruence].
    apply constraintsEmpty_true. simpl. tauto.
  - by intros c [= <-].
Qed.

Lemma mergeConstraints_kept (a b : option FieldConstraints) :
  keptConstraints a -> keptConstraints b -> keptConstraints (mergeConstraints a b).
Proof.
  intros Ha Hb. destruct a as [a|], b as [b|]; try done.
  exact (proj1 (mergeConstraints_collapse a b)).
Qed.

Lemma pickIntPtrMax_diag x : pickIntPtrMax x x = x.
Proof. destruct x as [z|]; simpl; [|done]. by destruct (z >? z)%Z. Qed.
Lemma pickIntPtrMin_diag x : pickIntPtrMin x x = x.
Proof. destruct x as [z|]; simpl; [|done]. by destruct (z <? z)%Z. Qed.
Lemma pickFloatPtrMax_diag x : pickFloatPtrMax x x = x.
Proof. destruct x as [z|]; simpl; [|done]. by destruct (fltb z z). Qed.
Lemma pickFloatPtrMin_diag x : pickFloatPtrMin x x = x.
Proof. destruct x as [z|]; simpl; [|done]. by destruct (fltb z z). Qed.

Lemma mergeConstraints_diag (c : option FieldConstraints) :
  keptConstraints c -> mergeConstraints c c = c.
Proof.
  intros Hc. destruct c as [c|]; [|done]. specialize (Hc c eq_refl).
  unfold mergeConstraints.
  rewrite pickIntPtrMax_diag, pickIntPtrMin_diag, pickFloatPtrMax_diag,
    pickFloatPtrMin_diag, !orb_diag.
  assert (E : {| Required := Required c; Nullable := Nullable c;
                 MinLength := MinLength c; MaxLength := MaxLength c;
                 Minimum := Minimum c; Maximum := Maximum c;
                 Pattern := if decide (Pattern c = "") then Pattern c else Pattern c;
                 Format := if decide (Format c = "") then Format c else Format c;
                 Enum := if (length (Enum c) =? 0)%nat && (0 <? length (Enum c))%nat
                         then Enum c else Enum c |} = c).
  { destruct c; simpl. f_equal; by repeat case_match. }
  rewrite E. by rewrite Hc.
Qed.

(** X26: The merge of two constraint sets that are nil or not all-default
    is again nil or not all-default. Merging such a set with itself, or
    with nil on either side, gives it back. *)
Theorem mergeConstraints_keeps_normal_form (a b : option FieldConstraints) :
  keptConstraints a -> keptConstraints b ->
  keptConstraints (mergeConstraints a b)
  /\ mergeConstraints a a = a
  /\ mergeConstraints None b = b
  /\ mergeConstraints a None = a.
Proof.
  intros Ha Hb. split_and!.
  - by apply mergeConstraints_kept.
  - by apply mergeConstraints_diag.
  - by destruct b.
  - by destruct a.
Qed.

(** ** What the resolution collects *)

Lemma grows_refl acc : grows acc acc.
Proof. by split_and!. Qed.

Lemma grows_trans a b c : grows a b -> grows b c -> grows a c.
Proof. intros (? & ? & ?) (? & ? & ?). split_and!; by etrans. Qed.

Lemma foldOutcome_rel {A B} (R : B -> B -> Prop) (f : B -> A -> outcome B)
    (l : list A) (b r : B) :
  (forall b, R b b) -> (forall a b c, R a b -> R b c -> R a c) ->
  (forall b x r, f b x = Returns r -> R b r) ->
  foldOutcome f l b = Returns r -> R b r.
Proof.
  intros Hrefl Htrans Hf. revert b. induction l as [|x l IH]; intros b; simpl.
  - by intros ->%Returns_inj.
  - destruct (f b x) as [b1| |] eqn:E; simpl; try done. eauto.
Qed.

Lemma collect_grows (spec : openAPISpec) (fuel : nat) :
  forall (s : option openAPISchema) (acc acc' : collected),
    collectOpenAPIObject fuel spec s acc = Returns acc' ->
    grows acc acc'
    /\ forall x, s = Some x -> sRef x = "" ->
         sProperties x ⊆ props acc'
         /\ forall r, r ∈ sRequired x -> r ∈ required acc'.
Proof.
  induction fuel as [|fuel IH]; intros s acc acc' H; [done|].
  simpl in H. destruct s as [s|].
  2: { apply Returns_inj in H as <-. split; [apply grows_refl | done]. }
  destruct (decide (sRef s <> "")) as [Href|Href].
  - split; [|by intros x [= <-] ?].
    repeat case_decide; try (apply Returns_inj in H as <-; apply grows_refl).
    apply IH in H as [(Gv & Gr & Gp) _]. simpl in *.
    split_and!; [set_solver | done | done].
  - apply dec_stable in Href.
    set (acc0 := {| visited := visited acc; props := props acc;
                    required := required acc ∪ list_to_set (sRequired s) |}) in *.
    destruct (foldOutcome _ (sAllOf s) acc0) as [acc1| |] eqn:E1; simpl in H; try done.
    assert (G1 : grows acc0 acc1).
    { revert E1. apply foldOutcome_rel; [apply grows_refl | apply grows_trans |].
      intros b x r Hr. by apply IH in Hr as [? _]. }
    destruct (match sOneOf s with [] => _ | _ => _ end) as [acc2| |] eqn:E2;
      simpl in H; try done.
    assert (G2 : grows acc1 acc2).
    { destruct (sOneOf s); [apply Returns_inj in E2 as <-; apply grows_refl|].
      by apply IH in E2 as [? _]. }
    destruct (match sAnyOf s with [] => _ | _ => _ end) as [acc3| |] eqn:E3;
      simpl in H; try done.
    assert (G3 : grows acc2 acc3).
    { destruct (sAnyOf s); [apply Returns_inj in E3 as <-; apply grows_refl|].
      by apply IH in E3 as [? _]. }
    apply Returns_inj in H as <-.
    pose proof (grows_trans _ _ _ (grows_trans _ _ _ G1 G2) G3) as (V & R & P).
    simpl in *. split.
    + split_and!; simpl; [done | set_solver |].
      rewrite dom_union. set_solver.
    + intros x [= <-] _. simpl. split; [apply map_union_subseteq_l|].
      intros r Hr. apply R. apply elem_of_union. right.
      by apply elem_of_list_to_set.
Qed.

(** X14: collectOpenAPIObject returns on every input, never removes a
    required name or a property name, and for a schema that is not a
    reference the result holds the schema's own properties with their own
    values and all its required names. *)
Theorem collectOpenAPIObject_only_adds
    (spec : openAPISpec) (s : option openAPISchema) (acc : collected) :
  exists acc',
    collectOpenAPIObject (collectFuel spec s (visited acc)) spec s acc = Returns acc'
    /\ required acc ⊆ required acc'
    /\ dom (props acc) ⊆ dom (props acc')
    /\ forall x, s = Some x -> sRef x = "" ->
         sProperties x ⊆ props acc'
         /\ forall r, r ∈ sRequired x -> r ∈ required acc'.
Proof.
  destruct (collect_returns spec (collectFuel spec s (visited acc)) s acc)
    as (acc' & Hacc' & _); [done|].
  exists acc'. destruct (collect_grows spec _ _ _ _ Hacc') as [(_ & ? & ?) ?].
  by split_and!.
Qed.

(** ** The record of a component schema *)

Lemma columnOfProperty_returns (acc : collected) (k : string) (c : ColumnInfo) :
  columnOfProperty acc k = Returns c ->
  Name c = k /\ JSONName c = k /\ cSource c = "openapi" /\ cType c <> ""
  /\ keptConstraints (Constraints c)
  /\ (k ∈ required acc <-> exists fc, Constraints c = Some fc /\ Required fc = true).
Proof.
  unfold columnOfProperty.
  pose proof (openAPITypeName_label (at_key (props acc) k)) as Hlabel.
  pose proof (openAPIConstraintsForSchema_kept (at_key (props acc) k)) as Hkept.
  destruct (openAPITypeName _) as [[typeName isArray] refName].
  destruct (at_key (props acc) k) as [p|] eqn:E; [|done].
  intros <-%Returns_inj. simpl. split_and!; try done.
  - destruct (decide (k ∈ required acc)); [|done]. by intros x [= <-].
  - destruct (decide (k ∈ required acc)) as [Hin|Hout].
    + split; [intros _; eauto | done].
    + split; [done|]. intros (fc & Hfc & Hreq).
      rewrite (openAPIConstraintsForSchema_optional p fc Hfc) in Hreq. done.
Qed.

Lemma columns_fold (acc : collected) (keys : list string) (cols0 cols : list ColumnInfo)
    (P : ColumnInfo -> Prop) :
  (forall k c, columnOfProperty acc k = Returns c -> P c) ->
  foldOutcome (fun cols propName =>
                 let! c := columnOfProperty acc propName in Returns (cols ++ [c]))
    keys cols0 = Returns cols ->
  Name <$> cols = (Name <$> cols0) ++ keys
  /\ (Forall P cols0 -> Forall P cols).
Proof.
  intros HP. revert cols0. induction keys as [|k keys IH]; intros cols0; simpl.
  - intros <-%Returns_inj. by rewrite app_nil_r.
  - destruct (columnOfProperty acc k) as [c| |] eqn:E; simpl; try done.
    intros [H1 H2]%IH. rewrite H1, fmap_app, <- app_assoc. simpl.
    destruct (columnOfProperty_returns _ _ _ E) as (-> & _). split; [done|].
    intros H0. apply H2, Forall_app. split; [done|]. repeat constructor. eauto.
Qed.

Lemma sortStrings_keys {A} (m : gmap string A) :
  StronglySorted String.le (sortStrings (map_to_list m).*1)
  /\ NoDup (sortStrings (map_to_list m).*1)
  /\ forall k, k ∈ sortStrings (map_to_list m).*1 <-> is_Some (m !! k).
Proof.
  unfold sortStrings. split_and!.
  - apply StronglySorted_merge_sort; apply _.
  - rewrite merge_sort_Permutation. apply NoDup_fst_map_to_list.
  - intros k. rewrite merge_sort_Permutation. apply elem_of_keys.
Qed.

(** X12: The record of a component schema has Source openapi, no relations
    and no operations. Its columns are sorted by name without repeats, and
    every column has its name as JSONName, Source openapi, a non-empty
    type and constraints that are nil or not all-default. *)
Theorem openAPISchemaToTableMetadata_columns (spec : openAPISpec) (schemaName : string)
    (schema : option openAPISchema) (meta : TableMetadata) :
  openAPISchemaToTableMetadata spec schemaName schema = Returns meta ->
  StructName meta = schemaName
  /\ NormalizedName meta = normalizeEntityName schemaName
  /\ Source meta = "openapi" /\ Relations meta = [] /\ Operations meta = []
  /\ StronglySorted String.le (Name <$> Columns meta)
  /\ NoDup (Name <$> Columns meta)
  /\ Forall (fun c => JSONName c = Name c /\ cSource c = "openapi" /\ cType c <> ""
                      /\ keptConstraints (Constraints c)) (Columns meta).
Proof.
  unfold openAPISchemaToTableMetadata.
  generalize (normalizeEntityName schemaName). intros norm.
  destruct (collectOpenAPIObject _ _ _ _) as [acc| |]; unfold andThen at 1; try done.
  destruct (foldOutcome _ _ _) as [cols| |] eqn:E; unfold andThen; try done.
  intros <-%Returns_inj. simpl.
  apply (columns_fold acc _ _ _
           (fun c => JSONName c = Name c /\ cSource c = "openapi" /\ cType c <> ""
                     /\ keptConstraints (Constraints c))) in E as [E1 E2].
  2: { intros k c (-> & -> & ? & ? & ? & _)%columnOfProperty_returns. done. }
  simpl in E1. rewrite E1.
  destruct (sortStrings_keys (props acc)) as (? & ? & _).
  split_and!; try done. by apply E2.
Qed.

Lemma foldOutcome_panics {A B} (f : B -> A -> outcome B) (l : list A) (b : B) (x : A) :
  x ∈ l -> (forall b, f b x = Panics) -> (forall b y, f b y <> OutOfFuel) ->
  foldOutcome f l b = Panics.
Proof.
  intros Hx Hpanic Hfuel. revert b.
  induction l as [|y l IH]; intros b; [by apply elem_of_nil in Hx|]. simpl.
  apply elem_of_cons in Hx as [<-|Hx]; [by rewrite Hpanic|].
  specialize (Hfuel b y). destruct (f b y) as [b'| |]; simpl; [by apply IH | done | done].
Qed.

(** X13: A schema that is not a reference and has a property whose value
    is null makes openAPISchemaToTableMetadata panic: the property is
    collected and then dereferenced for its description. *)
Theorem null_property_panics (spec : openAPISpec) (schemaName : string)
    (s : openAPISchema) (k : string) :
  sRef s = "" -> sProperties s !! k = Some None ->
  openAPISchemaToTableMetadata spec schemaName (Some s) = Panics.
Proof.
  intros Href Hk. unfold openAPISchemaToTableMetadata.
  generalize (normalizeEntityName schemaName). intros norm.
  destruct (collect_returns spec (collectFuel spec (Some s) ∅) (Some s)
              {| visited := ∅; props := ∅; required := ∅ |}) as (acc & Hacc & _); [done|].
  rewrite Hacc. unfold andThen at 1.
  destruct (collect_grows _ _ _ _ _ Hacc) as [_ Hown].
  destruct (Hown s eq_refl Href) as [Hprops _].
  assert (Hnull : props acc !! k = Some None).
  { by apply (lookup_weaken _ _ _ _ Hk). }
  rewrite (foldOutcome_panics _ _ _ k); [done | | |].
  - apply sortStrings_keys. by rewrite Hnull.
  - intros cols. unfold columnOfProperty, at_key. rewrite Hnull. simpl.
    by destruct (openAPITypeName None) as [[??]?].
  - intros cols y. pose proof (columnOfProperty_fuel acc y).
    by destruct (columnOfProperty acc y).
Qed.

(** ** The media type whose entry is null *)

(** X18: pickJSONMediaSchema panics exactly when the entries of
    application/json and application/ld+json are missing or null and the
    entry of the lexicographically first media type is null. *)
Theorem pickJSONMediaSchema_panics
    (content : gmap string (option openAPIMediaType)) :
  pickJSONMediaSchema content = Panics
  <-> absent content "application/json" /\ absent content "application/ld+json"
      /\ exists k, leastKey content k /\ content !! k = Some None.
Proof.
  unfold pickJSONMediaSchema. split.
  - destruct (decide (size content = 0%nat)) as [|Hsize]; [done|].
    destruct (at_key content "application/json") eqn:Ej; [done|].
    destruct (at_key content "application/ld+json") eqn:El; [done|].
    destruct (sortStrings (map_to_list content).*1) as [|k rest] eqn:E.
    + destruct Hsize. apply map_size_empty_iff, map_to_list_empty_iff.
      pose proof (merge_sort_Permutation String.le (map_to_list content).*1) as Hperm.
      unfold sortStrings in E. rewrite E in Hperm.
      apply Permutation_nil in Hperm. by apply fmap_nil_inv in Hperm.
    + destruct (sortStrings_head _ _ _ E) as [Hk Hleast].
      destruct (at_key content k) eqn:Ek; [done|]. intros _.
      split_and!; [done..|]. exists k. split.
      * split; [by apply elem_of_keys|]. intros k' Hk'. by apply Hleast, elem_of_keys.
      * apply elem_of_keys in Hk as [[mt|] Hv]; [|done].
        unfold at_key in Ek. by rewrite Hv in Ek.
  - intros (Hj & Hl & k & Hk & Hnull).
    rewrite decide_False by (apply (size_nonempty _ k); by rewrite Hnull).
    rewrite Hj, Hl. destruct (sortStrings_leastKey _ _ Hk) as [rest ->].
    unfold at_key. by rewrite Hnull.
Qed.

(** ** One record for each component schema *)

Lemma putSchema_fresh (schema : SchemaMap) (table : TableMetadata) :
  schema !! StructName table = None ->
  putSchema schema table = Returns (<[StructName table := table]> schema).
Proof.
  intros Hfree. destruct (putSchema_returns schema table) as (k & -> & _ & Htaken).
  destruct k as [|k]; [by rewrite candidate_0|].
  destruct (Htaken 0%nat) as [t Ht]; [lia|].
  rewrite candidate_0 in Ht. by rewrite Hfree in Ht.
Qed.

Lemma openAPISchemaToTableMetadata_header (spec : openAPISpec) (schemaName : string)
    (schema : option openAPISchema) (meta : TableMetadata) :
  openAPISchemaToTableMetadata spec schemaName schema = Returns meta ->
  StructName meta = schemaName
  /\ NormalizedName meta = normalizeEntityName schemaName
  /\ Source meta = "openapi" /\ Relations meta = [] /\ Operations meta = [].
Proof.
  unfold openAPISchemaToTableMetadata.
  generalize (normalizeEntityName schemaName). intros norm.
  destruct (collectOpenAPIObject _ _ _ _) as [acc| |]; unfold andThen at 1; try done.
  destruct (foldOutcome _ _ _) as [cols| |] eqn:E; unfold andThen; try done.
  by intros <-%Returns_inj.
Qed.

Lemma records_fold (spec : openAPISpec) (l : list (string * option openAPISchema))
    (out0 out : SchemaMap) :
  NoDup l.*1 -> (forall k, k ∈ l.*1 -> out0 !! k = None) ->
  foldOutcome
    (fun (out : SchemaMap) (entry : string * option openAPISchema) =>
       let! meta := openAPISchemaToTableMetadata spec entry.1 entry.2 in
       putSchema out meta) l out0 = Returns out ->
  dom out = dom out0 ∪ list_to_set l.*1
  /\ forall k meta, out !! k = Some meta ->
       out0 !! k = Some meta
       \/ exists schema, (k, schema) ∈ l
                         /\ openAPISchemaToTableMetadata spec k schema = Returns meta.
Proof.
  revert out0. induction l as [|[name schema] l IH]; intros out0 Hnd Hfree; simpl.
  - intros <-%Returns_inj. split; [set_solver | eauto].
  - apply NoDup_cons in Hnd as [Hname Hnd].
    destruct (openAPISchemaToTableMetadata spec name schema) as [meta| |] eqn:E;
      cbn [andThen]; try done.
    destruct (openAPISchemaToTableMetadata_header _ _ _ _ E) as (Hstruct & _).
    rewrite putSchema_fresh by (rewrite Hstruct; apply Hfree; set_solver).
    rewrite Hstruct. intros H. apply IH in H as [Hdom Hrec]; [|done|].
    + split; [rewrite Hdom, dom_insert_L; set_solver|].
      intros k t Ht. destruct (Hrec k t Ht) as [H0|(s & Hin & Hs)].
      * destruct (decide (name = k)) as [<-|Hne].
        -- rewrite lookup_insert_eq in H0. apply (inj Some) in H0. subst t.
           right. exists schema. split; [left | done].
        -- rewrite lookup_insert_ne in H0 by done. by left.
      * right. exists s. split; [by right | done].
    + intros k Hk. rewrite lookup_insert_ne by (intros <-; done).
      apply Hfree. set_solver.
Qed.

Lemma attachOperations_header opsByNorm (meta : TableMetadata) :
  StructName (attachOperations opsByNorm meta) = StructName meta
  /\ NormalizedName (attachOperations opsByNorm meta) = NormalizedName meta
  /\ Source (attachOperations opsByNorm meta) = Source meta
  /\ Columns (attachOperations opsByNorm meta) = Columns meta
  /\ Relations (attachOperations opsByNorm meta) = Relations meta.
Proof. unfold attachOperations. by destruct (opsByNorm !! _). Qed.

(** X10: When parseOpenAPIFile returns, its map has exactly the keys of
    components.schemas: every record is stored under its schema name (the
    disambiguation of putSchema never applies), with that name as
    StructName, its normalization as NormalizedName, Source openapi and no
    relations. *)
Theorem parseOpenAPIFile_records
    (range : forall A, gmap string A -> list (string * A))
    (spec : openAPISpec) (out : SchemaMap) :
  iteration range -> parseOpenAPIFile range spec = Returns out ->
  dom out = dom (Schemas spec)
  /\ forall k meta, out !! k = Some meta ->
       StructName meta = k /\ NormalizedName meta = normalizeEntityName k
       /\ Source meta = "openapi" /\ Relations meta = [].
Proof.
  intros Hrange. unfold parseOpenAPIFile.
  destruct (foldOutcome _ _ _) as [out0| |] eqn:Eout; unfold andThen at 1; try done.
  destruct (collectOperations range spec) as [opsByNorm| |]; unfold andThen; try done.
  intros <-%Returns_inj.
  pose proof (Hrange _ (Schemas spec)) as Hperm.
  apply records_fold in Eout as [Hdom Hrec].
  - split.
    + rewrite dom_fmap_L, Hdom, dom_empty_L, (left_id_L ∅ (∪)).
      apply set_eq. intros k.
      rewrite elem_of_list_to_set, Hperm, elem_of_keys, elem_of_dom. done.
    + intros k meta. rewrite lookup_fmap.
      destruct (out0 !! k) as [meta0|] eqn:Ek; simpl; [|done].
      intros <-%(inj Some).
      destruct (attachOperations_header opsByNorm meta0) as (-> & -> & -> & _ & ->).
      destruct (Hrec k meta0 Ek) as [H0|(s & _ & Hs)]; [by rewrite lookup_empty in H0|].
      destruct (openAPISchemaToTableMetadata_header _ _ _ _ Hs) as (? & ? & ? & ? & _).
      done.
  - rewrite Hperm. apply NoDup_fst_map_to_list.
  - intros k _. apply lookup_empty.
Qed.

(** ** Every matching operation is attached *)

Lemma foldOutcome_reaches {A B} (Q : B -> Prop) (f : B -> A -> outcome B)
    (l : list A) (b r : B) (x : A) :
  x ∈ l ->
  (forall b y r, Q b -> f b y = Returns r -> Q r) ->
  (forall b r, f b x = Returns r -> Q r) ->
  foldOutcome f l b = Returns r -> Q r.
Proof.
  intros Hx Hkeep Hadd. revert b.
  induction l as [|y l IH]; intros b; [by apply elem_of_nil in Hx|]. simpl.
  destruct (f b y) as [b'| |] eqn:E; cbn [andThen]; try done.
  apply elem_of_cons in Hx as [<-|Hx]; [|by apply IH].
  apply (foldOutcome_invariant Q); [exact Hkeep|]. by apply (Hadd b).
Qed.

Lemma collectOperation_keeps (p : string) opsByNorm entry r norm oi :
  filedUnder opsByNorm norm oi -> collectOperation p opsByNorm entry = Returns r ->
  filedUnder r norm oi.
Proof.
  intros (ops & Hops & Hin). unfold collectOperation.
  destruct entry.2 as [op|]; [|intros <-%Returns_inj; by exists ops].
  destruct (openAPIOperationInfo _ _ _) as [oi'| |]; unfold andThen;
    [|intros H; discriminate H..].
  remember (normalizeEntityName (inferEntityNameForOperation oi')) as nm eqn:Hnm.
  destruct (decide (nm = "")) as [|Hne]; intros <-%Returns_inj; [by exists ops|].
  destruct (decide (nm = norm)) as [->|Hneq].
  - exists (ops ++ [oi']). rewrite lookup_insert_eq, Hops. simpl.
    split; [done|]. apply elem_of_app. by left.
  - exists ops. by rewrite lookup_insert_ne.
Qed.

Lemma collectOperation_files (p m : string) (op : openAPIOperation) opsByNorm r oi :
  openAPIOperationInfo p (strings.ToUpper m) op = Returns oi ->
  normalizeEntityName (inferEntityNameForOperation oi) <> "" ->
  collectOperation p opsByNorm (m, Some op) = Returns r ->
  filedUnder r (normalizeEntityName (inferEntityNameForOperation oi)) oi.
Proof.
  intros Hoi. unfold collectOperation. cbn [fst snd]. rewrite Hoi. unfold andThen.
  remember (normalizeEntityName (inferEntityNameForOperation oi)) as nm eqn:Hnm.
  intros Hne. rewrite decide_False by done. intros <-%Returns_inj.
  exists (default [] (opsByNorm !! nm) ++ [oi]). rewrite lookup_insert_eq.
  split; [done|]. apply elem_of_app. right. by apply list_elem_of_singleton.
Qed.

(** X11: Every operation of the document whose inferred entity name
    normalizes to a non-empty name is in the Operations of every record of
    the result of parseOpenAPIFile that has that NormalizedName. *)
Theorem matching_operation_attached
    (range : forall A, gmap string A -> list (string * A))
    (spec : openAPISpec) (out : SchemaMap)
    (p m : string) (methods : openAPIPath) (op : openAPIOperation) (oi : OperationInfo) :
  iteration range -> parseOpenAPIFile range spec = Returns out ->
  Paths spec !! p = Some methods -> methods !! m = Some (Some op) ->
  openAPIOperationInfo p (strings.ToUpper m) op = Returns oi ->
  normalizeEntityName (inferEntityNameForOperation oi) <> "" ->
  forall k meta, out !! k = Some meta ->
    NormalizedName meta = normalizeEntityName (inferEntityNameForOperation oi) ->
    oi ∈ Operations meta.
Proof.
  intros Hrange Hparse Hp Hm Hoi Hne k meta Hk Hnorm.
  remember (normalizeEntityName (inferEntityNameForOperation oi)) as nm eqn:Hnm.
  unfold parseOpenAPIFile in Hparse.
  destruct (foldOutcome _ _ _) as [out0| |]; unfold andThen at 1 in Hparse; try done.
  destruct (collectOperations range spec) as [opsByNorm| |] eqn:Eops;
    unfold andThen in Hparse; try done.
  apply Returns_inj in Hparse. subst out.
  rewrite lookup_fmap in Hk.
  destruct (out0 !! k) as [meta0|]; simpl in Hk; [|done].
  apply (inj Some) in Hk. subst meta.
  assert (Hfiled : filedUnder opsByNorm nm oi).
  { revert Eops. unfold collectOperations.
    apply (foldOutcome_reaches (fun b => filedUnder b nm oi) _ _ _ _ (p, methods)).
    - rewrite (Hrange _ (Paths spec)). by apply elem_of_map_to_list.
    - intros b [p' methods'] r Hb. cbn [fst snd].
      apply (foldOutcome_invariant (fun b => filedUnder b nm oi)); [|done].
      intros b' x r' Hb'. by apply collectOperation_keeps.
    - intros b r. cbn [fst snd].
      apply (foldOutcome_reaches (fun b => filedUnder b nm oi) _ _ _ _ (m, Some op)).
      + rewrite (Hrange _ methods). by apply elem_of_map_to_list.
      + intros b' x r' Hb'. by apply collectOperation_keeps.
      + intros b' r'. subst nm. by apply collectOperation_files. }
  destruct Hfiled as (ops & Hops & Hin).
  destruct (attachOperations_header opsByNorm meta0) as (_ & Hn & _).
  rewrite Hn in Hnorm. unfold attachOperations. rewrite Hnorm, Hops. simpl.
  apply elem_of_app. by right.
Qed.

(** ** The entity of a path *)

Lemma TrimLeftFunc_head (f : ascii -> bool) (s : string) :
  (forall a, occurs a s -> f a = false) -> strings.TrimLeftFunc f s = s.
Proof. destruct s as [|a s]; simpl; [done|]. intros H. rewrite H; [done | by left]. Qed.

Lemma TrimRightFunc_none (f : ascii -> bool) (s : string) :
  (forall a, occurs a s -> f a = false) -> strings.TrimRightFunc f s = s.
Proof.
  induction s as [|a s IH]; simpl; [done|]. intros H.
  rewrite IH by (intros b Hb; apply H; by right).
  destruct s; [|done]. rewrite H; [done | by left].
Qed.

Lemma TrimRightFunc_tail (f : ascii -> bool) (s t : string) :
  t <> "" -> (forall a, occurs a t -> f a = false) ->
  strings.TrimRightFunc f (s +:+ t) = s +:+ t.
Proof.
  intros Ht Hf. induction s as [|a s IH].
  - rewrite append_nil. by apply TrimRightFunc_none.
  - rewrite append_cons. simpl. rewrite IH.
    destruct (s +:+ t) eqn:E; [|done].
    destruct s; [rewrite append_nil in E; done | rewrite append_cons in E; done].
Qed.

Lemma Split_none (s : string) (sep : ascii) :
  ~ occurs sep s -> strings.Split s sep = [s].
Proof.
  induction s as [|a s IH]; simpl; [done|]. intros H.
  destruct (Ascii.eqb_spec a sep) as [->|Hne]; [destruct H; by left|].
  rewrite IH; [done|]. intros Hs. apply H. by right.
Qed.

Lemma Split_append (s t : string) (sep : ascii) :
  ~ occurs sep s -> strings.Split (s +:+ String sep t) sep = s :: strings.Split t sep.
Proof.
  induction s as [|a s IH]; intros H.
  - rewrite append_nil. simpl. by rewrite Ascii.eqb_refl.
  - rewrite append_cons. simpl.
    destruct (Ascii.eqb_spec a sep) as [->|Hne]; [destruct H; by left|].
    rewrite IH; [done|]. intros Hs. apply H. by right.
Qed.

Lemma slash_free (s : string) (a : ascii) :
  ~ occurs "/"%char s -> occurs a s -> Ascii.eqb "/" a = false.
Proof.
  intros H Ha. destruct (Ascii.eqb_spec "/"%char a) as [<-|]; [done | done].
Qed.

Lemma Trim_segment (seg : string) :
  seg <> "" -> ~ occurs "/"%char seg -> strings.Trim ("/" +:+ seg) "/" = seg.
Proof.
  intros Hne Hseg. unfold strings.Trim.
  change ("/" +:+ seg) with (String "/" seg). simpl.
  rewrite TrimLeftFunc_head by (intros a; by apply slash_free).
  apply TrimRightFunc_none. intros a. by apply slash_free.
Qed.

Lemma TrimLeftFunc_stop (f : ascii -> bool) (a : ascii) (s : string) :
  f a = false -> strings.TrimLeftFunc f (String a s) = String a s.
Proof. intros H. simpl. by rewrite H. Qed.

Lemma Trim_item (seg x : string) :
  seg <> "" -> ~ occurs "/"%char seg ->
  strings.Trim ("/" +:+ seg +:+ "/{" +:+ x +:+ "}") "/" = seg +:+ "/{" +:+ x +:+ "}".
Proof.
  intros Hne Hseg. unfold strings.Trim.
  destruct seg as [|a seg]; [done|].
  change ("/" +:+ String a seg +:+ "/{" +:+ x +:+ "}")
    with (String "/" (String a (seg +:+ "/{" +:+ x +:+ "}"))).
  change (strings.TrimLeftFunc (Ascii.eqb "/")
            (String "/" (String a (seg +:+ "/{" +:+ x +:+ "}"))))
    with (strings.TrimLeftFunc (Ascii.eqb "/") (String a (seg +:+ "/{" +:+ x +:+ "}"))).
  rewrite TrimLeftFunc_stop by (apply (slash_free (String a seg) a Hseg); by left).
  change (String a (seg +:+ "/{" +:+ x +:+ "}"))
    with (String a seg +:+ "/{" +:+ x +:+ "}").
  replace (String a seg +:+ "/{" +:+ x +:+ "}")
    with ((String a seg +:+ "/{" +:+ x) +:+ "}") by (by rewrite <- !append_assoc).
  apply TrimRightFunc_tail; [done|]. intros b [<-|[]]. done.
Qed.

Lemma entity_of_segment (seg : string) :
  seg <> "" -> ~ occurs "/"%char seg ->
  entityFromPathHeuristic ("/" +:+ seg)
  = if bool_decide (seg = "api") || strings.HasPrefix seg "v" then ""
    else capitalized (strings.TrimSuffix (strings.TrimSpace seg) "s").
Proof.
  intros Hne Hseg. unfold entityFromPathHeuristic.
  rewrite Trim_segment by done. rewrite decide_False by done.
  rewrite Split_none by done. cbv beta iota zeta.
  destruct (bool_decide (seg = "api") || strings.HasPrefix seg "v"); [done|].
  cbn [last length Nat.ltb Nat.leb]. rewrite andb_false_r. done.
Qed.

(** X19: For a path of one segment that is api or starts with v, such as
    /vehicles, entityFromPathHeuristic drops the segment as an API prefix
    and returns the empty name. *)
Theorem entityFromPathHeuristic_version_prefix (seg : string) :
  seg <> "" -> ~ occurs "/"%char seg ->
  seg = "api" \/ strings.HasPrefix seg "v" = true ->
  entityFromPathHeuristic ("/" +:+ seg) = "".
Proof.
  intros Hne Hseg Hdrop. rewrite entity_of_segment by done.
  destruct Hdrop as [->| ->]; [done | by rewrite orb_true_r].
Qed.

(** X20: When the first segment is not dropped as an API prefix, the item
    path /seg/{x} and the collection path /seg give the same entity: the
    segment with white space trimmed and one final s removed, and with
    its first byte put through ToUpper, which gives an ASCII letter in
    upper case and U+FFFD for a byte beyond ASCII. *)
Theorem entityFromPathHeuristic_item_path (seg x : string) :
  seg <> "" -> ~ occurs "/"%char seg -> ~ occurs "/"%char x ->
  seg <> "api" -> strings.HasPrefix seg "v" = false ->
  entityFromPathHeuristic ("/" +:+ seg +:+ "/{" +:+ x +:+ "}")
  = entityFromPathHeuristic ("/" +:+ seg)
  /\ entityFromPathHeuristic ("/" +:+ seg)
     = capitalized (strings.TrimSuffix (strings.TrimSpace seg) "s").
Proof.
  intros Hne Hseg Hx Hapi Hv.
  assert (Hcoll : entityFromPathHeuristic ("/" +:+ seg)
                  = capitalized (strings.TrimSuffix (strings.TrimSpace seg) "s")).
  { rewrite entity_of_segment by done. by rewrite bool_decide_eq_false_2, Hv. }
  split; [|done]. rewrite Hcoll. unfold entityFromPathHeuristic.
  rewrite Trim_item by done.
  rewrite decide_False.
  2: { destruct seg; [done | by rewrite append_cons]. }
  change (seg +:+ "/{" +:+ x +:+ "}") with (seg +:+ String "/" ("{" +:+ x +:+ "}")).
  rewrite Split_append by done.
  rewrite Split_none.
  2: { change ("{" +:+ x +:+ "}") with (String "{" (x +:+ "}")). simpl.
       intros [H|H]; [done|]. apply occurs_append in H as [H|H]; [done|].
       simpl in H. by destruct H. }
  cbv beta iota zeta. rewrite bool_decide_eq_false_2, Hv by done. simpl orb. cbv iota.
  change ("{" +:+ x +:+ "}") with (String "{" (x +:+ "}")).
  cbn [last length Nat.ltb Nat.leb lookup list_lookup Nat.sub default].
  change (strings.HasPrefix (String "{" (x +:+ "}")) "{") with true. done.
Qed.

(** A first byte beyond ASCII is no UTF-8 text by itself, and [ToUpper]
    writes U+FFFD for it: the entity of [/écoles], whose [é] is the bytes
    195 and 169. *)
Example entityFromPathHeuristic_beyond_ASCII :
  entityFromPathHeuristic (String "/" (String "195" (String "169" "coles")))
  = strings.RuneError +:+ String "169" "cole".
Proof. vm_compute. reflexivity. Qed.

(** ** What the merges add *)

Lemma appendUnseen_fold {A} (key : A -> string) (src dst : list A) (seen : gset string) :
  (forall k, k ∈ seen <-> k ∈ key <$> dst) ->
  exists added,
    (fold_left (appendUnseen key) src (dst, seen)).1 = dst ++ added
    /\ added `sublist_of` src
    /\ NoDup (key <$> added)
    /\ Forall (fun x => key x <> "" /\ key x ∉ key <$> dst) added
    /\ forall x, x ∈ src -> key x <> "" -> key x ∈ key <$> (dst ++ added).
Proof.
  revert dst seen. induction src as [|x src IH]; intros dst seen Hseen.
  - exists []. simpl. rewrite app_nil_r.
    split_and!; [done | done | constructor | constructor |].
    intros x Hx. by apply elem_of_nil in Hx.
  - simpl. destruct (decide (key x = "")) as [Hk|Hk].
    { destruct (IH dst seen Hseen) as (added & H1 & H2 & H3 & H4 & H5).
      exists added. split_and!; [done | by apply sublist_cons | done | done |].
      intros y [->|Hy]%elem_of_cons Hne; [done | by apply H5]. }
    destruct (decide (key x ∈ seen)) as [Hin|Hout].
    { destruct (IH dst seen Hseen) as (added & H1 & H2 & H3 & H4 & H5).
      exists added. split_and!; [done | by apply sublist_cons | done | done |].
      intros y [->|Hy]%elem_of_cons Hne; [|by apply H5].
      rewrite fmap_app. apply elem_of_app. left. by apply Hseen. }
    destruct (IH (dst ++ [x]) ({[ key x ]} ∪ seen)) as (added & H1 & H2 & H3 & H4 & H5).
    { intros k. rewrite fmap_app, elem_of_app, elem_of_union, elem_of_singleton, Hseen.
      simpl. rewrite list_elem_of_singleton. tauto. }
    exists (x :: added). rewrite H1, <- app_assoc. simpl.
    split_and!; [done | by apply sublist_skip | | |].
    + apply NoDup_cons. split; [|done]. intros Hx.
      apply list_elem_of_fmap in Hx as (y & Hxy & Hy).
      rewrite Forall_forall in H4. destruct (H4 y Hy) as [_ Hnot].
      apply Hnot. rewrite fmap_app, elem_of_app. right. simpl.
      apply list_elem_of_singleton. done.
    + constructor.
      * split; [done|]. intros Hx. apply Hout. by apply Hseen.
      * eapply Forall_impl; [exact H4|]. intros y [Hy1 Hy2]. split; [done|].
        intros Hy. apply Hy2. rewrite fmap_app, elem_of_app. by left.
    + intros y [->|Hy]%elem_of_cons Hne.
      * rewrite fmap_app, elem_of_app. right. simpl. by left.
      * specialize (H5 y Hy Hne). by rewrite <- app_assoc in H5.
Qed.

Lemma mergeByKey_appends {A} (key : A -> string) (dst src : list A) :
  exists added,
    mergeByKey key dst src = dst ++ added
    /\ added `sublist_of` src
    /\ NoDup (key <$> added)
    /\ Forall (fun x => key x <> "" /\ key x ∉ key <$> dst) added
    /\ forall x, x ∈ src -> key x <> "" -> key x ∈ key <$> (dst ++ added).
Proof.
  apply appendUnseen_fold. intros k. by rewrite elem_of_list_to_set.
Qed.

Lemma length_append_pos (s t : string) : t <> "" -> s +:+ t <> "".
Proof.
  intros Ht H. apply (f_equal String.length) in H. rewrite length_append in H.
  destruct t; [done|]. simpl in H. lia.
Qed.

Lemma operationKey_nonempty (op : OperationInfo) : operationKey op <> "".
Proof. unfold operationKey. by apply length_append_pos. Qed.

Lemma relationKey_empty (r : option RelationNode) : relationKey r = "" <-> r = None.
Proof.
  destruct r as [r|]; simpl; [|done]. split; [|done]. intros H.
  apply length_append_pos in H; [done|]. done.
Qed.

(** X28: mergeOperations keeps dst as a prefix and appends, in the order
    of src, the operations of src whose key is new, each key once. Every
    operation of src has its key in the result, since an operation key is
    never empty. *)
Theorem mergeOperations_appends (dst src : list OperationInfo) :
  exists added,
    mergeOperations dst src = dst ++ added
    /\ added `sublist_of` src
    /\ NoDup (operationKey <$> added)
    /\ Forall (fun op => operationKey op ∉ operationKey <$> dst) added
    /\ forall op, op ∈ src -> operationKey op ∈ operationKey <$> mergeOperations dst src.
Proof.
  destruct (mergeByKey_appends operationKey dst src) as (added & H1 & H2 & H3 & H4 & H5).
  exists added. unfold mergeOperations. rewrite H1. split_and!; [done..| |].
  - eapply Forall_impl; [exact H4|]. by intros op [_ ?].
  - intros op Hop. apply H5; [done|]. apply operationKey_nonempty.
Qed.

(** X27: mergeRelations keeps dst as a prefix and appends, in the order of
    src, the relations of src that are not nil and whose key is new, each
    key once. Every relation of src that is not nil has its key in the
    result. *)
Theorem mergeRelations_appends (dst src : list (option RelationNode)) :
  exists added,
    mergeRelations dst src = dst ++ added
    /\ added `sublist_of` src
    /\ NoDup (relationKey <$> added)
    /\ Forall (fun r => r <> None /\ relationKey r ∉ relationKey <$> dst) added
    /\ forall r, r ∈ src -> r <> None ->
         relationKey r ∈ relationKey <$> mergeRelations dst src.
Proof.
  destruct (mergeByKey_appends relationKey dst src) as (added & H1 & H2 & H3 & H4 & H5).
  exists added. unfold mergeRelations. rewrite H1. split_and!; [done..| |].
  - eapply Forall_impl; [exact H4|]. intros r [Hr ?]. split; [|done].
    intros ->. by apply Hr.
  - intros r Hr Hne. apply H5; [done|]. by rewrite relationKey_empty.
Qed.

Lemma mergeColumnInto_fold (src dst : list ColumnInfo) (index : gmap string nat) :
  (forall k i, index !! k = Some i -> (columnKey <$> dst) !! i = Some k) ->
  (forall k, k ∈ columnKey <$> dst -> is_Some (index !! k)) ->
  exists added,
    columnKey <$> (fold_left mergeColumnInto src (dst, index)).1
    = (columnKey <$> dst) ++ (columnKey <$> added)
    /\ added `sublist_of` src
    /\ NoDup (columnKey <$> added)
    /\ Forall (fun c => columnKey c <> "" /\ columnKey c ∉ columnKey <$> dst) added
    /\ forall c, c ∈ src -> columnKey c <> "" ->
         columnKey c ∈ (columnKey <$> dst) ++ (columnKey <$> added).
Proof.
  revert dst index. induction src as [|c src IH]; intros dst index Hidx Hall.
  - exists []. simpl. rewrite app_nil_r.
    split_and!; [done | done | constructor | constructor |].
    intros x Hx. by apply elem_of_nil in Hx.
  - simpl. destruct (decide (columnKey c = "")) as [Hk|Hk].
    { destruct (IH dst index Hidx Hall) as (added & H1 & H2 & H3 & H4 & H5).
      exists added. split_and!; [done | by apply sublist_cons | done | done |].
      intros y [->|Hy]%elem_of_cons Hne; [done | by apply H5]. }
    destruct (index !! columnKey c) as [i|] eqn:Hi.
    + assert (Hkeys : columnKey <$> alter (fun d => mergeColumn d c) i dst
                      = columnKey <$> dst).
      { apply list_eq. intros j. rewrite !list_lookup_fmap, list_lookup_alter.
        destruct (decide (i = j)) as [<-|]; [|done].
        specialize (Hidx _ _ Hi). rewrite list_lookup_fmap in Hidx.
        destruct (dst !! i) as [d|]; simpl in *; [|done].
        apply (inj Some) in Hidx. f_equal. by apply columnKey_mergeColumn. }
      destruct (IH (alter (fun d => mergeColumn d c) i dst) index)
        as (added & H1 & H2 & H3 & H4 & H5).
      { by rewrite Hkeys. } { by rewrite Hkeys. }
      rewrite Hkeys in H1, H4, H5.
      exists added. split_and!; [done | by apply sublist_cons | done | done |].
      intros y [->|Hy]%elem_of_cons Hne; [|by apply H5].
      apply elem_of_app. left. apply list_elem_of_lookup. exists i. by apply Hidx.
    + destruct (IH (dst ++ [c]) (<[columnKey c := length dst]> index))
        as (added & H1 & H2 & H3 & H4 & H5).
      { intros k i. rewrite fmap_app. simpl.
        destruct (decide (columnKey c = k)) as [<-|Hne].
        - rewrite lookup_insert_eq. intros <-%(inj Some).
          rewrite lookup_app_r by (by rewrite length_fmap).
          by rewrite length_fmap, Nat.sub_diag.
        - rewrite lookup_insert_ne by done. intros H%Hidx.
          by apply lookup_app_l_Some. }
      { intros k. rewrite fmap_app, elem_of_app. simpl.
        rewrite list_elem_of_singleton.
        destruct (decide (columnKey c = k)) as [<-|Hne].
        - rewrite lookup_insert_eq. eauto.
        - rewrite lookup_insert_ne by done. intros [H|H]; [by apply Hall | done]. }
      rewrite fmap_app in H1, H4, H5. simpl in H1, H4, H5.
      rewrite <- app_assoc in H1, H5. simpl in H1, H5.
      exists (c :: added). rewrite H1. simpl.
      split_and!; [done | by apply sublist_skip | | |].
      * apply NoDup_cons. split; [|done]. intros Hx.
        apply list_elem_of_fmap in Hx as (y & Hxy & Hy).
        rewrite Forall_forall in H4. destruct (H4 y Hy) as [_ Hnot].
        apply Hnot. apply elem_of_app. right. apply list_elem_of_singleton. done.
      * constructor.
        -- split; [done|]. intros Hx. apply Hall in Hx as [j Hj]. by rewrite Hi in Hj.
        -- eapply Forall_impl; [exact H4|]. intros y [Hy1 Hy2]. split; [done|].
           intros Hy. apply Hy2. apply elem_of_app. by left.
      * intros y [->|Hy]%elem_of_cons Hne.
        -- apply elem_of_app. right. by left.
        -- by apply H5.
Qed.

(** X24: mergeColumns keeps the identity key at every position of dst and
    appends, in the order of src, one column for each new non-empty key of
    src, each key once. Every non-empty key of src is a key of the result. *)
Theorem mergeColumns_keys (dst src : list ColumnInfo) :
  exists added,
    columnKey <$> mergeColumns dst src = (columnKey <$> dst) ++ (columnKey <$> added)
    /\ added `sublist_of` src
    /\ NoDup (columnKey <$> added)
    /\ Forall (fun c => columnKey c <> "" /\ columnKey c ∉ columnKey <$> dst) added
    /\ (forall c, c ∈ src -> columnKey c <> "" ->
          columnKey c ∈ columnKey <$> mergeColumns dst src)
    /\ length (mergeColumns dst src) = (length dst + length added)%nat.
Proof.
  destruct (mergeColumnInto_fold src dst (indexColumns 0 dst ∅))
    as (added & H1 & H2 & H3 & H4 & H5).
  - intros k i [H|[_ H]]%indexColumns_lookup; [done|].
    by rewrite Nat.sub_0_r in H.
  - intros k Hk. apply indexColumns_is_Some. by left.
  - exists added. unfold mergeColumns. split_and!; [done..| |].
    + intros c Hc Hne. rewrite H1. by apply H5.
    + apply (f_equal length) in H1.
      by rewrite length_app, !length_fmap in H1.
Qed.

(** ** The stable order *)

Section Sorting.

Context {A : Type} (less : A -> A -> bool).
Hypothesis less_asym : forall a b, less a b = true -> less b a = false.
Hypothesis less_trans : forall a b c, less b a = false -> less c b = false -> less c a = false.

Lemma sink_Permutation (x : A) (acc : list A) : sink less x acc ≡ₚ x :: acc.
Proof.
  induction acc as [|y ys IH]; simpl; [done|].
  destruct (less x y); [|done]. rewrite IH. apply perm_swap.
Qed.

Lemma sortSlice_Permutation (l : list A) : sortSlice less l ≡ₚ l.
Proof.
  unfold sortSlice. rewrite <- Permutation_rev.
  assert (H : forall acc, fold_left (fun acc x => sink less x acc) l acc ≡ₚ l ++ acc).
  { induction l as [|x l IH]; intros acc; simpl; [done|].
    rewrite IH, sink_Permutation. by rewrite Permutation_middle. }
  by rewrite H, app_nil_r.
Qed.

Lemma sink_sorted (x : A) (acc : list A) :
  StronglySorted (fun a b => less a b = false) acc ->
  StronglySorted (fun a b => less a b = false) (sink less x acc).
Proof.
  induction 1 as [|y ys Hys IH Hy]; simpl.
  - repeat constructor.
  - destruct (less x y) eqn:E.
    + constructor; [done|].
      rewrite Forall_forall. intros z Hz.
      rewrite sink_Permutation in Hz. apply elem_of_cons in Hz as [->|Hz].
      * by apply less_asym.
      * rewrite Forall_forall in Hy. by apply Hy.
    + constructor; [by constructor|]. constructor; [done|].
      eapply Forall_impl; [exact Hy|]. intros z Hz. simpl in Hz.
      by apply (less_trans z y x).
Qed.

Lemma sortSlice_sorted (l : list A) : sortedBy less (sortSlice less l).
Proof.
  unfold sortSlice, sortedBy.
  assert (H : forall acc, StronglySorted (fun a b => less a b = false) acc ->
            StronglySorted (fun a b => less a b = false)
              (fold_left (fun acc x => sink less x acc) l acc)).
  { induction l as [|x l IH]; intros acc Hacc; simpl; [done|].
    by apply IH, sink_sorted. }
  specialize (H [] (SSorted_nil _)).
  revert H. generalize (fold_left (fun acc x => sink less x acc) l []). intros acc.
  induction 1 as [|y ys Hys IH Hy]; simpl; [constructor|].
  apply StronglySorted_app_2; [ | done | repeat constructor].
  intros a b Ha Hb. apply list_elem_of_singleton in Hb. subst b.
  rewrite <- Permutation_rev in Ha.
  rewrite Forall_forall in Hy. by apply Hy.
Qed.

End Sorting.

Lemma ltb_asym (s t : string) : String.ltb s t = true -> String.ltb t s = false.
Proof.
  unfold String.ltb. rewrite (String.compare_antisym t s).
  by destruct (String.compare s t).
Qed.

Lemma ltb_false_le (s t : string) : String.ltb t s = false <-> String.le s t.
Proof.
  unfold String.ltb, String.le, String.leb. rewrite (String.compare_antisym t s).
  destruct (String.compare s t); simpl; split; done.
Qed.

Lemma ltb_false_trans (s t u : string) :
  String.ltb t s = false -> String.ltb u t = false -> String.ltb u s = false.
Proof. rewrite !ltb_false_le. intros ??. by etrans. Qed.

Lemma columnLess_sortName (a b : ColumnInfo) :
  columnLess a b = String.ltb (sortName a) (sortName b).
Proof. done. Qed.

Lemma operationLess_asym (a b : OperationInfo) :
  operationLess a b = true -> operationLess b a = false.
Proof.
  unfold operationLess.
  destruct (decide (Path a = Path b)) as [E|E].
  - rewrite decide_True by done. apply ltb_asym.
  - rewrite decide_False by done. apply ltb_asym.
Qed.

Lemma le_ne_ltb (s t : string) : String.le s t -> s <> t -> String.ltb s t = true.
Proof.
  unfold String.ltb, String.le, String.leb.
  destruct (String.compare s t) eqn:E; [|done..].
  intros _ []. by apply String.compare_eq_iff.
Qed.

Lemma operationLess_trans (a b c : OperationInfo) :
  operationLess b a = false -> operationLess c b = false -> operationLess c a = false.
Proof.
  unfold operationLess.
  destruct (decide (Path b = Path a)) as [E1|E1];
    destruct (decide (Path c = Path b)) as [E2|E2].
  - rewrite decide_True by congruence. apply ltb_false_trans.
  - rewrite decide_False by congruence. by rewrite E1.
  - rewrite E2. rewrite decide_False by done. by intros H _.
  - intros H1%ltb_false_le H2%ltb_false_le.
    destruct (decide (Path c = Path a)) as [E3|E3].
    + rewrite E3 in H2, E2. destruct E1. by apply (anti_symm String.le).
    + apply ltb_false_le. by etrans.
Qed.

Lemma StronglySorted_weaken {A} (R S : relation A) (l : list A) :
  (forall a b, R a b -> S a b) -> StronglySorted R l -> StronglySorted S l.
Proof.
  intros HRS. induction 1 as [|x l Hl IH Hx]; constructor; [done|].
  eapply Forall_impl; [exact Hx|]. intros y. apply HRS.
Qed.

(** X29: stabilizeTableMetadata permutes the columns and the operations
    and leaves them sorted, the columns by JSON name or else name and the
    operations by path and then method. It changes nothing else of the
    record. *)
Theorem stabilizeTableMetadata_sorts (t : TableMetadata) :
  Columns (stabilizeTableMetadata t) ≡ₚ Columns t
  /\ Operations (stabilizeTableMetadata t) ≡ₚ Operations t
  /\ StronglySorted (fun a b => String.le (sortName a) (sortName b))
       (Columns (stabilizeTableMetadata t))
  /\ sortedBy operationLess (Operations (stabilizeTableMetadata t))
  /\ Relations (stabilizeTableMetadata t) = Relations t
  /\ StructName (stabilizeTableMetadata t) = StructName t
  /\ NormalizedName (stabilizeTableMetadata t) = NormalizedName t
  /\ Source (stabilizeTableMetadata t) = Source t.
Proof.
  simpl. split_and!; try done.
  - apply sortSlice_Permutation.
  - apply sortSlice_Permutation.
  - pose proof (sortSlice_sorted columnLess
                  (fun a b => ltb_asym (sortName a) (sortName b))
                  (fun a b c => ltb_false_trans (sortName a) (sortName b) (sortName c))
                  (Columns t)) as H.
    eapply StronglySorted_weaken; [|exact H].
    intros a b Hab. by apply ltb_false_le.
  - apply sortSlice_sorted; [apply operationLess_asym | apply operationLess_trans].
Qed.

(** ** The consolidated entities *)

Lemma cloneTableMetadata_id (t : TableMetadata) : cloneTableMetadata t = t.
Proof. by destruct t. Qed.

Lemma consolidateEntry_unfold (entities : gmap string TableMetadata) (entry : TableMetadata) :
  consolidateEntry entities entry
  = if decide (entityKey entry = "") then entities
    else match entities !! entityKey entry with
         | Some existing => <[entityKey entry := mergeTableMetadata existing entry]> entities
         | None => <[entityKey entry := entry]> entities
         end.
Proof.
  unfold consolidateEntry. fold (entityKey entry).
  destruct (decide (entityKey entry = "")); [done|].
  destruct (entities !! entityKey entry); [done|]. by rewrite cloneTableMetadata_id.
Qed.

Lemma consolidate_other (entries : list TableMetadata) (acc : gmap string TableMetadata)
    (norm : string) :
  Forall (fun t => entityKey t <> norm) entries ->
  fold_left consolidateEntry entries acc !! norm = acc !! norm.
Proof.
  revert acc. induction entries as [|t entries IH]; intros acc H; [done|].
  apply Forall_cons in H as [Ht H]. simpl. rewrite IH by done.
  rewrite consolidateEntry_unfold.
  destruct (decide (entityKey t = "")); [done|].
  destruct (acc !! entityKey t); by rewrite lookup_insert_ne.
Qed.

Lemma consolidate_keys (entries : list TableMetadata) (acc : gmap string TableMetadata)
    (norm : string) :
  is_Some (fold_left consolidateEntry entries acc !! norm)
  <-> is_Some (acc !! norm) \/ (norm <> "" /\ exists t, t ∈ entries /\ entityKey t = norm).
Proof.
  revert acc. induction entries as [|t entries IH]; intros acc; simpl.
  - split; [by left|]. intros [H|(_ & t & Ht & _)]; [done | by apply elem_of_nil in Ht].
  - rewrite IH, consolidateEntry_unfold. clear IH.
    assert (Hstep :
      is_Some ((if decide (entityKey t = "") then acc
                else match acc !! entityKey t with
                     | Some existing =>
                         <[entityKey t := mergeTableMetadata existing t]> acc
                     | None => <[entityKey t := t]> acc
                     end) !! norm)
      <-> is_Some (acc !! norm) \/ (norm <> "" /\ entityKey t = norm)).
    { destruct (decide (entityKey t = "")) as [E|E].
      - split; [by left|]. intros [H|[H1 H2]]; [done | congruence].
      - destruct (decide (entityKey t = norm)) as [<-|Hne].
        + destruct (acc !! entityKey t) eqn:Ek; rewrite lookup_insert_eq;
            split; eauto.
        + destruct (acc !! entityKey t) eqn:Ek; rewrite lookup_insert_ne by done;
            (split; [by left|]); by intros [H|[_ H]]. }
    rewrite Hstep. split.
    + intros [[H|[H1 H2]]|(H1 & t' & Ht' & H2)]; [by left | right..].
      * split; [done|]. exists t. split; [by left | done].
      * split; [done|]. exists t'. split; [by right | done].
    + intros [H|(H1 & t' & [->|Ht']%elem_of_cons & H2)].
      * by left; left.
      * by left; right.
      * right. split; [done|]. by exists t'.
Qed.

Lemma consolidate_named (entries : list TableMetadata) (acc : gmap string TableMetadata) :
  Forall (fun t => NormalizedName t <> "") entries ->
  (forall norm e, acc !! norm = Some e -> NormalizedName e = norm) ->
  forall norm e, fold_left consolidateEntry entries acc !! norm = Some e ->
    NormalizedName e = norm.
Proof.
  revert acc. induction entries as [|t entries IH]; intros acc H Hacc; [done|].
  apply Forall_cons in H as [Ht H]. simpl. apply IH; [done|].
  rewrite consolidateEntry_unfold.
  assert (Hkey : entityKey t = NormalizedName t).
  { unfold entityKey. by rewrite decide_False. }
  destruct (decide (entityKey t = "")); [done|].
  intros norm e. destruct (decide (entityKey t = norm)) as [<-|Hne].
  - destruct (acc !! entityKey t) as [d|] eqn:Ek; rewrite lookup_insert_eq;
      intros <-%(inj Some); [|done]. simpl. by apply Hacc.
  - destruct (acc !! entityKey t); rewrite lookup_insert_ne by done; apply Hacc.
Qed.

Lemma consolidate_merged_stays (entries : list TableMetadata)
    (acc : gmap string TableMetadata) (norm : string) (d : TableMetadata) :
  acc !! norm = Some d -> Source d = "merged" ->
  exists e, fold_left consolidateEntry entries acc !! norm = Some e /\ Source e = "merged".
Proof.
  revert acc d. induction entries as [|t entries IH]; intros acc d Hd Hsrc; [eauto|].
  simpl. rewrite consolidateEntry_unfold.
  destruct (decide (entityKey t = "")); [by apply (IH acc d)|].
  destruct (decide (entityKey t = norm)) as [E|Hne].
  - rewrite E, Hd. apply (IH _ (mergeTableMetadata d t)); [|done].
    by rewrite lookup_insert_eq.
  - apply (IH _ d); [|done].
    destruct (acc !! entityKey t); by rewrite lookup_insert_ne.
Qed.

Lemma consolidate_merges (entries : list TableMetadata)
    (acc : gmap string TableMetadata) (norm : string) (t : TableMetadata) :
  is_Some (acc !! norm) -> t ∈ entries -> entityKey t = norm -> norm <> "" ->
  exists e, fold_left consolidateEntry entries acc !! norm = Some e /\ Source e = "merged".
Proof.
  revert acc. induction entries as [|t' entries IH]; intros acc [d Hd] Ht Hkey Hne;
    [by apply elem_of_nil in Ht|].
  simpl. rewrite consolidateEntry_unfold.
  destruct (decide (entityKey t' = norm)) as [E|Hne'].
  - rewrite E, decide_False, Hd by done.
    apply (consolidate_merged_stays _ _ _ (mergeTableMetadata d t')); [|done].
    by rewrite lookup_insert_eq.
  - apply elem_of_cons in Ht as [->|Ht]; [done|].
    apply IH; [|done..].
    destruct (decide (entityKey t' = "")); [by exists d|].
    exists d. destruct (acc !! entityKey t'); by rewrite lookup_insert_ne.
Qed.

Lemma consolidate_single (pre post : list TableMetadata) (t : TableMetadata) :
  entityKey t <> "" ->
  Forall (fun t' => entityKey t' <> entityKey t) pre ->
  Forall (fun t' => entityKey t' <> entityKey t) post ->
  fold_left consolidateEntry (pre ++ t :: post) ∅ !! entityKey t = Some t.
Proof.
  intros Hne Hpre Hpost. rewrite fold_left_app. simpl.
  rewrite consolidate_other by done.
  rewrite consolidateEntry_unfold, decide_False by done.
  rewrite consolidate_other, lookup_empty by done.
  by rewrite lookup_insert_eq.
Qed.

Lemma consolidate_twice (entries : list TableMetadata) (a b : TableMetadata)
    (l1 l2 l3 : list TableMetadata) :
  entries = l1 ++ a :: l2 ++ b :: l3 ->
  entityKey a = entityKey b -> entityKey a <> "" ->
  exists e, fold_left consolidateEntry entries ∅ !! entityKey a = Some e
            /\ Source e = "merged".
Proof.
  intros -> Hab Hne. rewrite fold_left_app.
  change (a :: l2 ++ b :: l3) with ([a] ++ (l2 ++ b :: l3)). rewrite fold_left_app.
  apply (consolidate_merges _ _ _ b); [|set_solver|done..].
  apply consolidate_keys. right. split; [done|]. exists a. split; [by left | done].
Qed.

Lemma range_entries (range : forall A, gmap string A -> list (string * A))
    (schema : SchemaMap) (t : TableMetadata) :
  iteration range ->
  t ∈ (range _ schema).*2 <-> exists k, schema !! k = Some t.
Proof.
  intros Hrange. rewrite (Hrange _ schema), list_elem_of_fmap. split.
  - intros ([k t'] & -> & H%elem_of_map_to_list). by exists k.
  - intros [k Hk]. exists (k, t). split; [done|]. by apply elem_of_map_to_list.
Qed.

Lemma two_positions {A} (l : list A) (x y : A) :
  x ∈ l -> y ∈ l -> x <> y ->
  exists l1 l2 l3, l = l1 ++ x :: l2 ++ y :: l3 \/ l = l1 ++ y :: l2 ++ x :: l3.
Proof.
  intros Hx Hy Hne. apply list_elem_of_split in Hx as (pre & post & ->).
  apply elem_of_app in Hy as [Hy|Hy].
  - apply list_elem_of_split in Hy as (p1 & p2 & ->).
    exists p1, p2, post. right. by rewrite <- app_assoc.
  - apply elem_of_cons in Hy as [->|Hy]; [done|].
    apply list_elem_of_split in Hy as (p1 & p2 & ->).
    exists pre, p1, p2. by left.
Qed.

Lemma entityList_sorted (entityOrder : gmap string TableMetadata -> list (string * TableMetadata))
    (entries : list TableMetadata) :
  StronglySorted (fun a b => String.le (NormalizedName a) (NormalizedName b))
    (EntityList (consolidateEntries entityOrder entries)).
Proof.
  simpl. eapply StronglySorted_weaken; [|apply (sortSlice_sorted nameLess)].
  - intros a b Hab. by apply ltb_false_le.
  - intros a b. apply ltb_asym.
  - intros a b c. apply ltb_false_trans.
Qed.

Lemma entityList_Permutation
    (range : forall A, gmap string A -> list (string * A)) (schema : SchemaMap) :
  iteration range ->
  EntityList (consolidateByNormalizedName range schema)
  ≡ₚ (map_to_list (Entities (consolidateByNormalizedName range schema))).*2.
Proof.
  intros Hrange. unfold consolidateByNormalizedName, consolidateEntries. simpl.
  rewrite sortSlice_Permutation. by rewrite (Hrange _ _).
Qed.

Lemma names_of_values (m : gmap string TableMetadata) :
  (forall norm e, m !! norm = Some e -> NormalizedName e = norm) ->
  NormalizedName <$> (map_to_list m).*2 = (map_to_list m).*1.
Proof.
  intros Hm.
  assert (H : Forall (fun p => NormalizedName p.2 = p.1) (map_to_list m)).
  { rewrite Forall_forall. intros [k e] Hke%elem_of_map_to_list. by apply Hm. }
  induction H as [|[k e] l Hke _ IH]; [done|].
  rewrite !fmap_cons. cbn [fst snd] in *. by rewrite Hke, IH.
Qed.

(** X21: The keys of Entities are exactly the non-empty entity keys of the
    records of the schema map (the NormalizedName, or the normalized
    StructName when that is empty). EntityList is a permutation of the
    values of Entities and is sorted by NormalizedName. *)
Theorem consolidateByNormalizedName_entities
    (range : forall A, gmap string A -> list (string * A)) (schema : SchemaMap) :
  iteration range ->
  (forall norm,
     is_Some (Entities (consolidateByNormalizedName range schema) !! norm)
     <-> norm <> "" /\ exists k t, schema !! k = Some t /\ entityKey t = norm)
  /\ EntityList (consolidateByNormalizedName range schema)
     ≡ₚ (map_to_list (Entities (consolidateByNormalizedName range schema))).*2
  /\ StronglySorted (fun a b => String.le (NormalizedName a) (NormalizedName b))
       (EntityList (consolidateByNormalizedName range schema))
  /\ GeneratedBy (consolidateByNormalizedName range schema) = "schema-architect".
Proof.
  intros Hrange. split_and!.
  - intros norm. unfold consolidateByNormalizedName, consolidateEntries. simpl.
    rewrite lookup_fmap, fmap_is_Some, consolidate_keys, lookup_empty. split.
    + intros [[? H]|(Hne & t & Ht & Hk)]; [done|]. split; [done|].
      apply range_entries in Ht as [k Hkt]; [|done]. by exists k, t.
    + intros (Hne & k & t & Hkt & Hk). right. split; [done|]. exists t.
      split; [|done]. apply range_entries; [done|]. by exists k.
  - by apply entityList_Permutation.
  - apply entityList_sorted.
  - done.
Qed.

(** X22: A record that is the only one with its entity key comes out of
    the consolidation as itself with its columns and operations sorted. As
    soon as a second record has the same key, the Source of the entity is
    merged. *)
Theorem consolidateByNormalizedName_single_or_merged
    (range : forall A, gmap string A -> list (string * A)) (schema : SchemaMap)
    (k : string) (t : TableMetadata) :
  iteration range -> schema !! k = Some t -> entityKey t <> "" ->
  ((forall k' t', schema !! k' = Some t' -> entityKey t' = entityKey t -> k' = k) ->
   Entities (consolidateByNormalizedName range schema) !! entityKey t
   = Some (stabilizeTableMetadata t))
  /\ (forall k' t', k' <> k -> schema !! k' = Some t' -> entityKey t' = entityKey t ->
      exists e, Entities (consolidateByNormalizedName range schema) !! entityKey t = Some e
                /\ Source e = "merged").
Proof.
  intros Hrange Hk Hne.
  pose proof (Hrange _ schema) as Hperm.
  assert (Hnd : NoDup (range _ schema).*1).
  { rewrite Hperm. apply NoDup_fst_map_to_list. }
  assert (Hin : (k, t) ∈ range _ schema).
  { rewrite Hperm. by apply elem_of_map_to_list. }
  unfold consolidateByNormalizedName, consolidateEntries. simpl. split.
  - intros Hunique. rewrite lookup_fmap.
    apply list_elem_of_split in Hin as (pre & post & Hl). rewrite Hl in Hnd, Hperm.
    rewrite Hl, fmap_app, fmap_cons. simpl.
    rewrite fmap_app, fmap_cons in Hnd. simpl in Hnd.
    apply NoDup_app in Hnd as (_ & Hpre & Hpost%NoDup_cons).
    destruct Hpost as [Hpost _].
    rewrite consolidate_single; [done | done | |].
    + rewrite Forall_forall. intros t' ([k' t''] & -> & Hin')%list_elem_of_fmap Heq.
      simpl in Heq. assert (k' = k) as ->.
      { apply (Hunique k' t''); [|done]. apply elem_of_map_to_list.
        rewrite <- Hperm. apply elem_of_app. by left. }
      apply (Hpre k); [|by left]. apply list_elem_of_fmap. by exists (k, t'').
    + rewrite Forall_forall. intros t' ([k' t''] & -> & Hin')%list_elem_of_fmap Heq.
      simpl in Heq. assert (k' = k) as ->.
      { apply (Hunique k' t''); [|done]. apply elem_of_map_to_list.
        rewrite <- Hperm. apply elem_of_app. right. by right. }
      apply Hpost. apply list_elem_of_fmap. by exists (k, t'').
  - intros k' t' Hkk Hk' Heq.
    assert (Hin' : (k', t') ∈ range _ schema).
    { rewrite Hperm. by apply elem_of_map_to_list. }
    destruct (two_positions _ _ _ Hin Hin') as (l1 & l2 & l3 & [Hl|Hl]);
      [intros [= ??]; by subst | |].
    + destruct (consolidate_twice (range _ schema).*2 t t' l1.*2 l2.*2 l3.*2)
        as (e & He & Hsrc); [|done|done|].
      { by rewrite Hl, !fmap_app, !fmap_cons, !fmap_app, !fmap_cons. }
      exists (stabilizeTableMetadata e). rewrite lookup_fmap, He. done.
    + destruct (consolidate_twice (range _ schema).*2 t' t l1.*2 l2.*2 l3.*2)
        as (e & He & Hsrc); [|done|by rewrite Heq|].
      { by rewrite Hl, !fmap_app, !fmap_cons, !fmap_app, !fmap_cons. }
      rewrite Heq in He.
      exists (stabilizeTableMetadata e). rewrite lookup_fmap, He. done.
Qed.

(** X23: When every record has a non-empty NormalizedName, every entity is
    stored under its own NormalizedName, and the names of EntityList are
    the sorted keys of Entities, whatever the iteration order of the maps. *)
Theorem consolidateByNormalizedName_names
    (range : forall A, gmap string A -> list (string * A)) (schema : SchemaMap) :
  iteration range ->
  (forall k t, schema !! k = Some t -> NormalizedName t <> "") ->
  (forall norm e, Entities (consolidateByNormalizedName range schema) !! norm = Some e ->
     NormalizedName e = norm)
  /\ NormalizedName <$> EntityList (consolidateByNormalizedName range schema)
     = sortStrings (map_to_list (Entities (consolidateByNormalizedName range schema))).*1.
Proof.
  intros Hrange Hnamed.
  assert (Hkey : forall norm e,
            Entities (consolidateByNormalizedName range schema) !! norm = Some e ->
            NormalizedName e = norm).
  { unfold consolidateByNormalizedName, consolidateEntries. simpl.
    intros norm e. rewrite lookup_fmap.
    destruct (fold_left _ _ _ !! norm) as [e0|] eqn:E; simpl; [|done].
    intros <-%(inj Some). simpl.
    revert E. apply consolidate_named; [|by intros ??; rewrite lookup_empty].
    rewrite Forall_forall. intros t [k Hk]%range_entries; [|done]. by apply (Hnamed k). }
  split; [exact Hkey|].
  apply (StronglySorted_unique String.le).
  - pose proof (entityList_sorted (range _) (range _ schema).*2) as H.
    by apply (StronglySorted_fmap NormalizedName _ String.le) in H.
  - apply sortStrings_keys.
  - unfold sortStrings.
    rewrite merge_sort_Permutation, (entityList_Permutation range schema Hrange).
    by rewrite (names_of_values _ Hkey).
Qed.

(** ** Merging the same column again *)

Lemma pickIntPtrMax_again x y : pickIntPtrMax (pickIntPtrMax x y) y = pickIntPtrMax x y.
Proof.
  destruct x as [x|], y as [y|]; simpl; try done.
  - destruct (y >? x)%Z eqn:E; simpl; [|by rewrite E]. by destruct (y >? y)%Z.
  - by destruct (y >? y)%Z.
Qed.

Lemma pickIntPtrMin_again x y : pickIntPtrMin (pickIntPtrMin x y) y = pickIntPtrMin x y.
Proof.
  destruct x as [x|], y as [y|]; simpl; try done.
  - destruct (y <? x)%Z eqn:E; simpl; [|by rewrite E]. by destruct (y <? y)%Z.
  - by destruct (y <? y)%Z.
Qed.

Lemma pickFloatPtrMax_again x y :
  pickFloatPtrMax (pickFloatPtrMax x y) y = pickFloatPtrMax x y.
Proof.
  destruct x as [x|], y as [y|]; simpl; try done.
  - destruct (fltb x y) eqn:E; simpl; [|by rewrite E]. by destruct (fltb y y).
  - by destruct (fltb y y).
Qed.

Lemma pickFloatPtrMin_again x y :
  pickFloatPtrMin (pickFloatPtrMin x y) y = pickFloatPtrMin x y.
Proof.
  destruct x as [x|], y as [y|]; simpl; try done.
  - destruct (fltb y x) eqn:E; simpl; [|by rewrite E]. by destruct (fltb y y).
  - by destruct (fltb y y).
Qed.

Lemma orb_again (a b : bool) : a || b || b = a || b.
Proof. by destruct a, b. Qed.

Lemma text_again (a b : string) :
  (if decide ((if decide (a = "") then b else a) = "") then b
   else if decide (a = "") then b else a)
  = if decide (a = "") then b else a.
Proof.
  destruct (decide (a = "")) as [->|Ha].
  - by destruct (decide (b = "")).
  - by rewrite decide_False.
Qed.

Lemma enum_again (a b : list string) :
  (if (length (if (length a =? 0)%nat && (0 <? length b)%nat then b else a) =? 0)%nat
      && (0 <? length b)%nat
   then b else if (length a =? 0)%nat && (0 <? length b)%nat then b else a)
  = if (length a =? 0)%nat && (0 <? length b)%nat then b else a.
Proof.
  destruct a as [|x a], b as [|y b]; done.
Qed.

Lemma mergeConstraints_again (a b : option FieldConstraints) :
  keptConstraints b ->
  mergeConstraints (mergeConstraints a b) b = mergeConstraints a b.
Proof.
  intros Hb. destruct a as [a|], b as [b|]; try done.
  - destruct (mergeConstraints_collapse a b) as [_ Hnone].
    destruct (mergeConstraints (Some a) (Some b)) as [out|] eqn:E.
    + revert E. unfold mergeConstraints.
      match goal with |- context [constraintsEmpty (Some ?o)] => set (o1 := o) end.
      destruct (constraintsEmpty (Some o1)) eqn:E1; [done|].
      intros <-%(inj Some).
      match goal with |- context [constraintsEmpty (Some ?o)] => set (o2 := o) end.
      assert (Ho : o2 = o1).
      { unfold o2, o1. cbn [Required Nullable MinLength MaxLength Minimum Maximum
                              Pattern Format Enum].
        by rewrite !orb_again, pickIntPtrMax_again, pickIntPtrMin_again,
             pickFloatPtrMax_again, pickFloatPtrMin_again, !text_again, enum_again. }
      rewrite Ho, E1. done.
    + destruct Hnone as [Hnone _]. destruct (Hnone eq_refl) as [_ Hempty].
      by rewrite (Hb b eq_refl) in Hempty.
  - by apply mergeConstraints_diag.
Qed.

Lemma type_again (a b : string) :
  let x := if bool_decide (a = "") || bool_decide (a = "Unknown")
           then (if decide (b <> "") then b else a) else a in
  (if bool_decide (x = "") || bool_decide (x = "Unknown")
   then (if decide (b <> "") then b else x) else x) = x.
Proof.
  intros x. subst x.
  destruct (bool_decide (a = "") || bool_decide (a = "Unknown")) eqn:E.
  - destruct (decide (b <> "")) as [Hb|Hb].
    + by destruct (bool_decide (b = "") || bool_decide (b = "Unknown")).
    + by rewrite E.
  - by rewrite E.
Qed.

(** X25: Merging the same column b into a column a second time changes
    nothing, provided the constraints of b are nil or not all-default. A
    column with such constraints merged with itself is itself. *)
Theorem mergeColumn_again (a b : ColumnInfo) :
  keptConstraints (Constraints b) ->
  mergeColumn (mergeColumn a b) b = mergeColumn a b
  /\ (keptConstraints (Constraints a) -> mergeColumn a a = a).
Proof.
  intros Hb. split.
  - unfold mergeColumn.
    cbn [Name JSONName cType cValidation cDescription Additional Constraints Ref
           IsArray cSource].
    rewrite !text_again, orb_again, mergeConstraints_again by done.
    f_equal. apply type_again.
  - intros Ha. destruct a as [n j t v d ad c r ia s]. unfold mergeColumn.
    cbn [Name JSONName cType cValidation cDescription Additional Constraints Ref
           IsArray cSource] in *.
    rewrite mergeConstraints_diag, orb_diag by done.
    f_equal; try (by destruct (decide (_ = ""))).
    destruct (bool_decide (t = "") || bool_decide (t = "Unknown")); [|done].
    by destruct (decide (t <> "")).
Qed.

(** ** Pointers and slices around a type *)

Lemma resolveTypeInfoFrom_flag (isCollection : bool) (expr : Expr) :
  resolveTypeInfoFrom isCollection expr
  = ((resolveTypeInfo expr).1, isCollection || (resolveTypeInfo expr).2).
Proof.
  unfold resolveTypeInfo. revert isCollection.
  induction expr as [x IH|elt IH|name|x _ sel|]; intros b; simpl.
  - apply IH.
  - rewrite (IH true). simpl. by rewrite orb_true_r.
  - by rewrite orb_false_r.
  - destruct x; simpl; by rewrite orb_false_r.
  - by rewrite orb_false_r.
Qed.

(** X9: resolveTypeInfo looks through pointers, and a slice sets the
    collection flag and keeps the name. A slice of slices gives the same
    result as one slice, and a pointer to a slice the same as a slice of
    pointers. *)
Theorem resolveTypeInfo_wrappers (expr : Expr) :
  resolveTypeInfo (StarExpr expr) = resolveTypeInfo expr
  /\ resolveTypeInfo (ArrayType expr) = ((resolveTypeInfo expr).1, true)
  /\ resolveTypeInfo (ArrayType (ArrayType expr)) = resolveTypeInfo (ArrayType expr)
  /\ resolveTypeInfo (StarExpr (ArrayType expr)) = resolveTypeInfo (ArrayType (StarExpr expr)).
Proof.
  assert (H : resolveTypeInfo (ArrayType expr) = ((resolveTypeInfo expr).1, true)).
  { unfold resolveTypeInfo at 1. simpl. by rewrite resolveTypeInfoFrom_flag. }
  split_and!; [done | done | | done].
  rewrite H. unfold resolveTypeInfo at 1. simpl.
  by rewrite resolveTypeInfoFrom_flag.
Qed.

(** ** Instances of the further properties *)

Ltac absent_byte :=
  let H := fresh "H" in intros H; cbn in H; intuition discriminate.

Lemma normalizers_differ_on_plurals_witness :
  normalizeEntityName "User" = generator.normalizeEntityName "User"
  /\ generator.normalizeEntityName "Orders" = normalizeEntityName "Orders" +:+ "s".
Proof.
  split.
  - apply (normalizers_differ_on_plurals "User"). vm_compute. reflexivity.
  - apply (normalizers_differ_on_plurals "Orders").
    + vm_compute. reflexivity.
    + vm_compute. discriminate.
Defined.

Lemma columnKey_normal_form_witness :
  strings.isASCII (JSONName userIdColumn) = true
  /\ strings.isASCII (Name userIdColumn) = true
  /\ occurs "u" (columnKey userIdColumn)
  /\ "u"%char <> "_"%char /\ "u"%char <> "-"%char /\ isUpperASCII "u" = false
  /\ (nat_of_ascii "u" < 128)%nat.
Proof.
  assert (H : occurs "u" (columnKey userIdColumn)) by (vm_compute; left; reflexivity).
  split; [reflexivity|]. split; [reflexivity|]. split; [exact H|].
  exact (columnKey_normal_form userIdColumn "u" eq_refl eq_refl H).
Defined.

Lemma parseJSONTag_name_witness :
  ~ occurs "," "id" /\ parseJSONTag ("id" +:+ "," +:+ "omitempty") = "id".
Proof.
  assert (H : ~ occurs "," "id") by absent_byte.
  split; [exact H|]. exact (proj1 (parseJSONTag_name "id" "omitempty" H)).
Defined.

Lemma toPlural_ends_in_s_witness :
  "Category" <> "" /\ strings.isASCII "Category" = true
  /\ strings.HasSuffix (strings.ToLower (generator.toPlural "Category")) "s" = true.
Proof.
  assert (H : "Category" <> "") by discriminate.
  split; [exact H|]. split; [reflexivity|].
  exact (proj1 (toPlural_ends_in_s "Category" H eq_refl)).
Defined.

Lemma walkSelects_source_witness :
  walkSelects "/" false "internal/model/do/user.go" = true
  /\ (sourceFromPath "/" "internal/model/do/user.go" = "go:do"
      \/ sourceFromPath "/" "internal/model/do/user.go" = "go:api").
Proof.
  assert (H : walkSelects "/" false "internal/model/do/user.go" = true)
    by (vm_compute; reflexivity).
  split; [exact H|].
  exact (proj2 (proj2 (walkSelects_source "/" false "internal/model/do/user.go" H))).
Defined.

Lemma openAPIRefName_of_reference_witness :
  ~ occurs "/" "User" /\ openAPIRefName "User" = "".
Proof.
  assert (H : ~ occurs "/" "User") by absent_byte.
  split; [exact H|].
  exact (proj1 (proj2 (openAPIRefName_of_reference "User" "User")) H).
Defined.

Lemma mergeConstraints_keeps_normal_form_witness :
  keptConstraints (Some (lengthBounds 1 5 one two))
  /\ keptConstraints (mergeConstraints (Some (lengthBounds 1 5 one two))
                        (Some (lengthBounds 2 9 one five))).
Proof.
  assert (H : forall lo hi l m, keptConstraints (Some (lengthBounds lo hi l m))).
  { intros lo hi l m x Hx. apply (inj Some) in Hx. subst x. reflexivity. }
  split; [apply H|].
  exact (proj1 (mergeConstraints_keeps_normal_form _ _ (H 1%Z 5%Z one two)
                  (H 2%Z 9%Z one five))).
Defined.

Lemma openAPISchemaToTableMetadata_columns_witness :
  exists meta,
    openAPISchemaToTableMetadata usersSpec "User" (at_key (Schemas usersSpec) "User")
    = Returns meta
    /\ Source meta = "openapi"
    /\ NoDup (Name <$> Columns meta).
Proof.
  assert (H : match openAPISchemaToTableMetadata usersSpec "User"
                      (at_key (Schemas usersSpec) "User") with
              | Returns _ => true
              | _ => false
              end = true) by (vm_compute; reflexivity).
  destruct (openAPISchemaToTableMetadata usersSpec "User"
              (at_key (Schemas usersSpec) "User")) as [meta| |] eqn:E;
    [|discriminate H..].
  exists meta. split; [reflexivity|].
  destruct (openAPISchemaToTableMetadata_columns _ _ _ _ E)
    as (_ & _ & Hsrc & _ & _ & _ & Hnd & _).
  split; [exact Hsrc | exact Hnd].
Defined.

Lemma null_property_panics_witness :
  sProperties nullProperty !! "id" = Some None
  /\ openAPISchemaToTableMetadata cyclicSpec "Broken" (Some nullProperty) = Panics.
Proof.
  assert (H : sProperties nullProperty !! "id" = Some None) by (vm_compute; reflexivity).
  split; [exact H|].
  exact (null_property_panics cyclicSpec "Broken" nullProperty "id" eq_refl H).
Defined.

Lemma parseOpenAPIFile_records_witness :
  exists out,
    parseOpenAPIFile canonicalRange usersSpec = Returns out
    /\ dom out = dom (Schemas usersSpec).
Proof.
  assert (H : match parseOpenAPIFile canonicalRange usersSpec with
              | Returns _ => true
              | _ => false
              end = true) by (vm_compute; reflexivity).
  destruct (parseOpenAPIFile canonicalRange usersSpec) as [out| |] eqn:E;
    [|discriminate H..].
  exists out. split; [reflexivity|].
  exact (proj1 (parseOpenAPIFile_records canonicalRange usersSpec out
                  canonicalRange_iteration E)).
Defined.

Lemma matching_operation_attached_witness :
  exists out meta,
    parseOpenAPIFile canonicalRange usersSpec = Returns out
    /\ out !! "CreateUserReq" = Some meta
    /\ postUsers ∈ Operations meta.
Proof.
  assert (H : match parseOpenAPIFile canonicalRange usersSpec with
              | Returns out =>
                  match out !! "CreateUserReq" with
                  | Some meta => bool_decide (NormalizedName meta = "CreateUser")
                  | None => false
                  end
              | _ => false
              end = true) by (vm_compute; reflexivity).
  destruct (parseOpenAPIFile canonicalRange usersSpec) as [out| |] eqn:E;
    [|discriminate H..].
  destruct (out !! "CreateUserReq") as [meta|] eqn:Ek; [|discriminate H].
  apply bool_decide_eq_true_1 in H.
  exists out, meta. split; [reflexivity|]. split; [exact Ek|].
  apply (matching_operation_attached canonicalRange usersSpec out "/users" "post"
           {[ "post" := Some postUsersOperation ]} postUsersOperation postUsers
           canonicalRange_iteration E) with (k := "CreateUserReq").
  - vm_compute. reflexivity.
  - vm_compute. reflexivity.
  - vm_compute. reflexivity.
  - vm_compute. discriminate.
  - exact Ek.
  - etrans; [exact H|]. vm_compute. reflexivity.
Defined.

Lemma entityFromPathHeuristic_version_prefix_witness :
  strings.HasPrefix "vehicles" "v" = true
  /\ entityFromPathHeuristic ("/" +:+ "vehicles") = "".
Proof.
  assert (H : strings.HasPrefix "vehicles" "v" = true) by reflexivity.
  split; [exact H|].
  apply entityFromPathHeuristic_version_prefix; [discriminate | absent_byte | by right].
Defined.

Lemma entityFromPathHeuristic_item_path_witness :
  entityFromPathHeuristic ("/" +:+ "users" +:+ "/{" +:+ "id" +:+ "}")
  = entityFromPathHeuristic ("/" +:+ "users").
Proof.
  apply (entityFromPathHeuristic_item_path "users" "id");
    [discriminate | absent_byte | absent_byte | discriminate | reflexivity].
Defined.

Lemma consolidateByNormalizedName_entities_witness :
  iteration canonicalRange
  /\ EntityList (consolidateByNormalizedName canonicalRange userAccumulator)
     ≡ₚ (map_to_list
           (Entities (consolidateByNormalizedName canonicalRange userAccumulator))).*2.
Proof.
  split; [exact canonicalRange_iteration|].
  exact (proj1 (proj2 (consolidateByNormalizedName_entities canonicalRange userAccumulator
                         canonicalRange_iteration))).
Defined.

Lemma consolidateByNormalizedName_single_or_merged_witness :
  userAccumulator !! "User" = Some userDo
  /\ userAccumulator !! "UserReq" = Some userReq
  /\ exists e,
       Entities (consolidateByNormalizedName canonicalRange userAccumulator)
         !! entityKey userDo = Some e
       /\ Source e = "merged".
Proof.
  assert (H1 : userAccumulator !! "User" = Some userDo) by (vm_compute; reflexivity).
  assert (H2 : userAccumulator !! "UserReq" = Some userReq) by (vm_compute; reflexivity).
  assert (H3 : entityKey userDo <> "") by (vm_compute; discriminate).
  split; [exact H1|]. split; [exact H2|].
  apply (proj2 (consolidateByNormalizedName_single_or_merged canonicalRange
                  userAccumulator "User" userDo canonicalRange_iteration H1 H3)
           "UserReq" userReq); [discriminate | exact H2 | vm_compute; reflexivity].
Defined.

Lemma consolidateByNormalizedName_names_witness :
  NormalizedName <$> EntityList (consolidateByNormalizedName reverseRange userAccumulator)
  = sortStrings
      (map_to_list (Entities (consolidateByNormalizedName reverseRange userAccumulator))).*1.
Proof.
  apply consolidateByNormalizedName_names; [exact reverseRange_iteration|].
  assert (H : bool_decide (map_Forall (fun (_ : string) (t : TableMetadata) =>
                NormalizedName t <> "") userAccumulator) = true)
    by (vm_compute; reflexivity).
  apply bool_decide_eq_true_1 in H. exact H.
Defined.

Lemma mergeColumn_again_witness :
  keptConstraints (Constraints userIdColumn)
  /\ mergeColumn (mergeColumn userIdColumn userIdColumn) userIdColumn
     = mergeColumn userIdColumn userIdColumn.
Proof.
  assert (H : keptConstraints (Constraints userIdColumn)) by (intros x Hx; discriminate Hx).
  split; [exact H|]. exact (proj1 (mergeColumn_again userIdColumn userIdColumn H)).
Defined.
